(** * run_eval_simlingo_local.py: the local evaluation launcher

    A shallow embedding of the job-queue construction, the completion test
    on a job's result JSON and the retry loop of the launcher, with the
    properties of its specification proved about them; then of the
    environment and the command of the evaluator, of the run over the
    queue, and of create_video_from_images.py, with further properties.

    Conventions.  A Python [str] is a [string]; each character stands for
    one code point.  A Python exception is a value of [exn] carried by
    [result].  The file system, the JSON parser and the evaluator
    subprocess are the operations of a [Host]. *)

From Stdlib Require Import ZArith QArith String Ascii List Lia.
From stdpp Require Import base tactics option list sorting gmap strings pretty.

Set Warnings "-register-all,-clear-no-such-hyp".

Open Scope string_scope.
Open Scope Z_scope.
Open Scope list_scope.

(** ** Exceptions and results *)

(** The exceptions the launcher can meet.  [KeyError] carries the key
    (an integer key in decimal), [FileNotFoundError] its message, and
    [OSError] is any other failure of the operating system. *)
Inductive exn : Type :=
| KeyError (key : string)
| TypeError
| AttributeError
| FileNotFoundError (msg : string)
| OSError.

Inductive result (A : Type) : Type :=
| Ok (a : A)
| Raise (e : exn).
Arguments Ok {A} a.
Arguments Raise {A} e.

#[global] Instance result_ret : MRet result := fun A a => Ok a.
#[global] Instance result_bind : MBind result := fun A B f r =>
  match r with
  | Ok a => f a
  | Raise e => Raise e
  end.

(** ** The values [ujson.load] returns *)

(** A Python float: not-a-number, an infinity, or a finite value. *)
Inductive pyfloat : Type :=
| FNan
| FInf (negative : bool)
| FNum (q : Q).

(** [None], [bool], [int], [float], [str], [list] and [dict].  A [dict] is
    the list of its items in insertion order; the parser yields distinct
    keys. *)
Inductive json : Type :=
| JNull
| JBool (b : bool)
| JInt (z : Z)
| JFloat (f : pyfloat)
| JStr (s : string)
| JArr (items : list json)
| JObj (fields : list (string * json)).

(** [d[key]] on the item list of a [dict]. *)
Fixpoint dict_lookup (key : string) (fields : list (string * json)) : option json :=
  match fields with
  | [] => None
  | (k, v) :: rest => if String.eqb k key then Some v else dict_lookup key rest
  end.

(** The numeric value of a [bool], [int] or [float]; [bool] is a subclass
    of [int] with [False] = 0 and [True] = 1. *)
Definition num_value (v : json) : option pyfloat :=
  match v with
  | JBool b => Some (FNum (inject_Z (if b then 1 else 0)))
  | JInt z => Some (FNum (inject_Z z))
  | JFloat f => Some f
  | _ => None
  end.

(** [x < y] on floats: false as soon as one side is not-a-number. *)
Definition float_lt (x y : pyfloat) : bool :=
  match x, y with
  | FNan, _ | _, FNan => false
  | FInf true, FInf true => false
  | FInf true, _ => true
  | _, FInf true => false
  | FInf false, _ => false
  | _, FInf false => true
  | FNum p, FNum q => negb (Qle_bool q p)
  end.

(** [x == y] on floats. *)
Definition float_eq (x y : pyfloat) : bool :=
  match x, y with
  | FNum p, FNum q => Qeq_bool p q
  | FInf a, FInf b => Bool.eqb a b
  | _, _ => false
  end.

(** [a == b] on parsed values; it never raises. *)
Fixpoint py_eq (a b : json) {struct a} : bool :=
  match num_value a, num_value b with
  | Some x, Some y => float_eq x y
  | Some _, None | None, Some _ => false
  | None, None =>
    match a, b with
    | JNull, JNull => true
    | JStr s, JStr t => String.eqb s t
    | JArr l, JArr m =>
      (fix all2 (l m : list json) {struct l} : bool :=
         match l, m with
         | [], [] => true
         | x :: l', y :: m' => py_eq x y && all2 l' m'
         | _, _ => false
         end) l m
    | JObj f, JObj g =>
      Nat.eqb (length f) (length g) &&
      (fix every (f : list (string * json)) {struct f} : bool :=
         match f with
         | [] => true
         | (k, v) :: f' =>
           match dict_lookup k g with
           | Some v' => py_eq v v'
           | None => false
           end && every f'
         end) f
    | _, _ => false
    end
  end.

(** [a < b]: numbers by value, strings and lists lexicographically, every
    other pair of types raises [TypeError]. *)
Fixpoint py_lt (a b : json) {struct a} : result bool :=
  match num_value a, num_value b with
  | Some x, Some y => Ok (float_lt x y)
  | Some _, None | None, Some _ => Raise TypeError
  | None, None =>
    match a, b with
    | JStr s, JStr t => Ok (String.ltb s t)
    | JArr l, JArr m =>
      (fix lex (l m : list json) {struct l} : result bool :=
         match l, m with
         | [], [] => Ok false
         | [], _ :: _ => Ok true
         | _ :: _, [] => Ok false
         | x :: l', y :: m' => if py_eq x y then lex l' m' else py_lt x y
         end) l m
    | _, _ => Raise TypeError
    end
  end.

(** [len(v)]. *)
Definition py_len (v : json) : result Z :=
  match v with
  | JStr s => Ok (Z.of_nat (String.length s))
  | JArr l => Ok (Z.of_nat (length l))
  | JObj f => Ok (Z.of_nat (length f))
  | _ => Raise TypeError
  end.

(** [v[key]] for a string [key]. *)
Definition py_getitem (v : json) (key : string) : result json :=
  match v with
  | JObj f =>
    match dict_lookup key f with
    | Some x => Ok x
    | None => Raise (KeyError key)
    end
  | _ => Raise TypeError
  end.

(** [v[i]] for an index [i] already known to be below [len(v)]: an item
    of a list, a one-character string of a string; a [dict] of the parser
    has string keys only, so an integer key is a [KeyError]. *)
Definition py_index (v : json) (i : nat) : result json :=
  match v with
  | JArr l =>
    match l !! i with
    | Some x => Ok x
    | None => Raise TypeError
    end
  | JStr s =>
    match String.get i s with
    | Some c => Ok (JStr (String c EmptyString))
    | None => Raise TypeError
    end
  | JObj _ => Raise (KeyError (pretty i))
  | _ => Raise TypeError
  end.

(** [v.get(key, default)]: only a [dict] has the method. *)
Definition py_get (v : json) (key : string) (default : json) : result json :=
  match v with
  | JObj f =>
    match dict_lookup key f with
    | Some x => Ok x
    | None => Ok default
    end
  | _ => Raise AttributeError
  end.

(** The items a [for] loop over [v] visits: the items of a list, the
    characters of a string, the keys of a [dict]. *)
Definition py_iter (v : json) : result (list json) :=
  match v with
  | JArr l => Ok l
  | JStr s => Ok (map (fun c => JStr (String c EmptyString)) (list_ascii_of_string s))
  | JObj f => Ok (map (fun kv => JStr (fst kv)) f)
  | _ => Raise TypeError
  end.

(** ** The completion test *)

Definition FAIL_STATUSES : gset string :=
  {[ "Failed - Agent couldn't be set up";
     "Failed";
     "Failed - Simulation crashed";
     "Failed - Agent crashed" ]}.

(** [v in FAIL_STATUSES]: the value is hashed first, which a list or a
    [dict] refuses; no number equals a string. *)
Definition in_FAIL_STATUSES (v : json) : result bool :=
  match v with
  | JStr s => Ok (bool_decide (s ∈ FAIL_STATUSES))
  | JArr _ | JObj _ => Raise TypeError
  | _ => Ok false
  end.

(** The [for record in ...] loop: [true] at the first failed record. *)
Fixpoint scan_records (records : list json) : result bool :=
  match records with
  | [] => Ok false
  | record :: rest =>
    status ← py_get record "status" JNull;
    failed ← in_FAIL_STATUSES status;
    if (failed : bool) then Ok true else scan_records rest
  end.

(** [len(progress) < 2 or progress[0] < progress[1]]. *)
Definition progress_incomplete (progress : json) : result bool :=
  n ← py_len progress;
  if n <? 2 then Ok true
  else
    completed ← py_index progress 0;
    total ← py_index progress 1;
    py_lt completed total.

(** [needs_rerun] from the parsed result on: the two lookups under
    [except KeyError], then the decision. *)
Definition needs_rerun_data (evaluation_data : json) : result bool :=
  match (checkpoint ← py_getitem evaluation_data "_checkpoint";
         progress ← py_getitem checkpoint "progress";
         Ok (checkpoint, progress)) with
  | Raise (KeyError _) => Ok true
  | Raise e => Raise e
  | Ok (checkpoint, progress) =>
    incomplete ← progress_incomplete progress;
    if (incomplete : bool) then Ok true
    else
      records ← py_get checkpoint "records" (JArr []);
      items ← py_iter records;
      scan_records items
  end.

(** ** Strings and path names *)

(** [c.lower()] on the ASCII letters.  A character outside ASCII never
    lowers to an ASCII letter of ["bench2drive"], so the comparison of
    [build_job_queue] is decided by the ASCII letters alone. *)
Definition lower_ascii (c : ascii) : ascii :=
  let n := nat_of_ascii c in
  if ((65 <=? n) && (n <=? 90))%nat then ascii_of_nat (n + 32) else c.

Fixpoint lower (s : string) : string :=
  match s with
  | EmptyString => EmptyString
  | String c rest => String (lower_ascii c) (lower rest)
  end.

(** [s.split(sep)] for a one-character separator: never empty. *)
Fixpoint split (sep : ascii) (s : string) : list string :=
  match s with
  | EmptyString => [EmptyString]
  | String c rest =>
    if Ascii.eqb c sep then EmptyString :: split sep rest
    else
      match split sep rest with
      | [] => [String c EmptyString]
      | head :: tail => String c head :: tail
      end
  end.

(** [name.rfind('.')]: the index of the last dot. *)
Fixpoint rfind_dot (name : string) : option nat :=
  match name with
  | EmptyString => None
  | String c rest =>
    match rfind_dot rest with
    | Some i => Some (S i)
    | None => if Ascii.eqb c "." then Some O else None
    end
  end.

(** [PurePath.suffix] and [PurePath.stem] of a final component: the last
    dot splits the name unless it is the first or the last character. *)
Definition suffix (name : string) : string :=
  match rfind_dot name with
  | Some i =>
    if ((0 <? i) && (i <? String.length name - 1))%nat
    then substring i (String.length name - i) name
    else ""
  | None => ""
  end.

Definition stem (name : string) : string :=
  match rfind_dot name with
  | Some i =>
    if ((0 <? i) && (i <? String.length name - 1))%nat
    then substring 0 i name
    else name
  | None => name
  end.

Fixpoint zeros (n : nat) : string :=
  match n with
  | O => EmptyString
  | S n' => String "0" (zeros n')
  end.

(** [s.zfill(width)]: zeros on the left up to [width], after a leading
    sign when there is one. *)
Definition zfill (width : nat) (s : string) : string :=
  if (width <=? String.length s)%nat then s
  else
    let fill := zeros (width - String.length s) in
    match s with
    | String c rest =>
      if Ascii.eqb c "+" || Ascii.eqb c "-" then String c (fill +:+ rest)
      else fill +:+ s
    | EmptyString => fill
    end.

(** ** Configurations and jobs *)

(** A configuration [dict]: a key the [dict] lacks is [None]. *)
Record Config : Type := {
  cfg_agent : option string;
  cfg_checkpoint : option string;
  cfg_benchmark : option string;
  cfg_route_path : option string;
  cfg_seeds : option (list Z);
  cfg_tries : option Z;
  cfg_out_root : option string;
  cfg_carla_root : option string;
  cfg_repo_root : option string;
  cfg_agent_file : option string;
  cfg_carla_port : option Z;
  cfg_carla_tm_port : option Z;
  cfg_timeout : option Z
}.

(** A job [dict]; only [remaining_tries] is ever assigned again. *)
Record Job : Type := {
  job_cfg : Config;
  job_route : string;
  job_route_id : string;
  job_seed : Z;
  job_viz_path : string;
  job_result_file : string;
  job_log_file : string;
  job_err_file : string;
  remaining_tries : Z
}.

(** [job["remaining_tries"] = n]. *)
Definition set_remaining_tries (n : Z) (job : Job) : Job :=
  {| job_cfg := job_cfg job;
     job_route := job_route job;
     job_route_id := job_route_id job;
     job_seed := job_seed job;
     job_viz_path := job_viz_path job;
     job_result_file := job_result_file job;
     job_log_file := job_log_file job;
     job_err_file := job_err_file job;
     remaining_tries := n |}.

(** ** The host *)

(** What the launcher asks of [os], [pathlib], [ujson] and [subprocess].
    [iterdir] lists the entry names of a directory in the order the
    operating system gives them; [ujson_load] is [None] when opening or
    parsing the file raises; [run_evaluator] stands for the body of
    [launch_job] up to the return code of the evaluator. *)
Class Host : Type := {
  World : Type;
  expand_path : string -> string;
  path_join : string -> string -> string;
  path_parent : string -> string;
  path_exists : World -> string -> bool;
  iterdir : World -> string -> result (list string);
  mkdir : string -> World -> result World;
  ujson_load : World -> string -> option json;
  run_evaluator : Job -> World -> result Z * World
}.

(** [cfg[key]]. *)
Definition cfg_item {A : Type} (key : string) (field : option A) : result A :=
  match field with
  | Some x => Ok x
  | None => Raise (KeyError key)
  end.

(** [cfg.setdefault(key, default)]. *)
Definition setdefault {A : Type} (field : option A) (default : A) : option A :=
  match field with
  | Some x => Some x
  | None => Some default
  end.

(** The [for name, path in required_paths.items()] loop. *)
Fixpoint check_required_paths `{Host} (w : World) (required_paths : list (string * string))
  : result unit :=
  match required_paths with
  | [] => Ok tt
  | (name, path) :: rest =>
    if path_exists w path then check_required_paths w rest
    else Raise (FileNotFoundError (name +:+ " does not exist: " +:+ path))
  end.

(** A monadic left fold: a [for] loop whose body can raise. *)
Fixpoint for_each {A S : Type} (body : S -> A -> result S) (l : list A) (s : S) : result S :=
  match l with
  | [] => Ok s
  | x :: rest => s' ← body s x; for_each body rest s'
  end.

#[global] Instance result_fmap : FMap result := fun A B f r =>
  match r with
  | Ok a => Ok (f a)
  | Raise e => Raise e
  end.

(** ** Resolving a configuration *)

(** The copy of the configuration with the path fields it has expanded
    and the four defaults set. *)
Definition resolved `{Host} (cfg : Config) : Config :=
  {| cfg_agent := cfg_agent cfg;
     cfg_checkpoint := expand_path <$> cfg_checkpoint cfg;
     cfg_benchmark := cfg_benchmark cfg;
     cfg_route_path := expand_path <$> cfg_route_path cfg;
     cfg_seeds := cfg_seeds cfg;
     cfg_tries := setdefault (cfg_tries cfg) 1;
     cfg_out_root := expand_path <$> cfg_out_root cfg;
     cfg_carla_root := expand_path <$> cfg_carla_root cfg;
     cfg_repo_root := expand_path <$> cfg_repo_root cfg;
     cfg_agent_file := expand_path <$> cfg_agent_file cfg;
     cfg_carla_port := setdefault (cfg_carla_port cfg) 2000;
     cfg_carla_tm_port := setdefault (cfg_carla_tm_port cfg) 2500;
     cfg_timeout := setdefault (cfg_timeout cfg) 600 |}.

(** [preprocess_config]: after the copy, the five required paths are
    read (a missing key raises [KeyError]) and looked up on disk in this
    order.  The paths are expanded already, so [Path] prints them as they
    are. *)
Definition preprocess_config `{Host} (w : World) (cfg : Config) : result Config :=
  let cfg := resolved cfg in
  route_path ← cfg_item "route_path" (cfg_route_path cfg);
  carla_root ← cfg_item "carla_root" (cfg_carla_root cfg);
  repo_root ← cfg_item "repo_root" (cfg_repo_root cfg);
  agent_file ← cfg_item "agent_file" (cfg_agent_file cfg);
  checkpoint ← cfg_item "checkpoint" (cfg_checkpoint cfg);
  _ ← check_required_paths w
        [("route_path", route_path);
         ("carla_root", carla_root);
         ("repo_root", repo_root);
         ("agent_file", agent_file);
         ("checkpoint", checkpoint)];
  Ok cfg.

(** ** Route discovery *)

(** The comprehension and [sorted] of [discover_routes], on the entry
    names of the directory: paths of one directory compare as their
    names do, character by character. *)
Definition sorted_xml (entries : list string) : list string :=
  merge_sort String.le (filter (fun name => suffix name = ".xml") entries).

Definition discover_routes `{Host} (w : World) (route_dir : string) : result (list string) :=
  entries ← iterdir w route_dir;
  Ok (sorted_xml entries).

(** ** Building the job queue *)

(** [fill_zeros] of a configuration. *)
Definition fill_zeros_of (benchmark : string) : nat :=
  if bool_decide (lower benchmark = "bench2drive") then 3%nat else 2%nat.

(** [route.stem.split("_")[-1].zfill(fill_zeros)]. *)
Definition route_id_of (fill_zeros : nat) (name : string) : string :=
  let route_suffix := List.last (split "_" (stem name)) "" in
  zfill fill_zeros route_suffix.

(** The [job] of a route: its identifier and the files named after it. *)
Definition make_job `{Host} (cfg : Config) (base_dir : string) (seed_int : Z)
    (fill_zeros : nat) (route_dir : string) (tries : Z) (name : string) : Job :=
  let route_id := route_id_of fill_zeros name in
  {| job_cfg := cfg;
     job_route := path_join route_dir name;
     job_route_id := route_id;
     job_seed := seed_int;
     job_viz_path := path_join (path_join base_dir "viz") route_id;
     job_result_file := path_join (path_join base_dir "res") (route_id +:+ "_res.json");
     job_log_file := path_join (path_join base_dir "out") (route_id +:+ "_out.log");
     job_err_file := path_join (path_join base_dir "err") (route_id +:+ "_err.log");
     remaining_tries := tries |}.

(** The body of [for route in routes]. *)
Definition add_route `{Host} (cfg : Config) (base_dir : string) (seed_int : Z)
    (fill_zeros : nat) (route_dir : string)
    (s : list Job * World) (name : string) : result (list Job * World) :=
  let viz_path := path_join (path_join base_dir "viz") (route_id_of fill_zeros name) in
  w ← mkdir (path_parent viz_path) s.2;
  tries ← cfg_item "tries" (cfg_tries cfg);
  Ok (s.1 ++ [make_job cfg base_dir seed_int fill_zeros route_dir tries name], w).

(** The body of [for seed in seeds]. *)
Definition add_seed `{Host} (cfg : Config) (routes : list string)
    (fill_zeros : nat) (route_dir : string)
    (s : list Job * World) (seed : Z) : result (list Job * World) :=
  let seed_int := seed in
  let seed_str := pretty seed_int in
  out_root ← cfg_item "out_root" (cfg_out_root cfg);
  agent ← cfg_item "agent" (cfg_agent cfg);
  benchmark ← cfg_item "benchmark" (cfg_benchmark cfg);
  let base_dir := path_join (path_join (path_join out_root agent) benchmark) seed_str in
  w ← for_each (fun w sub => mkdir (path_join base_dir sub) w) ["run"; "res"; "out"; "err"] s.2;
  for_each (add_route cfg base_dir seed_int fill_zeros route_dir) routes (s.1, w).

(** The body of [for cfg_idx, raw_cfg in enumerate(configs)]. *)
Definition add_config `{Host} (s : list Job * World) (raw_cfg : Config)
  : result (list Job * World) :=
  cfg ← preprocess_config s.2 raw_cfg;
  route_dir ← cfg_item "route_path" (cfg_route_path cfg);
  routes ← discover_routes s.2 route_dir;
  benchmark ← cfg_item "benchmark" (cfg_benchmark cfg);
  let fill_zeros := fill_zeros_of benchmark in
  let seeds := default [1] (cfg_seeds cfg) in
  for_each (add_seed cfg routes fill_zeros route_dir) seeds s.

Definition build_job_queue `{Host} (configs : list Config) (w : World)
  : result (list Job * World) :=
  for_each add_config configs ([], w).

(** ** The completion test on a job *)

Definition needs_rerun `{Host} (job : Job) (w : World) : result bool :=
  let result_file := job_result_file job in
  if negb (path_exists w result_file) then Ok true
  else
    match ujson_load w result_file with
    | None => Ok true
    | Some evaluation_data => needs_rerun_data evaluation_data
    end.

(** ** Running one job *)

(** [launch_job]: success is a return code of zero. *)
Definition launch_job `{Host} (job : Job) (w : World) : result bool * World :=
  let '(returncode, w') := run_evaluator job w in
  ((fun rc => rc =? 0) <$> returncode, w').

(** The lines [process_job] prints. *)
Inductive message : Type :=
| MsgSkip (route_id : string) (seed : Z)
| MsgRun (route_id : string) (seed : Z) (attempt_idx : Z)
| MsgDone (route_id : string) (seed : Z)
| MsgRetry (route_id : string) (seed : Z) (tries_left : Z)
| MsgFail (route_id : string) (seed : Z).

(** Where a call of [process_job] stands: at the head of the [while]
    loop, returned, or left by an exception. *)
Inductive control : Type :=
| Looping
| Returned (succeeded : bool)
| Raised (e : exn).

(** The state of a call of [process_job]: the job, the world, the jobs
    [launch_job] was called on so far and the lines printed so far, both
    oldest first. *)
Record Run `{Host} : Type := {
  run_job : Job;
  run_world : World;
  run_launched : list Job;
  run_stdout : list message;
  run_control : control
}.

(** One turn of [while job["remaining_tries"] > 0], the test included;
    when the test fails the code after the loop runs.  A returned or
    raised call stays as it is. *)
Definition process_job_iteration `{Host} (total_tries : Z) (r : Run) : Run :=
  match run_control r with
  | Looping =>
    let job := run_job r in
    let w := run_world r in
    let rid := job_route_id job in
    let seed := job_seed job in
    if 0 <? remaining_tries job then
      match needs_rerun job w with
      | Raise e =>
        {| run_job := job; run_world := w; run_launched := run_launched r;
           run_stdout := run_stdout r; run_control := Raised e |}
      | Ok false =>
        {| run_job := job; run_world := w; run_launched := run_launched r;
           run_stdout := run_stdout r ++ [MsgSkip rid seed];
           run_control := Returned true |}
      | Ok true =>
        let attempt_idx := total_tries - remaining_tries job + 1 in
        let out := run_stdout r ++ [MsgRun rid seed attempt_idx] in
        let '(success, w) := launch_job job w in
        let launched := run_launched r ++ [job] in
        match success with
        | Raise e =>
          {| run_job := job; run_world := w; run_launched := launched;
             run_stdout := out; run_control := Raised e |}
        | Ok success =>
          let job := set_remaining_tries (remaining_tries job - 1) job in
          match (if success then negb <$> needs_rerun job w else Ok false) with
          | Raise e =>
            {| run_job := job; run_world := w; run_launched := launched;
               run_stdout := out; run_control := Raised e |}
          | Ok true =>
            {| run_job := job; run_world := w; run_launched := launched;
               run_stdout := out ++ [MsgDone rid seed];
               run_control := Returned true |}
          | Ok false =>
            {| run_job := job; run_world := w; run_launched := launched;
               run_stdout :=
                 if 0 <? remaining_tries job
                 then out ++ [MsgRetry rid seed (remaining_tries job)]
                 else out;
               run_control := Looping |}
          end
        end
      end
    else
      {| run_job := job; run_world := w; run_launched := run_launched r;
         run_stdout := run_stdout r ++ [MsgFail rid seed];
         run_control := Returned false |}
  | _ => r
  end.

(** The call [process_job(job)] in world [w], before its first turn. *)
Definition process_job_start `{Host} (job : Job) (w : World) : Run :=
  {| run_job := job; run_world := w; run_launched := [];
     run_stdout := []; run_control := Looping |}.

(** The call after [k] turns of the loop. *)
Definition process_job_run `{Host} (job : Job) (w : World) (k : nat) : Run :=
  Nat.iter k (process_job_iteration (remaining_tries job)) (process_job_start job w).

(** [process_job]: every turn that launches the evaluator takes one try,
    so the loop is left after at most [remaining_tries] turns and one
    more test. *)
Definition process_job `{Host} (job : Job) (w : World) : Run :=
  process_job_run job w (S (Z.to_nat (remaining_tries job))).

(** ** A small host to run the launcher on *)

(** A disk: the paths that exist, the entries of its directories and the
    files that parse as JSON. *)
Record Disk : Type := {
  disk_paths : list string;
  disk_entries : list (string * list string);
  disk_json : list (string * json)
}.

Definition disk_mkdir (path : string) (d : Disk) : Disk :=
  {| disk_paths := path :: disk_paths d;
     disk_entries := disk_entries d;
     disk_json := disk_json d |}.

(** The disk after the evaluator wrote [data] to [path]. *)
Definition disk_write (path : string) (data : json) (d : Disk) : Disk :=
  {| disk_paths := path :: disk_paths d;
     disk_entries := disk_entries d;
     disk_json := (path, data) :: disk_json d |}.

Fixpoint join_slash (parts : list string) : string :=
  match parts with
  | [] => ""
  | [x] => x
  | x :: rest => x +:+ "/" +:+ join_slash rest
  end.

(** A host over disks whose evaluator behaves as [evaluator] says; paths
    are absolute already and joined with a slash. *)
Definition disk_host (evaluator : Job -> Disk -> result Z * Disk) : Host :=
  {| World := Disk;
     expand_path := fun path => path;
     path_join := fun a b => a +:+ "/" +:+ b;
     path_parent := fun path => join_slash (removelast (split "/" path));
     path_exists := fun d path => bool_decide (path ∈ disk_paths d);
     iterdir := fun d dir =>
       match list_find (fun e => e.1 = dir) (disk_entries d) with
       | Some (_, (_, names)) => Ok names
       | None => Raise OSError
       end;
     mkdir := fun path d => Ok (disk_mkdir path d);
     ujson_load := fun d path => dict_lookup path (disk_json d);
     run_evaluator := evaluator |}.

(** A host whose disk is empty and stays so, with an evaluator that
    always exits with [rc]. *)
Definition empty_host (rc : Z) : Host :=
  {| World := unit;
     expand_path := fun path => path;
     path_join := fun a b => a +:+ "/" +:+ b;
     path_parent := fun path => join_slash (removelast (split "/" path));
     path_exists := fun _ _ => false;
     iterdir := fun _ _ => Raise OSError;
     mkdir := fun _ _ => Raise OSError;
     ujson_load := fun _ _ => None;
     run_evaluator := fun _ _ => (Ok rc, tt) |}.

(** An evaluator that always exits with [rc] and writes nothing. *)
Definition exits_with (rc : Z) (job : Job) (d : Disk) : result Z * Disk := (Ok rc, d).

(** A result file in the format of the evaluator. *)
Definition result_json (completed total : Z) (statuses : list string) : json :=
  JObj [("_checkpoint",
         JObj [("progress", JArr [JInt completed; JInt total]);
               ("records", JArr (map (fun s => JObj [("status", JStr s)]) statuses))])].

Definition demo_cfg : Config :=
  {| cfg_agent := Some "simlingo";
     cfg_checkpoint := Some "/ckpt/pytorch_model.pt";
     cfg_benchmark := Some "Bench2Drive";
     cfg_route_path := Some "/routes";
     cfg_seeds := Some [1];
     cfg_tries := Some 3;
     cfg_out_root := Some "/out";
     cfg_carla_root := Some "/carla";
     cfg_repo_root := Some "/repo";
     cfg_agent_file := Some "/repo/agent.py";
     cfg_carla_port := None;
     cfg_carla_tm_port := None;
     cfg_timeout := None |}.

Definition demo_job (tries : Z) : Job :=
  {| job_cfg := demo_cfg;
     job_route := "/routes/route_7.xml";
     job_route_id := "007";
     job_seed := 1;
     job_viz_path := "/out/simlingo/Bench2Drive/1/viz/007";
     job_result_file := "/out/simlingo/Bench2Drive/1/res/007_res.json";
     job_log_file := "/out/simlingo/Bench2Drive/1/out/007_out.log";
     job_err_file := "/out/simlingo/Bench2Drive/1/err/007_err.log";
     remaining_tries := tries |}.

(** A disk with the inputs of [demo_cfg] and no result file. *)
Definition demo_disk : Disk :=
  {| disk_paths := ["/routes"; "/carla"; "/repo"; "/repo/agent.py"; "/ckpt/pytorch_model.pt"];
     disk_entries := [("/routes", ["route_10.xml"; "notes.txt"; "route_2.xml"; "route_7.xml"])];
     disk_json := [] |}.

(** [demo_disk] with a result file holding [data] for [demo_job]. *)
Definition demo_disk_with (data : json) : Disk :=
  disk_write (job_result_file (demo_job 0)) data demo_disk.

(** ** Notions used by the statements *)

(** The [required_paths] of [preprocess_config], as the raw configuration
    gives them. *)
Definition required_fields (cfg : Config) : list (string * option string) :=
  [("route_path", cfg_route_path cfg);
   ("carla_root", cfg_carla_root cfg);
   ("repo_root", cfg_repo_root cfg);
   ("agent_file", cfg_agent_file cfg);
   ("checkpoint", cfg_checkpoint cfg)].

(** Every required field is given and names, once expanded, a path that
    exists. *)
Definition all_required_exist `{Host} (w : World) (cfg : Config) : Prop :=
  Forall (fun field => exists path, field.2 = Some path /\
                       path_exists w (expand_path path) = true)
         (required_fields cfg).

(** Every required field is given. *)
Definition all_required_given (cfg : Config) : Prop :=
  Forall (fun field : string * option string => is_Some field.2) (required_fields cfg).

(** [x <= y] on floats. *)
Definition float_le (x y : pyfloat) : bool :=
  match x, y with
  | FNan, _ | _, FNan => false
  | FInf true, _ => true
  | _, FInf false => true
  | FInf false, _ => false
  | _, FInf true => false
  | FNum p, FNum q => Qle_bool p q
  end.

(** [a < b] and [a >= b] between two numbers. *)
Definition num_lt (a b : json) : Prop :=
  exists x y, num_value a = Some x /\ num_value b = Some y /\ float_lt x y = true.

Definition num_ge (a b : json) : Prop :=
  exists x y, num_value a = Some x /\ num_value b = Some y /\ float_le y x = true.

Definition is_number (v : json) : Prop := is_Some (num_value v).

(** The values a set can be asked about: all but lists and [dict]s. *)
Definition hashable (v : json) : Prop :=
  match v with
  | JArr _ | JObj _ => False
  | _ => True
  end.

(** An attempt record: an object whose status, when it has one, can be
    hashed (a string in the evaluator's files). *)
Definition is_record (record : json) : Prop :=
  exists fields, record = JObj fields /\
    forall v, dict_lookup "status" fields = Some v -> hashable v.

(** An attempt record whose status is one of [FAIL_STATUSES]. *)
Definition failed_record (record : json) : Prop :=
  exists fields status, record = JObj fields /\
    dict_lookup "status" fields = Some (JStr status) /\ status ∈ FAIL_STATUSES.

(** The states of a result file that [needs_rerun] answers without a
    verdict of complete: missing, unreadable, without its checkpoint or
    progress, or with a progress list that is short or behind. *)
Inductive not_complete `{Host} (job : Job) (w : World) : Prop :=
| nc_missing :
    path_exists w (job_result_file job) = false -> not_complete job w
| nc_unparsable :
    ujson_load w (job_result_file job) = None -> not_complete job w
| nc_no_checkpoint fields :
    ujson_load w (job_result_file job) = Some (JObj fields) ->
    dict_lookup "_checkpoint" fields = None -> not_complete job w
| nc_no_progress fields checkpoint :
    ujson_load w (job_result_file job) = Some (JObj fields) ->
    dict_lookup "_checkpoint" fields = Some (JObj checkpoint) ->
    dict_lookup "progress" checkpoint = None -> not_complete job w
| nc_short_progress fields checkpoint items :
    ujson_load w (job_result_file job) = Some (JObj fields) ->
    dict_lookup "_checkpoint" fields = Some (JObj checkpoint) ->
    dict_lookup "progress" checkpoint = Some (JArr items) ->
    (length items < 2)%nat -> not_complete job w
| nc_behind fields checkpoint completed total rest :
    ujson_load w (job_result_file job) = Some (JObj fields) ->
    dict_lookup "_checkpoint" fields = Some (JObj checkpoint) ->
    dict_lookup "progress" checkpoint = Some (JArr (completed :: total :: rest)) ->
    num_lt completed total -> not_complete job w.

(** [sep.join(parts)] for a one-character separator. *)
Fixpoint join_with (sep : ascii) (parts : list string) : string :=
  match parts with
  | [] => ""
  | [x] => x
  | x :: rest => x +:+ String sep (join_with sep rest)
  end.

(** [c in s]. *)
Fixpoint contains (c : ascii) (s : string) : bool :=
  match s with
  | EmptyString => false
  | String a rest => Ascii.eqb a c || contains c rest
  end.

(** An evaluator that fails until the last try, on which it writes a
    complete result and exits with zero. *)
Definition succeeds_on_last_try (job : Job) (d : Disk) : result Z * Disk :=
  if remaining_tries job =? 1
  then (Ok 0, disk_write (job_result_file job) (result_json 1 1 ["Completed"]) d)
  else (Ok 1, d).

(** [job] is the job the queue holds for route [name] of directory
    [route_dir] under seed [seed] of the resolved configuration [cfg]. *)
Definition job_of `{Host} (cfg : Config) (fill_zeros : nat) (route_dir : string)
    (seed : Z) (name : string) (job : Job) : Prop :=
  exists out_root agent benchmark tries,
    cfg_out_root cfg = Some out_root /\ cfg_agent cfg = Some agent /\
    cfg_benchmark cfg = Some benchmark /\ cfg_tries cfg = Some tries /\
    job = make_job cfg
            (path_join (path_join (path_join out_root agent) benchmark) (pretty seed))
            seed fill_zeros route_dir tries name.

(** ** The environment and the command of the evaluator *)

(** [s.endswith(suf)]. *)
Fixpoint endswith (suf s : string) : bool :=
  String.eqb suf s ||
  match s with
  | EmptyString => false
  | String _ rest => endswith suf rest
  end.

(** [os.path.join(a, b)] of [posixpath]: an absolute [b] replaces [a],
    and a slash is put between the two unless [a] is empty or ends with
    one. *)
Definition os_path_join (a b : string) : string :=
  if String.prefix "/" b then b
  else if String.eqb a "" || endswith "/" a then a +:+ b
  else a +:+ "/" +:+ b.

(** [os.path.join(a, *parts)]. *)
Definition os_path_join_all (a : string) (parts : list string) : string :=
  fold_left os_path_join parts a.

(** [extra_py_paths] of [prepare_environment]. *)
Definition extra_py_paths (carla_root repo_root : string) : list string :=
  [os_path_join_all carla_root ["PythonAPI"; "carla"];
   os_path_join_all carla_root
     ["PythonAPI"; "carla"; "dist"; "carla-0.9.15-py3.7-linux-x86_64.egg"];
   repo_root;
   os_path_join_all repo_root ["Bench2Drive"; "leaderboard"];
   os_path_join_all repo_root ["Bench2Drive"; "scenario_runner"]].

(** [prepare_environment], on the environment of the launcher
    [environ]; a [viz_path] is the string it prints as. *)
Definition prepare_environment (environ : gmap string string) (cfg : Config)
    (viz_path : string) : result (gmap string string) :=
  let env := environ in
  carla_root ← cfg_item "carla_root" (cfg_carla_root cfg);
  repo_root ← cfg_item "repo_root" (cfg_repo_root cfg);
  let leaderboard_root := os_path_join_all repo_root ["Bench2Drive"; "leaderboard"] in
  let scenario_runner_root :=
    os_path_join_all repo_root ["Bench2Drive"; "scenario_runner"] in
  let env := <["CARLA_ROOT" := carla_root]> env in
  let env := <["SCENARIO_RUNNER_ROOT" := scenario_runner_root]> env in
  let env := <["LEADERBOARD_ROOT" := leaderboard_root]> env in
  let env := <["SAVE_PATH" := viz_path]> env in
  let existing_py := default "" (env !! "PYTHONPATH") in
  let combined_paths :=
    extra_py_paths carla_root repo_root ++
    (if String.eqb existing_py "" then [] else [existing_py]) in
  Ok (<["PYTHONPATH" := join_with ":" combined_paths]> env).

(** The [command] list of [launch_job]. *)
Definition launch_command (job : Job) : result (list string) :=
  let cfg := job_cfg job in
  repo_root ← cfg_item "repo_root" (cfg_repo_root cfg);
  let leaderboard_entry :=
    os_path_join_all repo_root
      ["Bench2Drive"; "leaderboard"; "leaderboard"; "leaderboard_evaluator.py"] in
  timeout ← cfg_item "timeout" (cfg_timeout cfg);
  agent_file ← cfg_item "agent_file" (cfg_agent_file cfg);
  checkpoint ← cfg_item "checkpoint" (cfg_checkpoint cfg);
  carla_port ← cfg_item "carla_port" (cfg_carla_port cfg);
  carla_tm_port ← cfg_item "carla_tm_port" (cfg_carla_tm_port cfg);
  Ok ["python";
      "-u";
      leaderboard_entry;
      "--routes=" +:+ job_route job;
      "--repetitions=1";
      "--track=SENSORS";
      "--checkpoint=" +:+ job_result_file job;
      "--timeout=" +:+ pretty timeout;
      "--agent=" +:+ agent_file;
      "--agent-config=" +:+ checkpoint;
      "--traffic-manager-seed=" +:+ pretty (job_seed job);
      "--port=" +:+ pretty carla_port;
      "--traffic-manager-port=" +:+ pretty carla_tm_port].

(** ** The run over the queue *)

(** The lines [main] prints: its own and those of [process_job]. *)
Inductive line : Type :=
| LineNoJobs
| LineJob (m : message)
| LineFailedHeader
| LineFailedJob (route_id : string) (seed : Z)
| LineAllDone.

(** Where a call of [main] stands: between two jobs of the loop over
    the queue, inside a call of [process_job] that has not returned,
    returned, or left by an exception. *)
Inductive main_control : Type :=
| MainLoop
| MainInJob
| MainReturned
| MainRaised (e : exn).

(** The state of a call of [main]: the world, the lines printed, the
    jobs launched, the [failures] list, the number of calls of
    [progress.update(1)], and where the call stands. *)
Record MainRun `{Host} : Type := {
  main_world : World;
  main_stdout : list line;
  main_launched : list Job;
  main_failures : list (string * Z);
  main_progress : nat;
  main_where : main_control
}.

(** The body of the [for job in job_queue] loop of [main]:
    [progress.update(1)] is in a [finally], so it also counts a job
    whose [process_job] raises; the exception then leaves [main]. *)
Definition run_one `{Host} (job : Job) (m : MainRun) : MainRun :=
  let r := process_job job (main_world m) in
  let out := main_stdout m ++ (LineJob <$> run_stdout r) in
  let launched := main_launched m ++ run_launched r in
  match run_control r with
  | Returned succeeded =>
    let failures :=
      if succeeded then main_failures m
      else main_failures m ++ [(job_route_id job, job_seed job)] in
    {| main_world := run_world r; main_stdout := out;
       main_launched := launched; main_failures := failures;
       main_progress := S (main_progress m); main_where := MainLoop |}
  | Raised e =>
    {| main_world := run_world r; main_stdout := out;
       main_launched := launched; main_failures := main_failures m;
       main_progress := S (main_progress m); main_where := MainRaised e |}
  | Looping =>
    {| main_world := run_world r; main_stdout := out;
       main_launched := launched; main_failures := main_failures m;
       main_progress := main_progress m; main_where := MainInJob |}
  end.

(** The loop: it goes on to the next job unless the call has left
    [main]. *)
Fixpoint run_queue `{Host} (job_queue : list Job) (m : MainRun) : MainRun :=
  match job_queue with
  | [] => m
  | job :: rest =>
    let m' := run_one job m in
    match main_where m' with
    | MainLoop => run_queue rest m'
    | _ => m'
    end
  end.

(** The summary [main] prints after the loop. *)
Definition summary (failures : list (string * Z)) : list line :=
  match failures with
  | [] => [LineAllDone]
  | _ => LineFailedHeader :: map (fun f => LineFailedJob f.1 f.2) failures
  end.

(** [main], on the configurations [configs] that [CONFIGS] holds. *)
Definition main `{Host} (configs : list Config) (w : World) : MainRun :=
  match build_job_queue configs w with
  | Raise e =>
    {| main_world := w; main_stdout := []; main_launched := [];
       main_failures := []; main_progress := O; main_where := MainRaised e |}
  | Ok ([], w) =>
    {| main_world := w; main_stdout := [LineNoJobs]; main_launched := [];
       main_failures := []; main_progress := O; main_where := MainReturned |}
  | Ok (job_queue, w) =>
    let m := run_queue job_queue
               {| main_world := w; main_stdout := []; main_launched := [];
                  main_failures := []; main_progress := O;
                  main_where := MainLoop |} in
    match main_where m with
    | MainLoop =>
      {| main_world := main_world m;
         main_stdout := main_stdout m ++ summary (main_failures m);
         main_launched := main_launched m; main_failures := main_failures m;
         main_progress := main_progress m; main_where := MainReturned |}
    | _ => m
    end
  end.

(** ** create_video_from_images.py *)

(** What the script asks of [os] and [cv2]: the listing of a directory,
    and the image a file reads as, [None] when it cannot be read, with
    its height and width. *)
Class Imaging : Type := {
  Image : Type;
  listdir : string -> result (list string);
  imread : string -> option Image;
  image_height : Image -> nat;
  image_width : Image -> nat
}.

(** [c] is a decimal digit: what [\d] matches among the characters of
    an ASCII name. *)
Definition is_digit (c : ascii) : bool :=
  let n := nat_of_ascii c in ((48 <=? n) && (n <=? 57))%nat.

(** [int] of the run of digits [s] starts with, after the digits read
    into [acc]. *)
Fixpoint digits_value (acc : N) (s : string) : N :=
  match s with
  | EmptyString => acc
  | String c rest =>
    if is_digit c
    then digits_value (acc * 10 + N.of_nat (nat_of_ascii c - 48)) rest
    else acc
  end.

(** [extract_number]: the first run of digits of the name, or 0. *)
Fixpoint extract_number (filename : string) : N :=
  match filename with
  | EmptyString => 0%N
  | String c rest =>
    if is_digit c then digits_value 0 filename else extract_number rest
  end.

(** [list.sort(key=key)]: a stable sort, here by insertion. *)
Fixpoint insert_by {A : Type} (key : A -> N) (x : A) (l : list A) : list A :=
  match l with
  | [] => [x]
  | y :: rest => if (key x <=? key y)%N then x :: l else y :: insert_by key x rest
  end.

Definition sort_by {A : Type} (key : A -> N) (l : list A) : list A :=
  foldr (insert_by key) [] l.

(** The comprehension of [create_video_from_images] and its sort. *)
Definition image_files (entries : list string) : list string :=
  sort_by extract_number
    (filter (fun f => endswith ".png" f || endswith ".jpg" f || endswith ".jpeg" f = true)
            entries).

(** What the script prints and asks of the video writer. *)
Inductive video_event `{Imaging} : Type :=
| VNoImages (images_dir : string)
| VFound (count : nat) (first_few : list string)
| VLastFew (last_few : list string)
| VFirstUnreadable (path : string)
| VDimensions (width height : nat)
| VOpen (output_video : string) (fps : Z) (width height : nat)
| VSkipped (image_file : string)
| VWrite (img : Image)
| VProcessed (done total : nat)
| VRelease
| VCreated (output_video : string).

(** The [for i, image_file in enumerate(image_files)] loop, from index
    [i] on. *)
Fixpoint write_frames `{Imaging} (images_dir : string) (total i : nat)
    (files : list string) : list video_event :=
  match files with
  | [] => []
  | image_file :: rest =>
    match imread (os_path_join images_dir image_file) with
    | None => VSkipped image_file :: write_frames images_dir total (S i) rest
    | Some img =>
      VWrite img ::
      (if (S i mod 10 =? 0)%nat then [VProcessed (S i) total] else []) ++
      write_frames images_dir total (S i) rest
    end
  end.

Definition create_video_from_images `{Imaging} (images_dir output_video : string)
    (fps : Z) : result (list video_event) :=
  entries ← listdir images_dir;
  let files := image_files entries in
  match files with
  | [] => Ok [VNoImages images_dir]
  | first :: _ =>
    let found :=
      [VFound (length files) (take 5 files);
       VLastFew (drop (length files - 5) files)] in
    let first_image_path := os_path_join images_dir first in
    match imread first_image_path with
    | None => Ok (found ++ [VFirstUnreadable first_image_path])
    | Some frame =>
      let height := image_height frame in
      let width := image_width frame in
      Ok (found ++
          [VDimensions width height; VOpen output_video fps width height] ++
          write_frames images_dir (length files) 0 files ++
          [VRelease; VCreated output_video])
    end
  end.

(** ** Notions used by the further statements *)

(** The attempt number of a [RUN] line. *)
Definition run_attempt (m : message) : option Z :=
  match m with
  | MsgRun _ _ attempt_idx => Some attempt_idx
  | _ => None
  end.

(** The lines printed while the loop goes on: [RUN] and [RETRY]. *)
Definition is_progress_line (m : message) : Prop :=
  match m with
  | MsgRun _ _ _ | MsgRetry _ _ _ => True
  | _ => False
  end.

(** The job a [FAIL] line of [main]'s output is about. *)
Definition failed_line (l : line) : option (string * Z) :=
  match l with
  | LineJob (MsgFail route_id seed) => Some (route_id, seed)
  | _ => None
  end.

(** The job a line of the summary lists. *)
Definition summary_line (l : line) : option (string * Z) :=
  match l with
  | LineFailedJob route_id seed => Some (route_id, seed)
  | _ => None
  end.

(** The launches and the counter add up to the tries the job came
    with; a launch that raised took no try. *)
Definition tries_accounted `{Host} (init : Z) (r : Run) : Prop :=
  (0 <= remaining_tries (run_job r) \/
   (remaining_tries (run_job r) = init /\ run_launched r = [])) /\
  match run_control r with
  | Raised _ =>
    Z.of_nat (length (run_launched r)) = init - remaining_tries (run_job r) \/
    (Z.of_nat (length (run_launched r)) = init - remaining_tries (run_job r) + 1 /\
     0 < remaining_tries (run_job r))
  | Returned false =>
    Z.of_nat (length (run_launched r)) = init - remaining_tries (run_job r) /\
    remaining_tries (run_job r) <= 0
  | _ => Z.of_nat (length (run_launched r)) = init - remaining_tries (run_job r)
  end.

(** The [RUN] lines carry the attempt numbers 1, 2, ... in order, one
    per launch. *)
Definition attempts_numbered `{Host} (init : Z) (r : Run) : Prop :=
  tries_accounted init r /\
  omap run_attempt (run_stdout r) = seqZ 1 (Z.of_nat (length (run_launched r))).

(** The line that closes a call on [job] returning [succeeded]: [SKIP]
    or [DONE] for [True], [FAIL] for [False], with the job's route and
    seed. *)
Definition closing_line (job : Job) (succeeded : bool) (m : message) : Prop :=
  if succeeded
  then m = MsgSkip (job_route_id job) (job_seed job) \/
       m = MsgDone (job_route_id job) (job_seed job)
  else m = MsgFail (job_route_id job) (job_seed job).

(** The output of a call: [RUN] and [RETRY] lines, closed by one line
    once the call has returned. *)
Definition log_shaped `{Host} (r : Run) : Prop :=
  match run_control r with
  | Returned succeeded =>
    exists body final,
      run_stdout r = body ++ [final] /\ Forall is_progress_line body /\
      closing_line (run_job r) succeeded final
  | _ => Forall is_progress_line (run_stdout r)
  end.

(** The [(route_id, seed)] pair [main] records for a failed job. *)
Definition job_key (job : Job) : string * Z := (job_route_id job, job_seed job).

(** [jobs] put in front of the queue of [s]. *)
Definition prefix_jobs `{Host} (jobs : list Job) (s : list Job * World)
  : list Job * World := (jobs ++ s.1, s.2).

(** The directory [base_dir] of a seed, for a configuration that has
    [out_root], [agent] and [benchmark]. *)
Definition base_dir_of `{Host} (cfg : Config) (seed : Z) : string :=
  path_join
    (path_join (path_join (default "" (cfg_out_root cfg)) (default "" (cfg_agent cfg)))
               (default "" (cfg_benchmark cfg)))
    (pretty seed).

(** [demo_disk] without the simulator root. *)
Definition disk_without_carla : Disk :=
  {| disk_paths := ["/routes"; "/repo"; "/repo/agent.py"; "/ckpt/pytorch_model.pt"];
     disk_entries := disk_entries demo_disk;
     disk_json := [] |}.

(** [demo_cfg] without its [repo_root]. *)
Definition cfg_without_repo_root : Config :=
  {| cfg_agent := Some "simlingo";
     cfg_checkpoint := Some "/ckpt/pytorch_model.pt";
     cfg_benchmark := Some "Bench2Drive";
     cfg_route_path := Some "/routes";
     cfg_seeds := Some [1];
     cfg_tries := Some 3;
     cfg_out_root := Some "/out";
     cfg_carla_root := Some "/carla";
     cfg_repo_root := None;
     cfg_agent_file := Some "/repo/agent.py";
     cfg_carla_port := None;
     cfg_carla_tm_port := None;
     cfg_timeout := None |}.

(** A disk whose route directory holds two routes with the same last
    token. *)
Definition twin_disk : Disk :=
  {| disk_paths := disk_paths demo_disk;
     disk_entries := [("/routes", ["a_7.xml"; "b_7.xml"])];
     disk_json := [] |}.

(** The variables [prepare_environment] sets. *)
Definition prepared_variables : list string :=
  ["CARLA_ROOT"; "SCENARIO_RUNNER_ROOT"; "LEADERBOARD_ROOT"; "SAVE_PATH"; "PYTHONPATH"].

(** [s] holds a digit. *)
Fixpoint has_digit (s : string) : bool :=
  match s with
  | EmptyString => false
  | String c rest => is_digit c || has_digit rest
  end.

(** [s] starts with a digit. *)
Definition starts_with_digit (s : string) : bool :=
  match s with
  | EmptyString => false
  | String c _ => is_digit c
  end.

(** The name of an image file. *)
Definition is_image_name (f : string) : Prop :=
  endswith ".png" f || endswith ".jpg" f || endswith ".jpeg" f = true.

(** The frame a [video.write] call was given. *)
Definition written_frame `{Imaging} (e : video_event) : option Image :=
  match e with
  | VWrite img => Some img
  | _ => None
  end.

(** The file a warning says was skipped. *)
Definition skipped_file `{Imaging} (e : video_event) : option string :=
  match e with
  | VSkipped image_file => Some image_file
  | _ => None
  end.

(** The calls that reach the video file: the writer is created, given a
    frame, released. *)
Definition touches_video `{Imaging} (e : video_event) : Prop :=
  match e with
  | VOpen _ _ _ _ | VWrite _ | VRelease => True
  | _ => False
  end.

(** The writer a call created: file, rate, width and height. *)
Definition opened_writer `{Imaging} (e : video_event) : option (string * Z * nat * nat) :=
  match e with
  | VOpen output_video fps width height => Some (output_video, fps, width, height)
  | _ => None
  end.

(** The name of the frame numbered [n]. *)
Definition numbered_name (pre post : string) (n : N) : string :=
  pre +:+ pretty n +:+ post.

(** [f] of directory [images_dir] can be read. *)
Definition readable `{Imaging} (images_dir f : string) : Prop :=
  is_Some (imread (os_path_join images_dir f)).

(** A result whose second record failed and whose third is not a
    record. *)
Definition broken_checkpoint : list (string * json) :=
  [("progress", JArr [JInt 1; JInt 1]);
   ("records", JArr [JObj [("status", JStr "Completed")];
                     JObj [("status", JStr "Failed")];
                     JInt 3])].

Definition broken_result : json := JObj [("_checkpoint", JObj broken_checkpoint)].

(** A launcher environment with a search path of two entries. *)
Definition demo_environ : gmap string string :=
  {[ "PYTHONPATH" := "/usr/lib/python:/opt/tools"; "HOME" := "/root" ]}.

(** Three directories of images: [/viz], with an image that cannot be
    read and a file that is no image; [/run], with twelve frames; and
    [/empty]. *)
Definition demo_imaging : Imaging :=
  {| Image := string;
     listdir := fun dir =>
       if String.eqb dir "/viz" then Ok ["10.png"; "notes.txt"; "2.png"; "1.jpg"]
       else if String.eqb dir "/run"
       then Ok ["0.png"; "1.png"; "10.png"; "11.png"; "2.png"; "3.png"; "4.png";
                "5.png"; "6.png"; "7.png"; "8.png"; "9.png"]
       else if String.eqb dir "/empty" then Ok []
       else Raise (FileNotFoundError dir);
     imread := fun path => if String.eqb path "/viz/2.png" then None else Some path;
     image_height := fun _ => 480%nat;
     image_width := fun _ => 640%nat |}.

(** A configuration that names a route directory which does not exist
    and gives no checkpoint. *)
Definition cfg_missing_path_and_key : Config :=
  {| cfg_agent := Some "simlingo";
     cfg_checkpoint := None;
     cfg_benchmark := Some "Bench2Drive";
     cfg_route_path := Some "/nowhere";
     cfg_seeds := Some [1];
     cfg_tries := Some 3;
     cfg_out_root := Some "/out";
     cfg_carla_root := Some "/carla";
     cfg_repo_root := Some "/repo";
     cfg_agent_file := Some "/repo/agent.py";
     cfg_carla_port := None;
     cfg_carla_tm_port := None;
     cfg_timeout := None |}.

(** A directory of three images whose first one in order cannot be
    read. *)
Definition dark_imaging : Imaging :=
  {| Image := string;
     listdir := fun dir =>
       if String.eqb dir "/dark" then Ok ["3.png"; "1.png"; "2.png"]
       else Raise (FileNotFoundError dir);
     imread := fun path => if String.eqb path "/dark/1.png" then None else Some path;
     image_height := fun _ => 480%nat;
     image_width := fun _ => 640%nat |}.

(** * Properties *)

Lemma result_bind_ok {A B : Type} (r : result A) (f : A -> result B) (b : B) :
  r ≫= f = Ok b -> exists a, r = Ok a /\ f a = Ok b.
Proof. destruct r as [a|e]; [by exists a|done]. Qed.

(** ** Strings and path names *)

Example stem_suffix_route : (stem "route_7.xml", suffix "route_7.xml") = ("route_7", ".xml").
Proof. reflexivity. Qed.

Example suffix_hidden_file : (stem ".xml", suffix ".xml", suffix "notes.") = (".xml", "", "").
Proof. reflexivity. Qed.

Example split_underscores : split "_" "town_05__7" = ["town"; "05"; ""; "7"].
Proof. reflexivity. Qed.

Example zfill_signs : (zfill 3 "7", zfill 3 "-7", zfill 2 "123", zfill 3 "") = ("007", "-07", "123", "000").
Proof. reflexivity. Qed.

Example lower_mixed_case : lower "Bench2DRIVE" = "bench2drive".
Proof. reflexivity. Qed.

Lemma split_nonempty (sep : ascii) (s : string) : split sep s <> [].
Proof.
  destruct s as [|c rest]; cbn; [done|].
  destruct (Ascii.eqb c sep); [done|]. by destruct (split sep rest).
Qed.

Lemma split_join (sep : ascii) (s : string) : join_with sep (split sep s) = s.
Proof.
  induction s as [|c rest IH]; [done|]. cbn [split].
  destruct (Ascii.eqb_spec c sep) as [->|Hne].
  - pose proof (split_nonempty sep rest).
    destruct (split sep rest) as [|head tail] eqn:Hsplit; [done|].
    cbn [join_with]. by rewrite <- IH.
  - pose proof (split_nonempty sep rest).
    destruct (split sep rest) as [|head tail] eqn:Hsplit; [done|].
    rewrite <- IH. by destruct tail.
Qed.

Lemma split_no_sep (sep : ascii) (s : string) : Forall (fun part => contains sep part = false) (split sep s).
Proof.
  induction s as [|c rest IH]; [by repeat constructor|]. cbn [split].
  destruct (Ascii.eqb_spec c sep) as [->|Hne]; [by constructor|].
  destruct (split sep rest) as [|head tail]; cbn.
  - repeat constructor. cbn. by destruct (Ascii.eqb_spec c sep).
  - apply Forall_cons in IH as [Hhead Htail]. constructor; [|done].
    cbn. rewrite Hhead. by destruct (Ascii.eqb_spec c sep).
Qed.

Lemma string_app_cons (c : ascii) (a b : string) :
  String c a +:+ b = String c (a +:+ b).
Proof. reflexivity. Qed.

Lemma string_app_nil_r (s : string) : s +:+ "" = s.
Proof. induction s as [|c s IH]; [done|]. by rewrite string_app_cons, IH. Qed.

Lemma substring_all (s : string) : substring 0 (String.length s) s = s.
Proof. induction s; cbn; by f_equal. Qed.

Lemma substring_split (i : nat) (s : string) :
  (i <= String.length s)%nat ->
  substring 0 i s +:+ substring i (String.length s - i) s = s.
Proof.
  revert i. induction s as [|c rest IH]; intros [|i] Hi; cbn in Hi; try lia.
  - done.
  - rewrite Nat.sub_0_r, substring_all. by destruct c.
  - cbn [substring String.length Nat.sub]. rewrite string_app_cons.
    f_equal. apply IH. lia.
Qed.

Lemma rfind_dot_bound (name : string) (i : nat) : rfind_dot name = Some i -> (i < String.length name)%nat.
Proof.
  revert i. induction name as [|c rest IH]; intros i; cbn; [done|].
  destruct (rfind_dot rest) as [j|].
  - intros [= <-]. specialize (IH j eq_refl). lia.
  - destruct (Ascii.eqb c "."); [|done]. intros [= <-]. lia.
Qed.

Lemma stem_suffix (name : string) : stem name +:+ suffix name = name.
Proof.
  unfold stem, suffix. destruct (rfind_dot name) as [i|] eqn:Hdot.
  - apply rfind_dot_bound in Hdot.
    destruct ((0 <? i)%nat && (i <? String.length name - 1)%nat).
    + apply substring_split. lia.
    + apply string_app_nil_r.
  - apply string_app_nil_r.
Qed.

Lemma zeros_length (n : nat) : String.length (zeros n) = n.
Proof. induction n; cbn; by f_equal. Qed.

Lemma string_length_app (s t : string) : String.length (s +:+ t) = (String.length s + String.length t)%nat.
Proof.
  induction s as [|c s IH]; [done|].
  rewrite string_app_cons. cbn. by rewrite IH.
Qed.

Lemma zfill_length (width : nat) (s : string) :
  String.length (zfill width s) = Nat.max width (String.length s).
Proof.
  unfold zfill. destruct (Nat.leb_spec width (String.length s)); [lia|].
  destruct s as [|c rest]; cbn [String.length] in *.
  - rewrite zeros_length. lia.
  - destruct (Ascii.eqb c "+" || Ascii.eqb c "-"); cbn [String.length];
      rewrite string_length_app, zeros_length; cbn [String.length]; lia.
Qed.

(** ** Comparisons of parsed values *)

Example py_lt_bool_int : py_lt (JBool true) (JInt 2) = Ok true.
Proof. reflexivity. Qed.

Example py_lt_int_str : py_lt (JInt 1) (JStr "a") = Raise TypeError.
Proof. reflexivity. Qed.

Example py_lt_lists :
  py_lt (JArr [JInt 1; JStr "a"]) (JArr [JFloat (FNum 1); JStr "b"]) = Ok true.
Proof. reflexivity. Qed.

Example py_lt_nan : py_lt (JFloat FNan) (JInt 1) = Ok false.
Proof. reflexivity. Qed.

(** ** Route discovery *)

Lemma sorted_xml_Sorted (entries : list string) : Sorted String.le (sorted_xml entries).
Proof. apply Sorted_merge_sort. apply _. Qed.

Lemma sorted_xml_Permutation (entries : list string) :
  sorted_xml entries ≡ₚ filter (fun name => suffix name = ".xml") entries.
Proof. apply merge_sort_Permutation. Qed.

Lemma sorted_xml_order_independent (entries entries' : list string) :
  entries ≡ₚ entries' -> sorted_xml entries = sorted_xml entries'.
Proof.
  intros Hperm. apply (Sorted_unique String.le); try apply sorted_xml_Sorted.
  rewrite !sorted_xml_Permutation. by rewrite Hperm.
Qed.

(** C8.  Route discovery returns exactly the entries of the directory
    with the suffix [.xml], sorted by name in character order; whatever
    order the directory lists its entries in, the result is the same; and
    a directory holding route_10.xml, route_2.xml and route_1.xml gives
    route_1.xml, route_10.xml, route_2.xml. *)
Theorem discover_routes_sorted `{Host} (w : World) (route_dir : string)
    (entries : list string) :
  iterdir w route_dir = Ok entries ->
  exists routes,
    discover_routes w route_dir = Ok routes /\
    Sorted String.le routes /\
    routes ≡ₚ filter (fun name => suffix name = ".xml") entries /\
    (forall w' route_dir' entries',
        iterdir w' route_dir' = Ok entries' -> entries' ≡ₚ entries ->
        discover_routes w' route_dir' = Ok routes) /\
    (entries ≡ₚ ["route_10.xml"; "route_2.xml"; "route_1.xml"] ->
     routes = ["route_1.xml"; "route_10.xml"; "route_2.xml"]).
Proof.
  intros Hdir. exists (sorted_xml entries). unfold discover_routes.
  rewrite Hdir. simpl. split; [done|].
  split; [apply sorted_xml_Sorted|].
  split; [apply sorted_xml_Permutation|]. split.
  - intros w' dir' entries' Hdir' Hperm. rewrite Hdir'. simpl.
    f_equal. by apply sorted_xml_order_independent.
  - intros Hperm. by rewrite (sorted_xml_order_independent _ _ Hperm).
Qed.

Lemma discover_routes_sorted_witness :
  exists routes,
    @discover_routes (disk_host (exits_with 0)) demo_disk "/routes" = Ok routes /\
    routes = ["route_10.xml"; "route_2.xml"; "route_7.xml"].
Proof.
  destruct (@discover_routes_sorted (disk_host (exits_with 0)) demo_disk "/routes"
              ["route_10.xml"; "notes.txt"; "route_2.xml"; "route_7.xml"] eq_refl)
    as (routes & Hroutes & _).
  exists routes. split; [exact Hroutes|].
  vm_compute in Hroutes. congruence.
Defined.

(** ** Resolving a configuration *)

Lemma check_required_paths_cases `{Host} (w : World) (l : list (string * string)) :
  (check_required_paths w l = Ok tt /\
   Forall (fun entry => path_exists w entry.2 = true) l) \/
  (exists name path,
      (name, path) ∈ l /\ path_exists w path = false /\
      check_required_paths w l =
        Raise (FileNotFoundError (name +:+ " does not exist: " +:+ path))).
Proof.
  induction l as [|[name path] l IH]; [left; by split|].
  cbn [check_required_paths]. destruct (path_exists w path) eqn:Hpath.
  - destruct IH as [[Hok Hall]|(name' & path' & Hin & Hno & Hraise)].
    + left. split; [done|]. by constructor.
    + right. exists name', path'. split; [by apply list_elem_of_further|done].
  - right. exists name, path. split; [apply list_elem_of_here|done].
Qed.

Lemma setdefault_default {A : Type} (field : option A) (d : A) :
  setdefault field d = Some (default d field).
Proof. by destruct field. Qed.

Lemma preprocess_config_given `{Host} (raw : Config) :
  all_required_given raw ->
  exists given : list (string * string),
    required_fields raw = (fun entry => (entry.1, Some entry.2)) <$> given /\
    forall w, preprocess_config w raw =
      check_required_paths w ((fun entry => (entry.1, expand_path entry.2)) <$> given)
      ≫= fun _ => Ok (resolved raw).
Proof.
  unfold all_required_given, required_fields, preprocess_config. intros Hgiven.
  repeat match goal with
         | Hg : Forall _ (_ :: _) |- _ =>
           let Hhd := fresh "Hhd" in
           apply Forall_cons in Hg as [[? Hhd] Hg]; cbn [snd] in Hhd
         end.
  match goal with
  | H1 : cfg_route_path raw = Some ?p1, H2 : cfg_carla_root raw = Some ?p2,
    H3 : cfg_repo_root raw = Some ?p3, H4 : cfg_agent_file raw = Some ?p4,
    H5 : cfg_checkpoint raw = Some ?p5 |- _ =>
    exists [("route_path", p1); ("carla_root", p2); ("repo_root", p3);
            ("agent_file", p4); ("checkpoint", p5)];
    cbn [resolved cfg_route_path cfg_carla_root cfg_repo_root cfg_agent_file
         cfg_checkpoint];
    by rewrite H1, H2, H3, H4, H5
  end.
Qed.

Lemma preprocess_config_not_given `{Host} (w : World) (raw : Config) :
  ~ all_required_given raw ->
  exists key, preprocess_config w raw = Raise (KeyError key).
Proof.
  unfold all_required_given, required_fields, preprocess_config. intros Hnot.
  cbn [resolved cfg_route_path cfg_carla_root cfg_repo_root cfg_agent_file
       cfg_checkpoint].
  destruct (cfg_route_path raw); [|by eexists].
  destruct (cfg_carla_root raw); [|by eexists].
  destruct (cfg_repo_root raw); [|by eexists].
  destruct (cfg_agent_file raw); [|by eexists].
  destruct (cfg_checkpoint raw); [|by eexists].
  destruct Hnot. repeat constructor; by eexists.
Qed.

Lemma all_required_exist_given `{Host} (w : World) (raw : Config) :
  all_required_exist w raw -> all_required_given raw.
Proof.
  unfold all_required_exist, all_required_given. intros Hall.
  eapply Forall_impl; [exact Hall|].
  intros field (path & Hpath & _). by exists path.
Qed.

Lemma preprocess_config_ok `{Host} (w : World) (raw cfg : Config) :
  preprocess_config w raw = Ok cfg -> cfg = resolved raw.
Proof.
  unfold preprocess_config. intros Hok.
  repeat (apply result_bind_ok in Hok as (? & _ & Hok)). congruence.
Qed.

Lemma resolved_tries `{Host} (raw : Config) :
  cfg_tries (resolved raw) = Some (default 1 (cfg_tries raw)).
Proof. apply setdefault_default. Qed.

(** C9.  [preprocess_config] returns a configuration exactly when every
    required path field (route_path, carla_root, repo_root, agent_file,
    checkpoint) is given and its expanded path exists; the configuration
    returned carries carla_port 2000, carla_tm_port 2500, timeout 600 and
    tries 1 where the raw one had none, and its path fields expanded; and
    when the five fields are given and one of them names a path that does
    not exist, it raises [FileNotFoundError] whose message names such a
    field and its expanded path. *)
Theorem preprocess_config_required_paths `{Host} (w : World) (raw : Config) :
  ((exists cfg, preprocess_config w raw = Ok cfg) <-> all_required_exist w raw) /\
  (forall cfg, preprocess_config w raw = Ok cfg ->
     cfg = resolved raw /\
     cfg_carla_port cfg = Some (default 2000 (cfg_carla_port raw)) /\
     cfg_carla_tm_port cfg = Some (default 2500 (cfg_carla_tm_port raw)) /\
     cfg_timeout cfg = Some (default 600 (cfg_timeout raw)) /\
     cfg_tries cfg = Some (default 1 (cfg_tries raw))) /\
  (all_required_given raw ->
   forall name path,
     (name, Some path) ∈ required_fields raw ->
     path_exists w (expand_path path) = false ->
     exists name' path',
       (name', Some path') ∈ required_fields raw /\
       path_exists w (expand_path path') = false /\
       preprocess_config w raw =
         Raise (FileNotFoundError
                  (name' +:+ " does not exist: " +:+ expand_path path'))).
Proof.
  destruct (decide (all_required_given raw)) as [Hgiven|Hnot].
  2: { destruct (preprocess_config_not_given w raw Hnot) as [key Hkey].
       rewrite Hkey. split; [split|split].
       - by intros [cfg ?].
       - intros Hall. by apply all_required_exist_given in Hall.
       - by intros cfg ?.
       - by intros ?. }
  destruct (preprocess_config_given raw Hgiven) as (given & Hfields & Hrun).
  rewrite Hrun. unfold all_required_exist. rewrite Hfields.
  destruct (check_required_paths_cases w
              ((fun entry => (entry.1, expand_path entry.2)) <$> given))
    as [[Hok Hall]|(name' & path' & Hin & Hno & Hraise)].
  - rewrite Hok. cbn [mbind result_bind].
    rewrite Forall_fmap in Hall. split; [split|split].
    + intros _. rewrite Forall_fmap.
      eapply Forall_impl; [exact Hall|]. intros entry Hentry. by eexists.
    + by eexists.
    + intros cfg [= <-]. unfold resolved. cbn.
      by rewrite !setdefault_default.
    + intros _ name path Hname Hmissing. exfalso.
      apply list_elem_of_fmap in Hname as (entry & [= -> ->] & Hentry).
      rewrite Forall_forall in Hall. specialize (Hall entry Hentry).
      cbn in Hall. congruence.
  - rewrite Hraise. cbn [mbind result_bind].
    apply list_elem_of_fmap in Hin as (entry & [= -> ->] & Hentry).
    split; [split|split].
    + by intros [cfg ?].
    + rewrite Forall_fmap, Forall_forall. intros Hall.
      destruct (Hall entry Hentry) as (path & [= <-] & Hexists). congruence.
    + by intros cfg ?.
    + intros _ _ _ _ _. exists entry.1, entry.2.
      split; [|done]. apply list_elem_of_fmap. by exists entry.
Qed.

Lemma preprocess_config_required_paths_witness :
  (exists cfg, @preprocess_config (disk_host (exits_with 0)) demo_disk demo_cfg = Ok cfg) /\
  cfg_timeout (@resolved (disk_host (exits_with 0)) demo_cfg) = Some 600.
Proof.
  destruct (@preprocess_config_required_paths (disk_host (exits_with 0))
              demo_disk demo_cfg) as ([_ Hreturns] & Hdefaults & _).
  assert (Hcfg : exists cfg,
             @preprocess_config (disk_host (exits_with 0)) demo_disk demo_cfg = Ok cfg).
  { apply Hreturns. repeat constructor; eexists; split; reflexivity. }
  split; [exact Hcfg|].
  destruct Hcfg as [cfg Hcfg].
  destruct (Hdefaults cfg Hcfg) as (-> & _ & _ & Htimeout & _). exact Htimeout.
Defined.

(** C9, as the claim has it, fails: a configuration that names a route
    directory which does not exist and gives no checkpoint is refused
    with [KeyError] of the absent key, raised while the required paths
    are read and before any of them is looked up: the error names
    neither the route directory nor its field. *)
Lemma preprocess_config_missing_path_and_key_raises_key_error :
  cfg_route_path cfg_missing_path_and_key = Some "/nowhere" /\
  @path_exists (disk_host (exits_with 0)) demo_disk
    (@expand_path (disk_host (exits_with 0)) "/nowhere") = false /\
  @preprocess_config (disk_host (exits_with 0)) demo_disk cfg_missing_path_and_key
  = Raise (KeyError "checkpoint").
Proof. repeat split; reflexivity. Qed.

(** ** The completion test *)

Lemma py_lt_numbers (a b : json) (x y : pyfloat) :
  num_value a = Some x -> num_value b = Some y -> py_lt a b = Ok (float_lt x y).
Proof.
  intros Ha Hb.
  destruct a; try discriminate Ha; destruct b; try discriminate Hb;
    injection Ha as <-; injection Hb as <-; reflexivity.
Qed.

Lemma float_le_not_lt (x y : pyfloat) : float_le y x = true -> float_lt x y = false.
Proof.
  destruct x as [|[]|p], y as [|[]|q]; cbn; try done.
  intros ->. done.
Qed.

Lemma progress_incomplete_short (items : list json) :
  (length items < 2)%nat -> progress_incomplete (JArr items) = Ok true.
Proof.
  intros Hlen. unfold progress_incomplete. cbn [py_len mbind result_bind].
  destruct (Z.ltb_spec (Z.of_nat (length items)) 2); [done|lia].
Qed.

Lemma progress_incomplete_pair (completed total : json) (rest : list json) :
  progress_incomplete (JArr (completed :: total :: rest)) = py_lt completed total.
Proof.
  unfold progress_incomplete. cbn [py_len mbind result_bind length].
  destruct (Z.ltb_spec (Z.of_nat (S (S (length rest)))) 2); [lia|].
  cbn. by destruct (py_lt completed total).
Qed.

Lemma progress_incomplete_numbers (items : list json) :
  Forall is_number items -> exists b, progress_incomplete (JArr items) = Ok b.
Proof.
  intros Hnum. destruct items as [|completed [|total rest]].
  - exists true. apply progress_incomplete_short. simpl. lia.
  - exists true. apply progress_incomplete_short. simpl. lia.
  - apply Forall_cons in Hnum as [[x Hx] Hnum].
    apply Forall_cons in Hnum as [[y Hy] _].
    rewrite progress_incomplete_pair, (py_lt_numbers _ _ _ _ Hx Hy). by eexists.
Qed.

Example needs_rerun_data_complete : needs_rerun_data (result_json 3 3 ["Completed"]) = Ok false.
Proof. reflexivity. Qed.

Example needs_rerun_data_behind : needs_rerun_data (result_json 2 3 ["Completed"]) = Ok true.
Proof. reflexivity. Qed.

Example needs_rerun_data_crashed :
  needs_rerun_data (result_json 3 3 ["Completed"; "Failed - Simulation crashed"]) = Ok true.
Proof. reflexivity. Qed.

Example needs_rerun_data_top_level_list : needs_rerun_data (JArr []) = Raise TypeError.
Proof. reflexivity. Qed.

Example needs_rerun_data_unhashable_status :
  needs_rerun_data
    (JObj [("_checkpoint",
            JObj [("progress", JArr [JInt 1; JInt 1]);
                  ("records", JArr [JObj [("status", JArr [])]])])])
  = Raise TypeError.
Proof. reflexivity. Qed.

(** What the loop body computes on an attempt record. *)
Lemma record_verdict (record : json) :
  is_record record ->
  exists failed : bool,
    (py_get record "status" JNull ≫= in_FAIL_STATUSES) = Ok failed /\
    (failed = true <-> failed_record record).
Proof.
  intros (fields & -> & Hstatus). unfold failed_record. cbn [py_get].
  destruct (dict_lookup "status" fields) as [v|] eqn:Hv; cbn [mbind result_bind].
  - specialize (Hstatus v eq_refl).
    destruct v; try done; cbn [in_FAIL_STATUSES];
      try (exists false; split; [done|]; split; [done|];
           intros (? & ? & [= <-] & ? & _); congruence).
    exists (bool_decide (s ∈ FAIL_STATUSES)). split; [done|].
    rewrite bool_decide_eq_true. split.
    + intros Hin. by exists fields, s.
    + intros (? & ? & [= <-] & ? & ?). congruence.
  - exists false. split; [done|]. split; [done|].
    intros (? & ? & [= <-] & ? & _). congruence.
Qed.

Lemma scan_records_cons (record : json) (rest : list json) :
  scan_records (record :: rest) =
    (py_get record "status" JNull ≫= in_FAIL_STATUSES)
    ≫= fun failed : bool => if failed then Ok true else scan_records rest.
Proof.
  cbn [scan_records]. by destruct (py_get record "status" JNull).
Qed.

Lemma scan_records_failed (records : list json) :
  Forall is_record records -> Exists failed_record records ->
  scan_records records = Ok true.
Proof.
  induction 1 as [|record rest Hrecord Hrest IH]; intros Hfailed.
  - by apply Exists_nil in Hfailed.
  - rewrite scan_records_cons.
    destruct (record_verdict record Hrecord) as (failed & -> & Hiff).
    cbn [mbind result_bind]. destruct failed; [done|].
    apply Exists_cons in Hfailed as [Hhere|Hlater]; [|by apply IH].
    apply Hiff in Hhere. discriminate.
Qed.

Lemma scan_records_clean (records : list json) :
  Forall is_record records -> Forall (fun record => ~ failed_record record) records ->
  scan_records records = Ok false.
Proof.
  induction 1 as [|record rest Hrecord Hrest IH]; intros Hclean; [done|].
  apply Forall_cons in Hclean as [Hhere Hlater].
  rewrite scan_records_cons.
  destruct (record_verdict record Hrecord) as (failed & -> & Hiff).
  cbn [mbind result_bind]. destruct failed; [|by apply IH].
  destruct Hhere. by apply Hiff.
Qed.

(** [needs_rerun_data] once the two lookups have succeeded. *)
Lemma needs_rerun_data_progress (fields checkpoint : list (string * json))
    (progress : json) :
  dict_lookup "_checkpoint" fields = Some (JObj checkpoint) ->
  dict_lookup "progress" checkpoint = Some progress ->
  needs_rerun_data (JObj fields) =
    progress_incomplete progress ≫= fun incomplete : bool =>
      if incomplete then Ok true
      else py_get (JObj checkpoint) "records" (JArr []) ≫= fun records =>
           py_iter records ≫= scan_records.
Proof.
  intros Hcheckpoint Hprogress. unfold needs_rerun_data.
  cbn [py_getitem]. rewrite Hcheckpoint. cbn [mbind result_bind py_getitem].
  by rewrite Hprogress.
Qed.

Lemma needs_rerun_parsed `{Host} (job : Job) (w : World) (data : json) :
  ujson_load w (job_result_file job) = Some data ->
  needs_rerun_data data = Ok true -> needs_rerun job w = Ok true.
Proof.
  intros Hload Hdata. unfold needs_rerun. rewrite Hload, Hdata.
  by destruct (path_exists w (job_result_file job)).
Qed.

(** C4, as the code has it.  When the result file is missing, cannot be
    read or parsed, is an object without [_checkpoint], has a checkpoint
    object without [progress], or has a progress list of fewer than two
    items or with a first number below the second, [needs_rerun] returns
    [True] and raises nothing. *)
Theorem needs_rerun_not_complete `{Host} (job : Job) (w : World) :
  not_complete job w -> needs_rerun job w = Ok true.
Proof.
  intros [Hmissing|Hload|fields Hload Hcp|fields cp Hload Hcp Hprogress
          |fields cp items Hload Hcp Hprogress Hshort
          |fields cp completed total rest Hload Hcp Hprogress (x & y & Hx & Hy & Hlt)].
  - unfold needs_rerun. by rewrite Hmissing.
  - unfold needs_rerun. rewrite Hload.
    by destruct (path_exists w (job_result_file job)).
  - apply (needs_rerun_parsed _ _ _ Hload).
    unfold needs_rerun_data. cbn [py_getitem]. by rewrite Hcp.
  - apply (needs_rerun_parsed _ _ _ Hload).
    unfold needs_rerun_data. cbn [py_getitem]. rewrite Hcp.
    cbn [mbind result_bind py_getitem]. by rewrite Hprogress.
  - apply (needs_rerun_parsed _ _ _ Hload).
    rewrite (needs_rerun_data_progress _ _ _ Hcp Hprogress).
    by rewrite progress_incomplete_short.
  - apply (needs_rerun_parsed _ _ _ Hload).
    rewrite (needs_rerun_data_progress _ _ _ Hcp Hprogress).
    by rewrite progress_incomplete_pair, (py_lt_numbers _ _ _ _ Hx Hy), Hlt.
Qed.

Lemma needs_rerun_not_complete_witness :
  @needs_rerun (disk_host (exits_with 0)) (demo_job 1) demo_disk = Ok true.
Proof.
  apply (@needs_rerun_not_complete (disk_host (exits_with 0))).
  apply nc_missing. reflexivity.
Defined.

(** C4, as the claim has it, fails: a result file holding
    [{"_checkpoint": {"progress": null}}] makes [len(progress)] raise
    [TypeError], which [needs_rerun] does not catch. *)
Lemma needs_rerun_malformed_progress_raises :
  @needs_rerun (disk_host (exits_with 0)) (demo_job 1)
    (demo_disk_with (JObj [("_checkpoint", JObj [("progress", JNull)])]))
  = Raise TypeError.
Proof. reflexivity. Qed.

(** C5.  On a result file in the evaluator's format (a progress list of
    numbers, a list of attempt records), a record whose status is in
    [FAIL_STATUSES] makes [needs_rerun] return [True], whatever the
    progress says. *)
Theorem needs_rerun_failed_status `{Host} (job : Job) (w : World)
    (fields checkpoint : list (string * json)) (progress records : list json) :
  ujson_load w (job_result_file job) = Some (JObj fields) ->
  dict_lookup "_checkpoint" fields = Some (JObj checkpoint) ->
  dict_lookup "progress" checkpoint = Some (JArr progress) ->
  Forall is_number progress ->
  dict_lookup "records" checkpoint = Some (JArr records) ->
  Forall is_record records ->
  Exists failed_record records ->
  needs_rerun job w = Ok true.
Proof.
  intros Hload Hcp Hprogress Hnum Hrecords Hrec Hfailed.
  apply (needs_rerun_parsed _ _ _ Hload).
  rewrite (needs_rerun_data_progress _ _ _ Hcp Hprogress).
  destruct (progress_incomplete_numbers progress Hnum) as [incomplete ->].
  cbn [mbind result_bind]. destruct incomplete; [done|].
  cbn [py_get]. rewrite Hrecords. cbn [mbind result_bind py_iter].
  by apply scan_records_failed.
Qed.

Lemma needs_rerun_failed_status_witness :
  @needs_rerun (disk_host (exits_with 0)) (demo_job 1)
    (demo_disk_with (result_json 1 1 ["Completed"; "Failed - Agent crashed"]))
  = Ok true.
Proof.
  eapply (@needs_rerun_failed_status (disk_host (exits_with 0)));
    try reflexivity.
  - repeat constructor; by eexists.
  - repeat constructor; eexists; (split; [reflexivity|]);
      intros v [= <-]; exact I.
  - apply Exists_cons_tl, Exists_cons_hd. eexists _, _.
    split; [reflexivity|]. split; [reflexivity|]. by vm_compute.
Defined.

(** C5, as the claim has it, fails: on a parsed result file whose
    records hold a failed attempt record after an item that is no
    object, [record.get] raises [AttributeError] before the failed
    record is reached; and with a failed record and a progress pair
    that cannot be compared, [progress[0] < progress[1]] raises
    [TypeError]. *)
Lemma needs_rerun_failed_after_non_record_raises :
  Exists failed_record [JInt 3; JObj [("status", JStr "Failed")]] /\
  @needs_rerun (disk_host (exits_with 0)) (demo_job 1)
    (demo_disk_with
       (JObj [("_checkpoint",
               JObj [("progress", JArr [JInt 1; JInt 1]);
                     ("records", JArr [JInt 3; JObj [("status", JStr "Failed")]])])]))
  = Raise AttributeError /\
  @needs_rerun (disk_host (exits_with 0)) (demo_job 1)
    (demo_disk_with
       (JObj [("_checkpoint",
               JObj [("progress", JArr [JStr "1"; JInt 1]);
                     ("records", JArr [JObj [("status", JStr "Failed")]])])]))
  = Raise TypeError.
Proof.
  split; [|split; reflexivity].
  apply Exists_cons_tl, Exists_cons_hd. eexists _, _.
  split; [reflexivity|]. split; [reflexivity|]. by vm_compute.
Qed.

(** ** The retry loop *)

Lemma needs_rerun_result_file `{Host} (job job' : Job) (w : World) :
  job_result_file job' = job_result_file job -> needs_rerun job' w = needs_rerun job w.
Proof. unfold needs_rerun. by intros ->. Qed.

(** The turn of the loop when no try is left. *)
Lemma iteration_exhausted `{Host} (total : Z) (r : Run) :
  run_control r = Looping -> remaining_tries (run_job r) <= 0 ->
  process_job_iteration total r =
    {| run_job := run_job r; run_world := run_world r;
       run_launched := run_launched r;
       run_stdout := run_stdout r ++ [MsgFail (job_route_id (run_job r)) (job_seed (run_job r))];
       run_control := Returned false |}.
Proof.
  intros Hctl Htries. unfold process_job_iteration. rewrite Hctl.
  by destruct (Z.ltb_spec 0 (remaining_tries (run_job r))); [lia|].
Qed.

(** The turn of the loop when the result is complete already. *)
Lemma iteration_skip `{Host} (total : Z) (r : Run) :
  run_control r = Looping -> 0 < remaining_tries (run_job r) ->
  needs_rerun (run_job r) (run_world r) = Ok false ->
  process_job_iteration total r =
    {| run_job := run_job r; run_world := run_world r;
       run_launched := run_launched r;
       run_stdout := run_stdout r ++ [MsgSkip (job_route_id (run_job r)) (job_seed (run_job r))];
       run_control := Returned true |}.
Proof.
  intros Hctl Htries Hdone. unfold process_job_iteration. rewrite Hctl, Hdone.
  by destruct (Z.ltb_spec 0 (remaining_tries (run_job r))); [|lia].
Qed.

(** The turn of the loop when the evaluator is launched and the job is
    not done afterwards: the evaluator failed, or the result is still
    not complete. *)
Lemma iteration_again `{Host} (total : Z) (r : Run) (success : bool) (w1 : World) :
  run_control r = Looping -> 0 < remaining_tries (run_job r) ->
  needs_rerun (run_job r) (run_world r) = Ok true ->
  launch_job (run_job r) (run_world r) = (Ok success, w1) ->
  success = false \/ needs_rerun (run_job r) w1 = Ok true ->
  process_job_iteration total r =
    {| run_job := set_remaining_tries (remaining_tries (run_job r) - 1) (run_job r);
       run_world := w1;
       run_launched := run_launched r ++ [run_job r];
       run_stdout :=
         (let out := run_stdout r ++
                     [MsgRun (job_route_id (run_job r)) (job_seed (run_job r))
                             (total - remaining_tries (run_job r) + 1)] in
          if 0 <? remaining_tries (run_job r) - 1
          then out ++ [MsgRetry (job_route_id (run_job r)) (job_seed (run_job r))
                                (remaining_tries (run_job r) - 1)]
          else out);
       run_control := Looping |}.
Proof.
  intros Hctl Htries Hrerun Hlaunch Hnot. unfold process_job_iteration.
  rewrite Hctl, Hrerun, Hlaunch.
  destruct (Z.ltb_spec 0 (remaining_tries (run_job r))); [|lia].
  destruct success; [|done].
  destruct Hnot as [?|Hstill]; [done|].
  rewrite (needs_rerun_result_file (run_job r)), Hstill; done.
Qed.

(** A turn leaves the counter as it is or takes one from a positive
    counter, and it took one whenever the loop goes on. *)
Lemma iteration_tries `{Host} (total : Z) (r : Run) :
  let r' := process_job_iteration total r in
  (remaining_tries (run_job r') = remaining_tries (run_job r) \/
   (0 < remaining_tries (run_job r) /\
    remaining_tries (run_job r') = remaining_tries (run_job r) - 1)) /\
  (run_control r' = Looping ->
   0 < remaining_tries (run_job r) /\
   remaining_tries (run_job r') = remaining_tries (run_job r) - 1).
Proof.
  unfold process_job_iteration.
  destruct (run_control r) eqn:Hctl; cbn zeta;
    [|rewrite Hctl; split; [by left|done]..].
  destruct (Z.ltb_spec 0 (remaining_tries (run_job r)));
    [|cbn; split; [by left|done]].
  destruct (needs_rerun (run_job r) (run_world r)) as [[]|];
    [|cbn; split; [by left|done]..].
  destruct (launch_job (run_job r) (run_world r)) as [[success|] w1];
    [|cbn; split; [by left|done]].
  destruct success; [|cbn; split; [by right|done]].
  destruct (needs_rerun _ w1) as [[]|]; cbn; split; first [by right|done].
Qed.

Lemma iteration_finished `{Host} (total : Z) (r : Run) :
  run_control r <> Looping -> process_job_iteration total r = r.
Proof. unfold process_job_iteration. by destruct (run_control r). Qed.

Lemma iterations_finished `{Host} (total : Z) (k : nat) (r : Run) :
  run_control r <> Looping -> Nat.iter k (process_job_iteration total) r = r.
Proof.
  intros Hdone. induction k as [|k IH]; [done|].
  rewrite Nat.iter_succ, IH. by apply iteration_finished.
Qed.



(** The loop is left within as many turns as there are tries, and one
    more test. *)
Lemma iterations_return `{Host} (total : Z) (n : nat) (r : Run) :
  remaining_tries (run_job r) <= Z.of_nat n ->
  run_control (Nat.iter (S n) (process_job_iteration total) r) <> Looping.
Proof.
  revert r. induction n as [|n IH]; intros r Htries.
  - rewrite Nat.iter_succ. intros Hloop.
    apply (iteration_tries total r) in Hloop. lia.
  - rewrite Nat.iter_succ_r.
    destruct (run_control (process_job_iteration total r)) eqn:Hctl.
    + apply IH. apply (iteration_tries total r) in Hctl. lia.
    + rewrite iterations_finished; by rewrite Hctl.
    + rewrite iterations_finished; by rewrite Hctl.
Qed.

(** [process_job] returns or raises: the model never stops inside the
    loop. *)
Lemma process_job_returns `{Host} (job : Job) (w : World) :
  (exists succeeded, run_control (process_job job w) = Returned succeeded) \/
  (exists e, run_control (process_job job w) = Raised e).
Proof.
  pose proof (iterations_return (remaining_tries job)
                (Z.to_nat (remaining_tries job)) (process_job_start job w)) as Hret.
  unfold process_job, process_job_run.
  destruct (run_control _); [destruct Hret; [cbn; lia|done]|eauto..].
Qed.

Lemma process_job_run_settled `{Host} (job : Job) (w : World) (k : nat) :
  (S (Z.to_nat (remaining_tries job)) <= k)%nat ->
  process_job_run job w k = process_job job w.
Proof.
  intros Hk. unfold process_job, process_job_run.
  replace k with ((k - S (Z.to_nat (remaining_tries job))) +
                  S (Z.to_nat (remaining_tries job)))%nat by lia.
  rewrite Nat.iter_add. apply iterations_finished.
  apply iterations_return. cbn. lia.
Qed.

Lemma process_job_run_succ `{Host} (job : Job) (w : World) (k : nat) :
  process_job_run job w (S k) =
    process_job_iteration (remaining_tries job) (process_job_run job w k).
Proof. unfold process_job_run. by rewrite Nat.iter_succ. Qed.


Lemma process_job_no_tries `{Host} (job : Job) (w : World) :
  remaining_tries job <= 0 ->
  process_job job w =
    {| run_job := job; run_world := w; run_launched := [];
       run_stdout := [MsgFail (job_route_id job) (job_seed job)];
       run_control := Returned false |}.
Proof.
  intros Htries. unfold process_job, process_job_run.
  rewrite Nat.iter_succ_r, iteration_exhausted by done.
  by rewrite iterations_finished.
Qed.

(** The run of a job whose evaluator always fails and whose result is
    never complete: after [k] turns, [k] launches and [k] tries gone. *)
Lemma failing_run `{Host} (job : Job) (w : World) :
  (forall j w', (launch_job j w').1 = Ok false) ->
  (forall w', needs_rerun job w' = Ok true) ->
  forall k : nat, Z.of_nat k <= remaining_tries job ->
    run_control (process_job_run job w k) = Looping /\
    remaining_tries (run_job (process_job_run job w k)) =
      remaining_tries job - Z.of_nat k /\
    length (run_launched (process_job_run job w k)) = k /\
    job_result_file (run_job (process_job_run job w k)) = job_result_file job.
Proof.
  intros Hfails Hrerun. induction k as [|k IH]; intros Hk.
  - cbn. repeat split; lia.
  - destruct IH as (Hctl & Htries & Hlaunched & Hfile); [lia|].
    rewrite process_job_run_succ.
    set (r := process_job_run job w k) in *.
    pose proof (Hfails (run_job r) (run_world r)) as Hfail.
    destruct (launch_job (run_job r) (run_world r)) as [success w1] eqn:Hlaunch.
    cbn in Hfail. subst success.
    assert (Hleft : 0 < remaining_tries (run_job r)) by lia.
    assert (Hneeds : needs_rerun (run_job r) (run_world r) = Ok true)
      by (by rewrite (needs_rerun_result_file job)).
    rewrite (iteration_again _ r false w1 Hctl Hleft Hneeds Hlaunch (or_introl eq_refl)).
    cbn. rewrite length_app. cbn. repeat split; [lia|lia|done].
Qed.

Example process_job_two_failures_then_success :
  let r := @process_job (disk_host succeeds_on_last_try) (demo_job 3) demo_disk in
  run_control r = Returned true /\
  run_launched r = [demo_job 3; demo_job 2; demo_job 1] /\
  run_stdout r =
    [MsgRun "007" 1 1; MsgRetry "007" 1 2; MsgRun "007" 1 2; MsgRetry "007" 1 1;
     MsgRun "007" 1 3; MsgDone "007" 1].
Proof. repeat split; reflexivity. Qed.

Example process_job_zero_exit_without_result :
  let r := @process_job (disk_host (exits_with 0)) (demo_job 1) demo_disk in
  run_control r = Returned false /\
  run_stdout r = [MsgRun "007" 1 1; MsgFail "007" 1].
Proof. repeat split; reflexivity. Qed.

(** C1.  With three tries, an evaluator that always reports failure and
    a result that is never complete, [process_job] launches the
    evaluator exactly three times and returns [False], no try left. *)
Theorem process_job_exhausts_three_tries `{Host} (job : Job) (w : World) :
  remaining_tries job = 3 ->
  (forall j w', (launch_job j w').1 = Ok false) ->
  (forall w', needs_rerun job w' = Ok true) ->
  run_control (process_job job w) = Returned false /\
  length (run_launched (process_job job w)) = 3%nat /\
  remaining_tries (run_job (process_job job w)) = 0.
Proof.
  intros Htries Hfails Hrerun.
  destruct (failing_run job w Hfails Hrerun 3) as (Hctl & Hleft & Hlaunched & _);
    [lia|].
  unfold process_job. rewrite Htries.
  change (Z.to_nat 3) with 3%nat. rewrite process_job_run_succ.
  rewrite iteration_exhausted by (done || lia).
  cbn [run_control run_launched run_job]. split; [done|]. split; [done|lia].
Qed.

Lemma process_job_exhausts_three_tries_witness :
  run_control (@process_job (empty_host 1) (demo_job 3) tt) = Returned false /\
  length (run_launched (@process_job (empty_host 1) (demo_job 3) tt)) = 3%nat /\
  remaining_tries (run_job (@process_job (empty_host 1) (demo_job 3) tt)) = 0.
Proof.
  apply (@process_job_exhausts_three_tries (empty_host 1)).
  - reflexivity.
  - intros j w'. reflexivity.
  - intros w'. reflexivity.
Defined.

Lemma process_job_complete `{Host} (job : Job) (w : World) :
  0 < remaining_tries job ->
  needs_rerun job w = Ok false ->
  process_job job w =
    {| run_job := job; run_world := w; run_launched := [];
       run_stdout := [MsgSkip (job_route_id job) (job_seed job)];
       run_control := Returned true |}.
Proof.
  intros Htries Hdone. unfold process_job, process_job_run.
  rewrite Nat.iter_succ_r, iteration_skip by done.
  by rewrite iterations_finished.
Qed.

(** C2, as the code has it.  When at least one try is left and the
    result is complete before any attempt, [process_job] returns [True]
    at once: the evaluator is never launched, the job and the world are
    untouched and the only line printed is the skip. *)
Theorem process_job_skips_complete `{Host} (job : Job) (w : World) :
  0 < remaining_tries job ->
  needs_rerun job w = Ok false ->
  process_job job w =
    {| run_job := job; run_world := w; run_launched := [];
       run_stdout := [MsgSkip (job_route_id job) (job_seed job)];
       run_control := Returned true |}.
Proof. apply process_job_complete. Qed.

Lemma process_job_skips_complete_witness :
  @process_job (disk_host (exits_with 0)) (demo_job 1)
     (demo_disk_with (result_json 1 1 ["Completed"])) =
    @Build_Run (disk_host (exits_with 0)) (demo_job 1)
      (demo_disk_with (result_json 1 1 ["Completed"]))
      [] [MsgSkip "007" 1] (Returned true).
Proof.
  apply (@process_job_skips_complete (disk_host (exits_with 0))).
  - reflexivity.
  - reflexivity.
Defined.

(** C2, as the claim has it, fails: a job with no try left whose result
    is complete is not reported as succeeded; the loop is not entered and
    [process_job] returns [False]. *)
Lemma process_job_complete_without_tries_fails :
  @needs_rerun (disk_host (exits_with 0)) (demo_job 0)
     (demo_disk_with (result_json 1 1 ["Completed"])) = Ok false /\
  run_control (@process_job (disk_host (exits_with 0)) (demo_job 0)
                 (demo_disk_with (result_json 1 1 ["Completed"]))) = Returned false /\
  run_stdout (@process_job (disk_host (exits_with 0)) (demo_job 0)
                (demo_disk_with (result_json 1 1 ["Completed"]))) = [MsgFail "007" 1].
Proof. repeat split; reflexivity. Qed.



(** C6.  Over the turns of [process_job] on a job whose counter starts
    at zero or above, [remaining_tries] never increases and never goes
    below zero; and the call has settled after as many turns as the
    counter allows and one more test. *)
Theorem remaining_tries_decreasing `{Host} (job : Job) (w : World) :
  0 <= remaining_tries job ->
  (forall i j : nat, (i <= j)%nat ->
     0 <= remaining_tries (run_job (process_job_run job w j))
       <= remaining_tries (run_job (process_job_run job w i))) /\
  (forall k : nat, (S (Z.to_nat (remaining_tries job)) <= k)%nat ->
     process_job_run job w k = process_job job w).
Proof.
  intros Hstart. split; [|apply process_job_run_settled].
  assert (Hpos : forall k, 0 <= remaining_tries (run_job (process_job_run job w k))).
  { induction k as [|k IH]; [done|]. rewrite process_job_run_succ.
    destruct (iteration_tries (remaining_tries job) (process_job_run job w k))
      as [[Heq|[Hgt Heq]] _]; lia. }
  intros i j Hij. split; [apply Hpos|].
  induction Hij as [|j Hij IH]; [lia|].
  rewrite process_job_run_succ.
  destruct (iteration_tries (remaining_tries job) (process_job_run job w j))
    as [[Heq|[Hgt Heq]] _]; lia.
Qed.

Lemma remaining_tries_decreasing_witness :
  0 <= remaining_tries (run_job (@process_job_run (empty_host 1) (demo_job 2) tt 2))
    <= remaining_tries (run_job (@process_job_run (empty_host 1) (demo_job 2) tt 1)).
Proof.
  apply (@remaining_tries_decreasing (empty_host 1) (demo_job 2) tt).
  - cbn. lia.
  - lia.
Defined.

Lemma num_ge_int (completed total : Z) :
  total <= completed -> num_ge (JInt completed) (JInt total).
Proof.
  intros Hle. exists (FNum (inject_Z completed)), (FNum (inject_Z total)).
  split; [done|]. split; [done|].
  cbn. apply Qle_bool_iff. by rewrite <- Zle_Qle.
Qed.

(** C10.  On a result file whose progress starts with two numbers
    completed >= total (0 and 0 included) and whose records are absent
    or are attempt records none of which has a status in
    [FAIL_STATUSES], [needs_rerun] returns [False]; [process_job] then
    never launches the evaluator and, given a try, returns [True]. *)
Theorem needs_rerun_complete `{Host} (job : Job) (w : World)
    (fields checkpoint : list (string * json)) (completed total : json)
    (rest : list json) :
  path_exists w (job_result_file job) = true ->
  ujson_load w (job_result_file job) = Some (JObj fields) ->
  dict_lookup "_checkpoint" fields = Some (JObj checkpoint) ->
  dict_lookup "progress" checkpoint = Some (JArr (completed :: total :: rest)) ->
  num_ge completed total ->
  (dict_lookup "records" checkpoint = None \/
   exists records,
     dict_lookup "records" checkpoint = Some (JArr records) /\
     Forall is_record records /\
     Forall (fun record => ~ failed_record record) records) ->
  needs_rerun job w = Ok false /\
  run_launched (process_job job w) = [] /\
  (0 < remaining_tries job -> run_control (process_job job w) = Returned true).
Proof.
  intros Hexists Hload Hcp Hprogress (x & y & Hx & Hy & Hge) Hrecords.
  assert (Hdone : needs_rerun job w = Ok false).
  { unfold needs_rerun. rewrite Hexists, Hload. cbn [negb].
    rewrite (needs_rerun_data_progress _ _ _ Hcp Hprogress).
    rewrite progress_incomplete_pair, (py_lt_numbers _ _ _ _ Hx Hy).
    rewrite (float_le_not_lt _ _ Hge). cbn [mbind result_bind py_get].
    destruct Hrecords as [->|(records & -> & Hrec & Hclean)]; [done|].
    cbn [mbind result_bind py_iter]. by apply scan_records_clean. }
  split; [done|].
  destruct (Z.lt_ge_cases 0 (remaining_tries job)) as [Htries|Htries].
  - by rewrite process_job_complete.
  - rewrite process_job_no_tries by done. split; [done|lia].
Qed.

Lemma needs_rerun_complete_witness :
  @needs_rerun (disk_host (exits_with 0)) (demo_job 1)
     (demo_disk_with
        (JObj [("_checkpoint", JObj [("progress", JArr [JInt 0; JInt 0])])]))
    = Ok false /\
  run_control
    (@process_job (disk_host (exits_with 0)) (demo_job 1)
       (demo_disk_with
          (JObj [("_checkpoint", JObj [("progress", JArr [JInt 0; JInt 0])])])))
    = Returned true.
Proof.
  destruct (@needs_rerun_complete (disk_host (exits_with 0)) (demo_job 1)
              (demo_disk_with
                 (JObj [("_checkpoint", JObj [("progress", JArr [JInt 0; JInt 0])])]))
              [("_checkpoint", JObj [("progress", JArr [JInt 0; JInt 0])])]
              [("progress", JArr [JInt 0; JInt 0])] (JInt 0) (JInt 0) [])
    as (Hdone & _ & Hskip); try reflexivity.
  - apply num_ge_int. lia.
  - by left.
  - split; [exact Hdone|]. apply Hskip. cbn. lia.
Defined.

(** C10, as the claim has it, fails: on a result file with progress
    [[1, 1]] whose records hold one item that is no object, and so no
    record with a failed status, [record.get] raises [AttributeError]:
    [needs_rerun] does not answer, and [process_job] is left by the
    exception instead of skipping the job. *)
Lemma needs_rerun_complete_with_non_record_raises :
  Forall (fun record => ~ failed_record record) [JInt 3] /\
  @needs_rerun (disk_host (exits_with 0)) (demo_job 1)
    (demo_disk_with
       (JObj [("_checkpoint",
               JObj [("progress", JArr [JInt 1; JInt 1]);
                     ("records", JArr [JInt 3])])]))
  = Raise AttributeError /\
  run_control
    (@process_job (disk_host (exits_with 0)) (demo_job 1)
       (demo_disk_with
          (JObj [("_checkpoint",
                  JObj [("progress", JArr [JInt 1; JInt 1]);
                        ("records", JArr [JInt 3])])])))
  = Raised AttributeError.
Proof.
  split; [|split; reflexivity].
  constructor; [|constructor]. intros (fields & status & Hrecord & _).
  discriminate Hrecord.
Qed.

(** ** The job queue *)

(** A [for] loop whose body only appends jobs: the queue after the loop
    holds the jobs it held before and those the turns added. *)
Lemma for_each_jobs `{Host} {A : Type}
    (body : list Job * World -> A -> result (list Job * World))
    (added : A -> Job -> Prop) (l : list A) :
  (forall s x s', body s x = Ok s' ->
     forall job, job ∈ s'.1 <-> job ∈ s.1 \/ added x job) ->
  forall s s', for_each body l s = Ok s' ->
    forall job, job ∈ s'.1 <-> job ∈ s.1 \/ exists x, x ∈ l /\ added x job.
Proof.
  intros Hbody. induction l as [|x l IH]; intros s s' Hloop job.
  - injection Hloop as <-. set_solver.
  - cbn [for_each] in Hloop.
    apply result_bind_ok in Hloop as (s1 & Hfirst & Hrest).
    rewrite (IH _ _ Hrest job), (Hbody _ _ _ Hfirst job). set_solver.
Qed.

Lemma add_route_jobs `{Host} (cfg : Config) (base_dir : string) (seed : Z)
    (fill_zeros : nat) (route_dir : string) (tries : Z)
    (s s' : list Job * World) (name : string) :
  cfg_tries cfg = Some tries ->
  add_route cfg base_dir seed fill_zeros route_dir s name = Ok s' ->
  forall job, job ∈ s'.1 <->
    job ∈ s.1 \/ job = make_job cfg base_dir seed fill_zeros route_dir tries name.
Proof.
  intros Htries Hadd job. unfold add_route in Hadd. rewrite Htries in Hadd.
  apply result_bind_ok in Hadd as (w & _ & Hadd).
  injection Hadd as <-. set_solver.
Qed.

Lemma add_seed_jobs `{Host} (cfg : Config) (routes : list string)
    (fill_zeros : nat) (route_dir : string) (tries : Z)
    (s s' : list Job * World) (seed : Z) :
  cfg_tries cfg = Some tries ->
  add_seed cfg routes fill_zeros route_dir s seed = Ok s' ->
  forall job, job ∈ s'.1 <->
    job ∈ s.1 \/ exists name, name ∈ routes /\
                              job_of cfg fill_zeros route_dir seed name job.
Proof.
  intros Htries Hadd job. unfold add_seed in Hadd.
  apply result_bind_ok in Hadd as (out_root & Hout & Hadd).
  apply result_bind_ok in Hadd as (agent & Hagent & Hadd).
  apply result_bind_ok in Hadd as (benchmark & Hbench & Hadd).
  apply result_bind_ok in Hadd as (w & _ & Hadd).
  destruct (cfg_out_root cfg) as [?|] eqn:Eout; [injection Hout as ->|done].
  destruct (cfg_agent cfg) as [?|] eqn:Eagent; [injection Hagent as ->|done].
  destruct (cfg_benchmark cfg) as [?|] eqn:Ebench; [injection Hbench as ->|done].
  rewrite (for_each_jobs _
             (fun name job => job = make_job cfg _ seed fill_zeros route_dir tries name)
             routes (fun s0 x s1 => add_route_jobs cfg _ seed fill_zeros route_dir
                                      tries s0 s1 x Htries) _ _ Hadd job).
  cbn [fst]. unfold job_of. rewrite Eout, Eagent, Ebench, Htries.
  split; (intros [?|(name & Hname & Hjob)]; [by left|right]).
  - exists name. split; [done|]. by exists out_root, agent, benchmark, tries.
  - destruct Hjob as (? & ? & ? & ? & [= <-] & [= <-] & [= <-] & [= <-] & ->).
    by exists name.
Qed.

(** The jobs one configuration adds: one per seed and discovered route,
    built on the configuration as resolved in the world of that moment. *)
Lemma add_config_jobs `{Host} (s s' : list Job * World) (raw : Config) :
  add_config s raw = Ok s' ->
  exists cfg route_dir routes benchmark,
    preprocess_config s.2 raw = Ok cfg /\
    cfg_route_path cfg = Some route_dir /\
    discover_routes s.2 route_dir = Ok routes /\
    cfg_benchmark cfg = Some benchmark /\
    forall job, job ∈ s'.1 <->
      job ∈ s.1 \/
      exists seed name,
        seed ∈ default [1] (cfg_seeds cfg) /\ name ∈ routes /\
        job_of cfg (fill_zeros_of benchmark) route_dir seed name job.
Proof.
  intros Hadd. unfold add_config in Hadd.
  apply result_bind_ok in Hadd as (cfg & Hcfg & Hadd).
  apply result_bind_ok in Hadd as (route_dir & Hdir & Hadd).
  apply result_bind_ok in Hadd as (routes & Hroutes & Hadd).
  apply result_bind_ok in Hadd as (benchmark & Hbench & Hadd).
  destruct (cfg_route_path cfg) as [?|] eqn:Edir; [injection Hdir as ->|done].
  destruct (cfg_benchmark cfg) as [?|] eqn:Ebench; [injection Hbench as ->|done].
  exists cfg, route_dir, routes, benchmark. repeat (split; [done|]).
  assert (Htries : exists tries, cfg_tries cfg = Some tries).
  { rewrite (preprocess_config_ok _ _ _ Hcfg), resolved_tries. by eexists. }
  destruct Htries as [tries Htries]. intros job.
  rewrite (for_each_jobs _
             (fun seed job => exists name, name ∈ routes /\
                job_of cfg (fill_zeros_of benchmark) route_dir seed name job)
             _ (fun s0 x s1 => add_seed_jobs cfg routes _ route_dir tries s0 s1 x Htries)
             _ _ Hadd job).
  set_solver.
Qed.

(** What the route identifier of a queued job is. *)
Lemma job_of_route_id `{Host} (cfg : Config) (fill_zeros : nat)
    (route_dir : string) (seed : Z) (name : string) (job : Job) :
  job_of cfg fill_zeros route_dir seed name job ->
  job_cfg job = cfg /\ job_seed job = seed /\
  job_route job = path_join route_dir name /\
  job_route_id job = zfill fill_zeros (List.last (split "_" (stem name)) "").
Proof. by intros (? & ? & ? & ? & _ & _ & _ & _ & ->). Qed.

(** The queue only grows along the configurations. *)
Lemma add_configs_grow `{Host} (configs : list Config) (s s' : list Job * World) :
  for_each add_config configs s = Ok s' -> forall job, job ∈ s.1 -> job ∈ s'.1.
Proof.
  revert s. induction configs as [|raw configs IH]; intros s Hloop job Hjob.
  - by injection Hloop as <-.
  - cbn [for_each] in Hloop.
    apply result_bind_ok in Hloop as (s1 & Hfirst & Hrest).
    apply (IH _ Hrest).
    destruct (add_config_jobs _ _ _ Hfirst) as (? & ? & ? & ? & _ & _ & _ & _ & Hjobs).
    apply Hjobs. by left.
Qed.

(** Every job of the queue comes from a configuration, a seed and a
    route discovered for it. *)
Lemma add_configs_sound `{Host} (configs : list Config) (s s' : list Job * World) :
  for_each add_config configs s = Ok s' ->
  forall job, job ∈ s'.1 ->
    job ∈ s.1 \/
    exists raw w0 cfg route_dir routes benchmark seed name,
      raw ∈ configs /\ preprocess_config w0 raw = Ok cfg /\
      cfg_route_path cfg = Some route_dir /\
      discover_routes w0 route_dir = Ok routes /\
      cfg_benchmark cfg = Some benchmark /\
      seed ∈ default [1] (cfg_seeds cfg) /\ name ∈ routes /\
      job_of cfg (fill_zeros_of benchmark) route_dir seed name job.
Proof.
  revert s. induction configs as [|raw configs IH]; intros s Hloop job Hjob.
  - injection Hloop as <-. by left.
  - cbn [for_each] in Hloop.
    apply result_bind_ok in Hloop as (s1 & Hfirst & Hrest).
    destruct (IH _ Hrest job Hjob)
      as [Hold|(raw' & w0 & cfg & dir & routes & bench & seed & name & Hin & Hrest')].
    + destruct (add_config_jobs _ _ _ Hfirst)
        as (cfg & dir & routes & bench & Hcfg & Hdir & Hroutes & Hbench & Hjobs).
      destruct (proj1 (Hjobs job) Hold) as [?|(seed & name & Hseed & Hname & Hof)];
        [by left|].
      right. exists raw, s.2, cfg, dir, routes, bench, seed, name.
      split; [apply list_elem_of_here|done].
    + right. exists raw', w0, cfg, dir, routes, bench, seed, name.
      split; [by apply list_elem_of_further|done].
Qed.

(** Every configuration gets a job for each of its seeds and each route
    discovered for it. *)
Lemma add_configs_complete `{Host} (configs : list Config) (s s' : list Job * World) :
  for_each add_config configs s = Ok s' ->
  forall raw, raw ∈ configs ->
    exists w0 cfg route_dir routes benchmark,
      preprocess_config w0 raw = Ok cfg /\
      cfg_route_path cfg = Some route_dir /\
      discover_routes w0 route_dir = Ok routes /\
      cfg_benchmark cfg = Some benchmark /\
      forall seed name,
        seed ∈ default [1] (cfg_seeds cfg) -> name ∈ routes ->
        exists job, job ∈ s'.1 /\
                    job_of cfg (fill_zeros_of benchmark) route_dir seed name job.
Proof.
  revert s. induction configs as [|raw' configs IH]; intros s Hloop raw Hraw.
  - by apply elem_of_nil in Hraw.
  - cbn [for_each] in Hloop.
    apply result_bind_ok in Hloop as (s1 & Hfirst & Hrest).
    apply elem_of_cons in Hraw as [<-|Hraw]; [|by apply (IH _ Hrest)].
    destruct (add_config_jobs _ _ _ Hfirst)
      as (cfg & dir & routes & bench & Hcfg & Hdir & Hroutes & Hbench & Hjobs).
    exists s.2, cfg, dir, routes, bench. repeat (split; [done|]).
    intros seed name Hseed Hname.
    assert (Hgiven : exists out_root agent tries,
               cfg_out_root cfg = Some out_root /\ cfg_agent cfg = Some agent /\
               cfg_tries cfg = Some tries).
    { unfold add_config in Hfirst. rewrite Hcfg in Hfirst.
      cbn [mbind result_bind] in Hfirst. rewrite Hdir in Hfirst.
      cbn [cfg_item mbind result_bind] in Hfirst. rewrite Hroutes in Hfirst.
      cbn [mbind result_bind] in Hfirst. rewrite Hbench in Hfirst.
      cbn [cfg_item mbind result_bind] in Hfirst.
      destruct (default [1] (cfg_seeds cfg)) as [|seed0 seeds];
        [by apply elem_of_nil in Hseed|].
      cbn [for_each] in Hfirst.
      apply result_bind_ok in Hfirst as (s2 & Hseed0 & _).
      unfold add_seed in Hseed0.
      apply result_bind_ok in Hseed0 as (out_root & Hout & Hseed0).
      apply result_bind_ok in Hseed0 as (agent & Hagent & _).
      assert (Htries : cfg_tries cfg = Some (default 1 (cfg_tries raw)))
        by (by rewrite (preprocess_config_ok _ _ _ Hcfg), resolved_tries).
      destruct (cfg_out_root cfg); [|done]. destruct (cfg_agent cfg); [|done].
      by eexists _, _, _. }
    destruct Hgiven as (out_root & agent & tries & Hout & Hagent & Htries).
    eexists. split.
    + apply (add_configs_grow _ _ _ Hrest). apply Hjobs. right.
      exists seed, name. repeat (split; [done|]).
      by exists out_root, agent, bench, tries.
    + by exists out_root, agent, bench, tries.
Qed.

(** C7.  Every job of the queue belongs to a configuration and a route
    discovered for it, and its route identifier is the last
    [_]-delimited token of the stem of the route's file name, filled
    with zeros to width 3 when the benchmark name lowers to
    ["bench2drive"] and to width 2 otherwise; every configuration gets
    such a job for each seed and each discovered route; and
    route_7.xml gives ["007"] for Bench2Drive and ["07"] for another
    benchmark. *)
Theorem build_job_queue_route_ids `{Host} (configs : list Config) (w w' : World)
    (jobs : list Job) :
  build_job_queue configs w = Ok (jobs, w') ->
  (forall job, job ∈ jobs ->
     exists raw w0 route_dir routes benchmark name,
       raw ∈ configs /\ preprocess_config w0 raw = Ok (job_cfg job) /\
       cfg_route_path (job_cfg job) = Some route_dir /\
       discover_routes w0 route_dir = Ok routes /\ name ∈ routes /\
       cfg_benchmark (job_cfg job) = Some benchmark /\
       job_route job = path_join route_dir name /\
       job_route_id job =
         zfill (if bool_decide (lower benchmark = "bench2drive") then 3 else 2)
               (List.last (split "_" (stem name)) "")) /\
  (forall raw, raw ∈ configs ->
     exists w0 cfg route_dir routes benchmark,
       preprocess_config w0 raw = Ok cfg /\
       cfg_route_path cfg = Some route_dir /\
       discover_routes w0 route_dir = Ok routes /\
       cfg_benchmark cfg = Some benchmark /\
       forall seed name,
         seed ∈ default [1] (cfg_seeds cfg) -> name ∈ routes ->
         exists job,
           job ∈ jobs /\ job_cfg job = cfg /\ job_seed job = seed /\
           job_route job = path_join route_dir name /\
           job_route_id job =
             zfill (if bool_decide (lower benchmark = "bench2drive") then 3 else 2)
                   (List.last (split "_" (stem name)) "")) /\
  route_id_of (fill_zeros_of "Bench2Drive") "route_7.xml" = "007" /\
  route_id_of (fill_zeros_of "longest6") "route_7.xml" = "07".
Proof.
  intros Hqueue. unfold build_job_queue in Hqueue. split; [|split; [|done]].
  - intros job Hjob.
    destruct (add_configs_sound _ _ _ Hqueue job Hjob)
      as [Hnone|(raw & w0 & cfg & dir & routes & bench & seed & name
                 & Hraw & Hcfg & Hdir & Hroutes & Hbench & Hseed & Hname & Hof)];
      [by apply elem_of_nil in Hnone|].
    apply job_of_route_id in Hof as (Hjcfg & _ & Hroute & Hid). subst cfg.
    by exists raw, w0, dir, routes, bench, name.
  - intros raw Hraw.
    destruct (add_configs_complete _ _ _ Hqueue raw Hraw)
      as (w0 & cfg & dir & routes & bench & Hcfg & Hdir & Hroutes & Hbench & Hall).
    exists w0, cfg, dir, routes, bench. repeat (split; [done|]).
    intros seed name Hseed Hname.
    destruct (Hall seed name Hseed Hname) as (job & Hjob & Hof).
    apply job_of_route_id in Hof as (? & ? & ? & ?). by exists job.
Qed.

Lemma build_job_queue_route_ids_witness :
  exists jobs w',
    @build_job_queue (disk_host (exits_with 0)) [demo_cfg] demo_disk = Ok (jobs, w') /\
    map job_route_id jobs = ["010"; "002"; "007"].
Proof.
  destruct (@build_job_queue (disk_host (exits_with 0)) [demo_cfg] demo_disk)
    as [[jobs w']|e] eqn:Hqueue; [|by vm_compute in Hqueue].
  exists jobs, w'. split; [reflexivity|].
  pose proof (@build_job_queue_route_ids (disk_host (exits_with 0))
                [demo_cfg] demo_disk w' jobs Hqueue) as _.
  vm_compute in Hqueue. by injection Hqueue as <- _.
Defined.

(** * Further properties *)

(** ** The retry loop, turn by turn *)

(** The ways a turn of the loop can go. *)
Ltac iteration_cases r :=
  unfold process_job_iteration;
  destruct (run_control r) eqn:?;
  [ destruct (Z.ltb_spec 0 (remaining_tries (run_job r)));
    [ destruct (needs_rerun (run_job r) (run_world r)) as [[]|] eqn:?;
      [ destruct (launch_job (run_job r) (run_world r)) as [[[]|] ?] eqn:?;
        [ match goal with
          | |- context [needs_rerun ?j ?w'] =>
            destruct (needs_rerun j w') as [[]|] eqn:?
          end
        | | ]
      | | ]
    | ]
  | | ];
  cbn [fmap result_fmap negb run_job run_world run_launched run_stdout run_control
       remaining_tries set_remaining_tries job_result_file job_route_id job_seed
       job_cfg job_route job_viz_path job_log_file job_err_file].

Lemma iterations_invariant `{Host} (total : Z) (P : Run -> Prop) :
  (forall r, P r -> P (process_job_iteration total r)) ->
  forall (k : nat) (r : Run), P r -> P (Nat.iter k (process_job_iteration total) r).
Proof.
  intros Hstep k r Hr. induction k as [|k IH]; [done|].
  rewrite Nat.iter_succ. by apply Hstep.
Qed.

Lemma process_job_invariant `{Host} (job : Job) (w : World) (P : Run -> Prop) :
  P (process_job_start job w) ->
  (forall r, P r -> P (process_job_iteration (remaining_tries job) r)) ->
  P (process_job job w).
Proof.
  intros Hstart Hstep. unfold process_job, process_job_run.
  by apply iterations_invariant.
Qed.

Lemma looping_or_finished `{Host} (r : Run) :
  run_control r = Looping \/ run_control r <> Looping.
Proof. destruct (run_control r); [by left|by right..]. Qed.

Lemma tries_accounted_step `{Host} (total init : Z) (r : Run) :
  tries_accounted init r -> tries_accounted init (process_job_iteration total r).
Proof.
  intros Hinv.
  destruct (looping_or_finished r) as [Hloop|Hdone];
    [|by rewrite iteration_finished].
  destruct Hinv as [Hpos Hacct]. rewrite Hloop in Hacct. unfold tries_accounted.
  iteration_cases r; try congruence; rewrite ?length_app; cbn [length];
    (split; [first [exact Hpos|left; lia]|]);
    try lia; try (left; lia); try (right; lia).
Qed.

Lemma process_job_tries_accounted `{Host} (job : Job) (w : World) :
  tries_accounted (remaining_tries job) (process_job job w).
Proof.
  apply process_job_invariant; [|apply tries_accounted_step].
  unfold tries_accounted. cbn. split; [|lia].
  destruct (Z.le_gt_cases 0 (remaining_tries job)); [by left|by right].
Qed.

Lemma success_complete_step `{Host} (total : Z) (r : Run) :
  (run_control r = Returned true ->
   needs_rerun (run_job r) (run_world r) = Ok false) ->
  run_control (process_job_iteration total r) = Returned true ->
  needs_rerun (run_job (process_job_iteration total r))
              (run_world (process_job_iteration total r)) = Ok false.
Proof.
  intros Hinv.
  destruct (looping_or_finished r) as [Hloop|Hdone];
    [|by rewrite iteration_finished].
  iteration_cases r; try congruence; try done.
Qed.

Lemma process_job_success_needs_no_rerun `{Host} (job : Job) (w : World) :
  run_control (process_job job w) = Returned true ->
  needs_rerun (run_job (process_job job w)) (run_world (process_job job w)) = Ok false.
Proof.
  apply (process_job_invariant job w
           (fun r => run_control r = Returned true ->
                     needs_rerun (run_job r) (run_world r) = Ok false)); [done|].
  intros r. apply success_complete_step.
Qed.

Lemma same_job_step `{Host} (total : Z) (job : Job) (w : World) (r : Run) :
  set_remaining_tries 0 (run_job r) = set_remaining_tries 0 job /\
  (run_launched r = [] -> run_world r = w) ->
  set_remaining_tries 0 (run_job (process_job_iteration total r)) =
    set_remaining_tries 0 job /\
  (run_launched (process_job_iteration total r) = [] ->
   run_world (process_job_iteration total r) = w).
Proof.
  intros [Hjob Hworld].
  destruct (looping_or_finished r) as [Hloop|Hdone];
    [|by rewrite iteration_finished].
  iteration_cases r; try congruence; (split; [exact Hjob|]);
    try exact Hworld; intros Hnil; by apply app_nil in Hnil as [_ ?].
Qed.

Lemma process_job_same_job `{Host} (job : Job) (w : World) :
  set_remaining_tries 0 (run_job (process_job job w)) = set_remaining_tries 0 job /\
  (run_launched (process_job job w) = [] -> run_world (process_job job w) = w).
Proof.
  apply (process_job_invariant job w
           (fun r => set_remaining_tries 0 (run_job r) = set_remaining_tries 0 job /\
                     (run_launched r = [] -> run_world r = w))); [done|].
  intros r. apply same_job_step.
Qed.

Lemma attempts_numbered_step `{Host} (init : Z) (r : Run) :
  attempts_numbered init r -> attempts_numbered init (process_job_iteration init r).
Proof.
  intros [Hacct Hnum]. split; [by apply tries_accounted_step|].
  destruct (looping_or_finished r) as [Hloop|Hdone];
    [|by rewrite iteration_finished].
  destruct Hacct as [_ Hacct]. rewrite Hloop in Hacct.
  iteration_cases r; try congruence;
    rewrite ?omap_app, ?length_app, ?Hnum; cbn [omap run_attempt length];
    rewrite ?app_nil_r; try done;
    try (destruct (0 <? _); rewrite ?omap_app; cbn [omap run_attempt];
         rewrite ?app_nil_r);
    rewrite ?Hnum, Nat.add_1_r, seqZ_S; cbn [omap list_omap run_attempt];
    do 2 f_equal; lia.
Qed.

Lemma process_job_attempts_numbered `{Host} (job : Job) (w : World) :
  attempts_numbered (remaining_tries job) (process_job job w).
Proof.
  apply process_job_invariant; [|apply attempts_numbered_step].
  split; [|done]. unfold tries_accounted. cbn. split; [|lia].
  destruct (Z.le_gt_cases 0 (remaining_tries job)); [by left|by right].
Qed.

Lemma log_shaped_step `{Host} (total : Z) (r : Run) :
  log_shaped r -> log_shaped (process_job_iteration total r).
Proof.
  intros Hinv.
  destruct (looping_or_finished r) as [Hloop|Hdone];
    [|by rewrite iteration_finished].
  unfold log_shaped in *. rewrite Hloop in Hinv.
  iteration_cases r; try congruence; try done;
    try (eexists _, _; split; [reflexivity|]; split; [|cbn; by auto]);
    try (destruct (0 <? _)); rewrite ?Forall_app; repeat split;
    try done; by repeat constructor.
Qed.

Lemma process_job_log_shaped `{Host} (job : Job) (w : World) :
  log_shaped (process_job job w).
Proof.
  apply process_job_invariant; [|apply log_shaped_step]. by constructor.
Qed.


Lemma set_remaining_tries_same `{Host} (job : Job) (r : Run) :
  set_remaining_tries 0 (run_job r) = set_remaining_tries 0 job ->
  run_job r = set_remaining_tries (remaining_tries (run_job r)) job.
Proof.
  destruct (run_job r), job. cbn. intros [= -> -> -> -> -> -> -> ->]. done.
Qed.

(** X1.  [process_job] never launches the evaluator more often than the
    job has tries (not at all for a counter of zero or less), and when
    it returns, the counter went down by the number of launches. *)
Theorem process_job_launches_bounded `{Host} (job : Job) (w : World) :
  (length (run_launched (process_job job w)) <= Z.to_nat (remaining_tries job))%nat /\
  forall succeeded,
    run_control (process_job job w) = Returned succeeded ->
    remaining_tries (run_job (process_job job w)) =
      remaining_tries job - Z.of_nat (length (run_launched (process_job job w))).
Proof.
  destruct (process_job_tries_accounted job w) as [Hpos Hacct]. split.
  - destruct (run_control (process_job job w)) as [|[]|];
      destruct Hpos as [?|[? Hnil]]; rewrite ?Hnil; cbn [length]; lia.
  - intros succeeded Hret. rewrite Hret in Hacct. destruct succeeded; lia.
Qed.

Lemma process_job_launches_bounded_witness :
  length (run_launched (@process_job (empty_host 1) (demo_job 2) tt)) = 2%nat /\
  remaining_tries (run_job (@process_job (empty_host 1) (demo_job 2) tt)) = 0.
Proof.
  destruct (@process_job_launches_bounded (empty_host 1) (demo_job 2) tt)
    as [_ Hspent].
  split; [reflexivity|]. by rewrite (Hspent false eq_refl).
Defined.

(** X2.  When [process_job] returns [True], [needs_rerun] answers
    [False] for the job in the world the call leaves behind. *)
Theorem process_job_success_is_complete `{Host} (job : Job) (w : World) :
  run_control (process_job job w) = Returned true ->
  needs_rerun job (run_world (process_job job w)) = Ok false.
Proof.
  intros Hret. rewrite <- (process_job_success_needs_no_rerun job w Hret).
  symmetry. apply needs_rerun_result_file.
  destruct (process_job_same_job job w) as [Hsame _].
  by rewrite (set_remaining_tries_same job _ Hsame).
Qed.

Lemma process_job_success_is_complete_witness :
  @needs_rerun (disk_host succeeds_on_last_try) (demo_job 3)
    (run_world (@process_job (disk_host succeeds_on_last_try) (demo_job 3) demo_disk))
  = Ok false.
Proof.
  apply (@process_job_success_is_complete (disk_host succeeds_on_last_try)).
  reflexivity.
Defined.

(** X3.  [process_job] returns [False] only once the tries are used up:
    with a counter that starts at zero or above, it then stands at zero
    and the evaluator was launched once per try. *)
Theorem process_job_failure_is_exhaustion `{Host} (job : Job) (w : World) :
  run_control (process_job job w) = Returned false ->
  remaining_tries (run_job (process_job job w)) = Z.min 0 (remaining_tries job) /\
  length (run_launched (process_job job w)) = Z.to_nat (remaining_tries job).
Proof.
  intros Hret. destruct (process_job_tries_accounted job w) as [Hpos Hacct].
  rewrite Hret in Hacct. destruct Hacct as [Hacct Hleft].
  destruct Hpos as [?|[Hinit Hnil]]; [lia|].
  rewrite Hnil in *. cbn [length] in *. lia.
Qed.

Lemma process_job_failure_is_exhaustion_witness :
  remaining_tries (run_job (@process_job (disk_host (exits_with 0)) (demo_job 2) demo_disk))
    = 0 /\
  length (run_launched (@process_job (disk_host (exits_with 0)) (demo_job 2) demo_disk))
    = 2%nat.
Proof.
  apply (@process_job_failure_is_exhaustion (disk_host (exits_with 0))).
  reflexivity.
Defined.

(** X4.  The [RUN] lines of a call of [process_job] carry the attempt
    numbers 1, 2, 3, ... in this order, one line per launch. *)
Theorem process_job_attempts_in_order `{Host} (job : Job) (w : World) :
  omap run_attempt (run_stdout (process_job job w)) =
    seqZ 1 (Z.of_nat (length (run_launched (process_job job w)))).
Proof. apply process_job_attempts_numbered. Qed.

(** X5.  After a call of [process_job] that returned [True], a later
    call on a job with the same result file and a try left skips: it
    returns [True] without launching the evaluator and leaves the world
    as it found it. *)
Theorem process_job_rerun_skips `{Host} (job job' : Job) (w : World) :
  run_control (process_job job w) = Returned true ->
  job_result_file job' = job_result_file job ->
  0 < remaining_tries job' ->
  process_job job' (run_world (process_job job w)) =
    {| run_job := job'; run_world := run_world (process_job job w);
       run_launched := [];
       run_stdout := [MsgSkip (job_route_id job') (job_seed job')];
       run_control := Returned true |}.
Proof.
  intros Hret Hfile Htries. apply process_job_complete; [done|].
  rewrite (needs_rerun_result_file job job') by done.
  rewrite <- (process_job_success_needs_no_rerun job w Hret).
  symmetry. apply needs_rerun_result_file.
  destruct (process_job_same_job job w) as [Hsame _].
  by rewrite (set_remaining_tries_same job _ Hsame).
Qed.

Lemma process_job_rerun_skips_witness :
  run_launched
    (@process_job (disk_host succeeds_on_last_try) (demo_job 3)
       (run_world (@process_job (disk_host succeeds_on_last_try) (demo_job 3) demo_disk)))
  = [].
Proof.
  rewrite (@process_job_rerun_skips (disk_host succeeds_on_last_try)
             (demo_job 3) (demo_job 3) demo_disk); reflexivity.
Defined.

(** X6.  [process_job] changes nothing of the job but [remaining_tries],
    and a call that launches nothing leaves the world untouched. *)
Theorem process_job_changes_only_tries `{Host} (job : Job) (w : World) :
  run_job (process_job job w) =
    set_remaining_tries (remaining_tries (run_job (process_job job w))) job /\
  (run_launched (process_job job w) = [] -> run_world (process_job job w) = w).
Proof.
  destruct (process_job_same_job job w) as [Hsame Hworld].
  split; [by apply set_remaining_tries_same|done].
Qed.

(** X7.  While it runs, [process_job] prints only [RUN] and [RETRY]
    lines; a call that returns closes its output with exactly one line,
    [SKIP] or [DONE] of the job when it returns [True] and [FAIL] of the
    job when it returns [False]. *)
Theorem process_job_log_protocol `{Host} (job : Job) (w : World) :
  (forall succeeded,
     run_control (process_job job w) = Returned succeeded ->
     exists body final,
       run_stdout (process_job job w) = body ++ [final] /\
       Forall is_progress_line body /\ closing_line job succeeded final) /\
  (forall e,
     run_control (process_job job w) = Raised e ->
     Forall is_progress_line (run_stdout (process_job job w))).
Proof.
  pose proof (process_job_log_shaped job w) as Hlog. unfold log_shaped in Hlog.
  destruct (process_job_same_job job w) as [Hsame _].
  apply set_remaining_tries_same in Hsame.
  split.
  - intros succeeded Hret. rewrite Hret in Hlog.
    destruct Hlog as (body & final & Hout & Hbody & Hfinal).
    exists body, final. repeat (split; [done|]).
    rewrite Hsame in Hfinal. exact Hfinal.
  - intros e Hraise. by rewrite Hraise in Hlog.
Qed.

(** ** The run over the queue *)

Lemma progress_lines_silent (body : list message) :
  Forall is_progress_line body ->
  omap failed_line (LineJob <$> body) = [] /\
  omap summary_line (LineJob <$> body) = [] /\
  Forall (fun l => exists m', l = LineJob m') (LineJob <$> body).
Proof.
  induction 1 as [|m' body Hm Hbody (IH1 & IH2 & IH3)]; [by repeat split|].
  destruct m'; try done; cbn; rewrite ?IH1, ?IH2; repeat split; try done;
    constructor; eauto.
Qed.

(** The [FAIL] lines a call of [process_job] prints: one, of the job,
    when it returns [False], and none otherwise. *)
Lemma process_job_fail_lines `{Host} (job : Job) (w : World) :
  omap failed_line (LineJob <$> run_stdout (process_job job w)) =
    match run_control (process_job job w) with
    | Returned false => [job_key job]
    | _ => []
    end /\
  omap summary_line (LineJob <$> run_stdout (process_job job w)) = [].
Proof.
  pose proof (process_job_log_shaped job w) as Hlog. unfold log_shaped in Hlog.
  destruct (process_job_same_job job w) as [Hsame _].
  apply set_remaining_tries_same in Hsame.
  destruct (run_control (process_job job w)) as [|succeeded|e];
    try (by destruct (progress_lines_silent _ Hlog) as (? & ? & _)).
  destruct Hlog as (body & final & -> & Hbody & Hfinal).
  destruct (progress_lines_silent _ Hbody) as (Hf & Hs & _).
  rewrite fmap_app, !omap_app, Hf, Hs. rewrite Hsame in Hfinal.
  destruct succeeded; cbn in Hfinal; [by destruct Hfinal as [->| ->]|by subst final].
Qed.

(** What one turn of the loop of [main] does to its state. *)
Lemma run_one_spec `{Host} (job : Job) (m : MainRun) :
  let r := process_job job (main_world m) in
  main_stdout (run_one job m) = main_stdout m ++ (LineJob <$> run_stdout r) /\
  main_launched (run_one job m) = main_launched m ++ run_launched r /\
  main_progress (run_one job m) = S (main_progress m) /\
  ((exists succeeded,
       run_control r = Returned succeeded /\
       main_where (run_one job m) = MainLoop /\
       main_failures (run_one job m) =
         main_failures m ++ (if succeeded then [] else [job_key job])) \/
   (exists e,
       run_control r = Raised e /\
       main_where (run_one job m) = MainRaised e /\
       main_failures (run_one job m) = main_failures m)).
Proof.
  intros r. unfold run_one. fold r.
  destruct (process_job_returns job (main_world m)) as [[succeeded Hret]|[e Hraise]];
    fold r in Hret || fold r in Hraise.
  - rewrite Hret. cbn. repeat (split; [done|]). left. exists succeeded.
    repeat (split; [done|]). destruct succeeded; [by rewrite app_nil_r|done].
  - rewrite Hraise. cbn. repeat (split; [done|]). right. by exists e.
Qed.

Lemma sum_list_cons (x : nat) (l : list nat) : sum_list (x :: l) = (x + sum_list l)%nat.
Proof. reflexivity. Qed.

Lemma process_job_launches_le `{Host} (job : Job) (w : World) :
  (length (run_launched (process_job job w)) <= Z.to_nat (remaining_tries job))%nat.
Proof.
  destruct (process_job_tries_accounted job w) as [Hpos Hacct].
  destruct (run_control (process_job job w)) as [|[]|];
    destruct Hpos as [?|[? Hnil]]; rewrite ?Hnil; cbn [length]; lia.
Qed.

(** The loop of [main] over a queue, from a state between two jobs. *)
Lemma run_queue_spec `{Host} (job_queue : list Job) (m : MainRun) :
  main_where m = MainLoop ->
  (main_where (run_queue job_queue m) = MainLoop \/
   exists e, main_where (run_queue job_queue m) = MainRaised e) /\
  (main_where (run_queue job_queue m) = MainLoop ->
   main_progress (run_queue job_queue m) = (main_progress m + length job_queue)%nat) /\
  (main_progress (run_queue job_queue m) <= main_progress m + length job_queue)%nat /\
  (length (main_launched (run_queue job_queue m)) <=
   length (main_launched m) +
   sum_list ((fun job => Z.to_nat (remaining_tries job)) <$> job_queue))%nat /\
  exists failed out,
    main_failures (run_queue job_queue m) = main_failures m ++ failed /\
    failed `sublist_of` (job_key <$> job_queue) /\
    main_stdout (run_queue job_queue m) = main_stdout m ++ out /\
    omap failed_line out = failed /\
    omap summary_line out = [] /\
    Forall (fun l => exists m', l = LineJob m') out.
Proof.
  revert m. induction job_queue as [|job rest IH]; intros m Hloop.
  - cbn [run_queue length fmap list_fmap sum_list]. rewrite !Nat.add_0_r.
    repeat split; [by left|lia..|].
    exists [], []. rewrite !app_nil_r. by repeat split.
  - cbn [run_queue].
    destruct (run_one_spec job m) as (Hout & Hlaunched & Hprogress & Hcases).
    destruct (process_job_fail_lines job (main_world m)) as [Hfail Hsum].
    pose proof (process_job_launches_le job (main_world m)) as Hle.
    assert (Hjob : Forall (fun l => exists m', l = LineJob m')
                     (LineJob <$> run_stdout (process_job job (main_world m)))).
    { apply Forall_fmap, Forall_true. intros m'. by exists m'. }
    cbn [length].
    destruct Hcases as [(succeeded & Hret & Hwhere & Hfailures)
                       |(e & Hraise & Hwhere & Hfailures)]; rewrite Hwhere;
      cbn beta iota.
    + destruct (IH (run_one job m) Hwhere)
        as (Hw & Hp & Hpb & Hl & failed & out & Hf & Hsub & Ho & Hfl & Hsl & Hjl).
      repeat split;
        [done|intros ?; rewrite Hp, Hprogress by done; lia
        |rewrite Hprogress in Hpb; lia| |].
      { rewrite Hlaunched, length_app in Hl. rewrite fmap_cons. rewrite sum_list_cons. lia. }
      rewrite Hret in Hfail.
      exists ((if succeeded then [] else [job_key job]) ++ failed),
             ((LineJob <$> run_stdout (process_job job (main_world m))) ++ out).
      rewrite Hf, Hfailures, Ho, Hout, <- !app_assoc, !omap_app, Hfl, Hsl, Hsum.
      repeat split; try done.
      * destruct succeeded; [by apply sublist_cons|by apply sublist_skip].
      * by destruct succeeded; rewrite Hfail.
      * by apply Forall_app.
    + repeat split; [right; by exists e|congruence|rewrite Hprogress; lia| |].
      { rewrite Hlaunched, length_app, fmap_cons. rewrite sum_list_cons. lia. }
      rewrite Hraise in Hfail.
      exists [], (LineJob <$> run_stdout (process_job job (main_world m))).
      rewrite Hfailures, app_nil_r. repeat split; try done.
      apply sublist_nil_l.
Qed.

Lemma summary_lines (failures : list (string * Z)) :
  omap summary_line (summary failures) = failures /\
  omap failed_line (summary failures) = [] /\
  (LineFailedHeader ∈ summary failures <-> failures <> []) /\
  (LineAllDone ∈ summary failures <-> failures = []).
Proof.
  assert (Hitems : forall fs : list (string * Z),
             omap summary_line (map (fun f => LineFailedJob f.1 f.2) fs) = fs /\
             omap failed_line (map (fun f => LineFailedJob f.1 f.2) fs) = [] /\
             LineAllDone ∉ map (fun f => LineFailedJob f.1 f.2) fs).
  { induction fs as [|[rid seed] fs (IH1 & IH2 & IH3)]; [repeat split; set_solver|].
    cbn. rewrite IH1, IH2. repeat split; [done..|]. set_solver. }
  destruct failures as [|f fs]; cbn [summary].
  - repeat split; try done; set_solver.
  - destruct (Hitems (f :: fs)) as (H1 & H2 & H3). cbn [omap list_omap summary_line failed_line].
    repeat split; try done; try set_solver.
Qed.

Lemma job_lines_not_summary (out : list line) :
  Forall (fun l => exists m', l = LineJob m') out ->
  (LineFailedHeader ∉ out) /\ (LineAllDone ∉ out) /\ (LineNoJobs ∉ out).
Proof.
  intros Hout. repeat split; intros Hin;
    rewrite Forall_forall in Hout; by destruct (Hout _ Hin).
Qed.

(** [main] once the queue is built and holds a job. *)
Lemma main_on_queue `{Host} (configs : list Config) (w w1 : World)
    (job : Job) (rest : list Job) :
  build_job_queue configs w = Ok (job :: rest, w1) ->
  let m0 := {| main_world := w1; main_stdout := []; main_launched := [];
               main_failures := []; main_progress := O; main_where := MainLoop |} in
  (main_where (run_queue (job :: rest) m0) = MainLoop /\
   main configs w =
     {| main_world := main_world (run_queue (job :: rest) m0);
        main_stdout := main_stdout (run_queue (job :: rest) m0) ++
                       summary (main_failures (run_queue (job :: rest) m0));
        main_launched := main_launched (run_queue (job :: rest) m0);
        main_failures := main_failures (run_queue (job :: rest) m0);
        main_progress := main_progress (run_queue (job :: rest) m0);
        main_where := MainReturned |}) \/
  (exists e, main_where (run_queue (job :: rest) m0) = MainRaised e /\
             main configs w = run_queue (job :: rest) m0).
Proof.
  intros Hqueue m0. unfold main. rewrite Hqueue. fold m0.
  destruct (run_queue_spec (job :: rest) m0 eq_refl) as ([Hloop|[e Hraise]] & _).
  - left. by rewrite Hloop.
  - right. exists e. by rewrite Hraise.
Qed.

(** X8.  When [main] returns, the jobs its summary lists are exactly
    the jobs whose [FAIL] line was printed, in the order of the queue;
    the summary opens with the failure header exactly when a job failed,
    and announces success only when none did. *)
Theorem main_summary_lists_failed_jobs `{Host} (configs : list Config) (w : World) :
  main_where (main configs w) = MainReturned ->
  omap summary_line (main_stdout (main configs w)) = main_failures (main configs w) /\
  omap failed_line (main_stdout (main configs w)) = main_failures (main configs w) /\
  (LineFailedHeader ∈ main_stdout (main configs w) <->
   main_failures (main configs w) <> []) /\
  (LineAllDone ∈ main_stdout (main configs w) ->
   main_failures (main configs w) = []).
Proof.
  destruct (build_job_queue configs w) as [[[|job rest] w1]|e] eqn:Hqueue.
  - unfold main. rewrite Hqueue. cbn. intros _. repeat split; try done; set_solver.
  - destruct (main_on_queue configs w w1 job rest Hqueue)
      as [[Hloop ->]|(e & Hraise & ->)]; [|by rewrite Hraise].
    intros _. cbn [main_stdout main_failures].
    destruct (run_queue_spec (job :: rest)
                {| main_world := w1; main_stdout := []; main_launched := [];
                   main_failures := []; main_progress := O; main_where := MainLoop |}
                eq_refl)
      as (_ & _ & _ & _ & failed & out & Hf & _ & Ho & Hfl & Hsl & Hjl).
    cbn [main_stdout main_failures app] in Hf, Ho. rewrite Hf, Ho.
    destruct (summary_lines failed) as (Hs1 & Hs2 & Hs3 & Hs4).
    destruct (job_lines_not_summary out Hjl) as (Hn1 & Hn2 & _).
    rewrite !omap_app, Hs1, Hs2, Hfl, Hsl, app_nil_r.
    repeat split; try done.
    + intros [?| ?]%elem_of_app; [done|by apply Hs3].
    + intros ?. apply elem_of_app. right. by apply Hs3.
    + intros [?| ?]%elem_of_app; [done|by apply Hs4].
  - unfold main. by rewrite Hqueue.
Qed.

(** X9.  Once the queue is built, [main] returns or is left by an
    exception of a job; [progress] is updated at most once per job, and
    when [main] returns it was updated once for every job of the queue,
    whatever jobs failed, and the failures it recorded are jobs of the
    queue, in queue order. *)
Theorem main_processes_whole_queue `{Host} (configs : list Config) (w w1 : World)
    (job_queue : list Job) :
  build_job_queue configs w = Ok (job_queue, w1) ->
  (main_where (main configs w) = MainReturned \/
   exists e, main_where (main configs w) = MainRaised e) /\
  (main_progress (main configs w) <= length job_queue)%nat /\
  (main_where (main configs w) = MainReturned ->
   main_progress (main configs w) = length job_queue /\
   main_failures (main configs w) `sublist_of` (job_key <$> job_queue)).
Proof.
  intros Hqueue. destruct job_queue as [|job rest].
  - unfold main. rewrite Hqueue. cbn. split; [by left|]. split; [lia|done].
  - destruct (run_queue_spec (job :: rest)
                {| main_world := w1; main_stdout := []; main_launched := [];
                   main_failures := []; main_progress := O; main_where := MainLoop |}
                eq_refl)
      as (_ & Hp & Hpb & _ & failed & out & Hf & Hsub & _).
    cbn [main_progress main_failures app Nat.add] in Hp, Hpb, Hf.
    destruct (main_on_queue configs w w1 job rest Hqueue)
      as [[Hloop ->]|(e & Hraise & ->)]; cbn [main_where main_progress main_failures].
    + split; [by left|]. split; [done|]. intros _. split; [by apply Hp|by rewrite Hf].
    + rewrite Hraise. split; [right; by exists e|]. by split.
Qed.

(** X10.  Over a whole run of [main] the evaluator is launched at most
    as often as the jobs of the queue have tries together. *)
Theorem main_launches_bounded `{Host} (configs : list Config) (w w1 : World)
    (job_queue : list Job) :
  build_job_queue configs w = Ok (job_queue, w1) ->
  (length (main_launched (main configs w)) <=
   sum_list ((fun job => Z.to_nat (remaining_tries job)) <$> job_queue))%nat.
Proof.
  intros Hqueue. destruct job_queue as [|job rest].
  - unfold main. rewrite Hqueue. cbn. lia.
  - destruct (run_queue_spec (job :: rest)
                {| main_world := w1; main_stdout := []; main_launched := [];
                   main_failures := []; main_progress := O; main_where := MainLoop |}
                eq_refl)
      as (_ & _ & _ & Hl & _).
    cbn [main_launched length Nat.add] in Hl.
    by destruct (main_on_queue configs w w1 job rest Hqueue)
      as [[Hloop ->]|(e & Hraise & ->)].
Qed.

Lemma preprocess_config_fails `{Host} (w : World) (raw : Config) :
  ~ all_required_exist w raw -> exists e, preprocess_config w raw = Raise e.
Proof.
  intros Hnot. destruct (decide (all_required_given raw)) as [Hgiven|Hmissing].
  - destruct (preprocess_config_given raw Hgiven) as (given & Hfields & Hrun).
    rewrite Hrun.
    destruct (check_required_paths_cases w
                ((fun entry => (entry.1, expand_path entry.2)) <$> given))
      as [[_ Hall]|(name & path & _ & _ & ->)]; [|by eexists].
    destruct Hnot. unfold all_required_exist. rewrite Hfields.
    rewrite Forall_fmap in Hall. rewrite Forall_fmap.
    eapply Forall_impl; [exact Hall|]. intros entry Hentry. by eexists.
  - destruct (preprocess_config_not_given w raw Hmissing) as [key ->]. by eexists.
Qed.

(** X11.  When the first configuration lacks a required path, or names
    one that does not exist, [main] is left by the exception of
    [preprocess_config] before anything is printed or launched, whatever
    the configurations after it. *)
Theorem main_stops_before_launch `{Host} (raw : Config) (rest : list Config)
    (w : World) :
  ~ all_required_exist w raw ->
  exists e,
    main (raw :: rest) w =
      {| main_world := w; main_stdout := []; main_launched := [];
         main_failures := []; main_progress := O; main_where := MainRaised e |}.
Proof.
  intros Hnot. destruct (preprocess_config_fails w raw Hnot) as [e Hfail].
  exists e.
  assert (Hbuild : build_job_queue (raw :: rest) w = Raise e).
  { unfold build_job_queue. cbn [for_each]. unfold add_config.
    change (([] : list Job, w).2) with w. by rewrite Hfail. }
  unfold main. by rewrite Hbuild.
Qed.

Lemma main_stops_before_launch_witness :
  exists e, main_where (@main (empty_host 0) [demo_cfg] tt) = MainRaised e.
Proof.
  destruct (@main_stops_before_launch (empty_host 0) demo_cfg [] tt) as [e He].
  - intros Hall. apply Forall_cons in Hall as [(path & _ & Hexists) _].
    discriminate Hexists.
  - exists e. by rewrite He.
Defined.

Lemma main_summary_lists_failed_jobs_witness :
  omap summary_line (main_stdout (@main (disk_host (exits_with 1)) [demo_cfg] demo_disk))
  = [("010", 1); ("002", 1); ("007", 1)].
Proof.
  destruct (@main_summary_lists_failed_jobs (disk_host (exits_with 1))
              [demo_cfg] demo_disk eq_refl) as (-> & _).
  reflexivity.
Defined.

Lemma main_processes_whole_queue_witness :
  main_progress (@main (disk_host (exits_with 1)) [demo_cfg] demo_disk) = 3%nat.
Proof.
  destruct (@build_job_queue (disk_host (exits_with 1)) [demo_cfg] demo_disk)
    as [[job_queue w1]|e] eqn:Hqueue; [|by vm_compute in Hqueue].
  destruct (@main_processes_whole_queue (disk_host (exits_with 1))
              [demo_cfg] demo_disk w1 job_queue Hqueue) as (_ & _ & Hall).
  destruct (Hall eq_refl) as [-> _].
  vm_compute in Hqueue. by injection Hqueue as <- _.
Defined.

Lemma main_launches_bounded_witness :
  (length (main_launched (@main (disk_host (exits_with 1)) [demo_cfg] demo_disk)) <= 9)%nat.
Proof.
  destruct (@build_job_queue (disk_host (exits_with 1)) [demo_cfg] demo_disk)
    as [[job_queue w1]|e] eqn:Hqueue; [|by vm_compute in Hqueue].
  pose proof (@main_launches_bounded (disk_host (exits_with 1))
                [demo_cfg] demo_disk w1 job_queue Hqueue) as Hbound.
  vm_compute in Hqueue. injection Hqueue as <- _. exact Hbound.
Defined.

(** ** More on resolving a configuration *)

Lemma check_required_paths_first `{Host} (w : World)
    (pre post : list (string * string)) (name path : string) :
  Forall (fun entry => path_exists w entry.2 = true) pre ->
  path_exists w path = false ->
  check_required_paths w (pre ++ (name, path) :: post) =
    Raise (FileNotFoundError (name +:+ " does not exist: " +:+ path)).
Proof.
  intros Hpre Hpath. induction Hpre as [|[n p] pre Hp _ IH]; cbn.
  - by rewrite Hpath.
  - cbn in Hp. by rewrite Hp.
Qed.

(** X12.  With the five required fields given, [preprocess_config]
    reports the first path that does not exist, in the order route_path,
    carla_root, repo_root, agent_file, checkpoint: the paths before it
    exist, and those after it are not looked at. *)
Theorem preprocess_config_first_missing_path `{Host} (w : World) (raw : Config)
    (pre post : list (string * option string)) (name path : string) :
  all_required_given raw ->
  required_fields raw = pre ++ (name, Some path) :: post ->
  Forall (fun field => exists p, field.2 = Some p /\
                                 path_exists w (expand_path p) = true) pre ->
  path_exists w (expand_path path) = false ->
  preprocess_config w raw =
    Raise (FileNotFoundError (name +:+ " does not exist: " +:+ expand_path path)).
Proof.
  intros Hgiven Hsplit Hpre Hpath.
  destruct (preprocess_config_given raw Hgiven) as (given & Hfields & ->).
  rewrite Hfields in Hsplit.
  apply fmap_app_inv in Hsplit as (gpre & grest & -> & Hrest & ->).
  destruct grest as [|[n p] gpost]; [done|].
  cbn in Hrest. injection Hrest as <- <- _.
  rewrite fmap_app, fmap_cons. cbn [fst snd].
  rewrite check_required_paths_first; [done| |done].
  rewrite Forall_fmap in Hpre. rewrite Forall_fmap.
  eapply Forall_impl; [exact Hpre|]. by intros entry (p0 & [= <-] & ?).
Qed.

(** X13.  A required field the configuration lacks makes
    [preprocess_config] raise [KeyError] with the first such key,
    whatever is on disk: no path is looked up before all five are
    read. *)
Theorem preprocess_config_first_missing_key `{Host} (w : World) (raw : Config)
    (pre post : list (string * option string)) (key : string) :
  required_fields raw = pre ++ (key, None) :: post ->
  Forall (fun field : string * option string => is_Some field.2) pre ->
  preprocess_config w raw = Raise (KeyError key).
Proof.
  unfold required_fields, preprocess_config. intros Hsplit Hpre.
  cbn [resolved cfg_route_path cfg_carla_root cfg_repo_root cfg_agent_file
       cfg_checkpoint].
  destruct pre as [|f1 [|f2 [|f3 [|f4 [|f5 pre]]]]]; cbn in Hsplit;
    simplify_eq;
    repeat match goal with
           | Hp : Forall _ (_ :: _) |- _ => apply Forall_cons in Hp as [[? ?] Hp]
           end;
    cbn [fst snd] in *;
    repeat match goal with
           | Hs : _ raw = Some _ |- _ => rewrite Hs; clear Hs
           | Hn : _ raw = None |- _ => rewrite Hn; clear Hn
           end; try done.
  by destruct pre.
Qed.

(** X14.  Where expanding a path twice gives what expanding it once
    gives, a configuration that [preprocess_config] returned is returned
    unchanged when resolved again. *)
Theorem preprocess_config_idempotent `{Host} (w : World) (raw cfg : Config) :
  (forall path, expand_path (expand_path path) = expand_path path) ->
  preprocess_config w raw = Ok cfg ->
  preprocess_config w cfg = Ok cfg.
Proof.
  intros Hidem Hok. pose proof (preprocess_config_ok _ _ _ Hok) as ->.
  assert (Hres : resolved (resolved raw) = resolved raw).
  { unfold resolved. cbn.
    destruct (cfg_checkpoint raw), (cfg_route_path raw), (cfg_out_root raw),
      (cfg_carla_root raw), (cfg_repo_root raw), (cfg_agent_file raw),
      (cfg_tries raw), (cfg_carla_port raw), (cfg_carla_tm_port raw),
      (cfg_timeout raw); cbn; by rewrite ?Hidem. }
  unfold preprocess_config in *. rewrite Hres. exact Hok.
Qed.

(** ** The shape of the queue *)

Lemma for_each_app {A S : Type} (body : S -> A -> result S) (l1 l2 : list A) (s : S) :
  for_each body (l1 ++ l2) s = for_each body l1 s ≫= for_each body l2.
Proof.
  revert s. induction l1 as [|x l1 IH]; intros s; [done|].
  cbn [app for_each]. destruct (body s x) as [s1|e]; [apply IH|done].
Qed.

(** A loop whose body only appends to the queue it is given can be run
    on the empty queue and its jobs appended afterwards. *)
Lemma for_each_prefix `{Host} {A : Type}
    (body : list Job * World -> A -> result (list Job * World)) (l : list A) :
  (forall jobs w x, body (jobs, w) x = prefix_jobs jobs <$> body ([], w) x) ->
  forall jobs w,
    for_each body l (jobs, w) = prefix_jobs jobs <$> for_each body l ([], w).
Proof.
  intros Hbody. induction l as [|x l IH]; intros jobs w.
  - cbn. unfold prefix_jobs. cbn. by rewrite app_nil_r.
  - cbn [for_each]. rewrite (Hbody jobs w x).
    destruct (body ([], w) x) as [[jobs1 w1]|e]; [|done].
    cbn [fmap result_fmap mbind result_bind].
    change (prefix_jobs jobs (jobs1, w1)) with (jobs ++ jobs1, w1).
    rewrite (IH (jobs ++ jobs1) w1), (IH jobs1 w1).
    destruct (for_each body l ([], w1)) as [[jobs2 w2]|e]; [|done].
    cbn. unfold prefix_jobs. cbn. by rewrite app_assoc.
Qed.

Lemma add_route_prefix `{Host} (cfg : Config) (base_dir : string) (seed : Z)
    (fill_zeros : nat) (route_dir : string) (jobs : list Job) (w : World)
    (name : string) :
  add_route cfg base_dir seed fill_zeros route_dir (jobs, w) name =
    prefix_jobs jobs <$> add_route cfg base_dir seed fill_zeros route_dir ([], w) name.
Proof.
  unfold add_route. cbn [fst snd].
  destruct (mkdir _ w) as [w1|e]; [|done]. cbn [mbind result_bind].
  by destruct (cfg_item "tries" (cfg_tries cfg)).
Qed.

Lemma add_seed_prefix `{Host} (cfg : Config) (routes : list string)
    (fill_zeros : nat) (route_dir : string) (jobs : list Job) (w : World) (seed : Z) :
  add_seed cfg routes fill_zeros route_dir (jobs, w) seed =
    prefix_jobs jobs <$> add_seed cfg routes fill_zeros route_dir ([], w) seed.
Proof.
  unfold add_seed. cbn [fst snd].
  destruct (cfg_item "out_root" (cfg_out_root cfg)) as [out_root|e]; [|done].
  destruct (cfg_item "agent" (cfg_agent cfg)) as [agent|e]; [|done].
  destruct (cfg_item "benchmark" (cfg_benchmark cfg)) as [benchmark|e]; [|done].
  cbn [mbind result_bind].
  destruct (for_each _ ["run"; "res"; "out"; "err"] w) as [w1|e]; [|done].
  cbn [mbind result_bind].
  apply (for_each_prefix _ routes (add_route_prefix cfg _ seed fill_zeros route_dir)).
Qed.

Lemma add_config_prefix `{Host} (jobs : list Job) (w : World) (raw : Config) :
  add_config (jobs, w) raw = prefix_jobs jobs <$> add_config ([], w) raw.
Proof.
  unfold add_config. cbn [fst snd].
  destruct (preprocess_config w raw) as [cfg|e]; [|done]. cbn [mbind result_bind].
  destruct (cfg_item "route_path" (cfg_route_path cfg)) as [route_dir|e]; [|done].
  cbn [mbind result_bind].
  destruct (discover_routes w route_dir) as [routes|e]; [|done].
  cbn [mbind result_bind].
  destruct (cfg_item "benchmark" (cfg_benchmark cfg)) as [benchmark|e]; [|done].
  cbn [mbind result_bind].
  apply (for_each_prefix _ _ (add_seed_prefix cfg routes _ route_dir)).
Qed.

(** X15.  The queue of configurations put one after the other is the
    queue of the first ones followed by the queue of the others, built
    in the world the first ones left; an exception of either is the
    exception of the whole. *)
Theorem build_job_queue_app `{Host} (configs1 configs2 : list Config) (w : World) :
  build_job_queue (configs1 ++ configs2) w =
    build_job_queue configs1 w ≫= fun s1 =>
      prefix_jobs s1.1 <$> build_job_queue configs2 s1.2.
Proof.
  unfold build_job_queue. rewrite for_each_app.
  destruct (for_each add_config configs1 ([], w)) as [[jobs1 w1]|e]; [|done].
  cbn [mbind result_bind fst snd].
  apply (for_each_prefix _ _ add_config_prefix).
Qed.

Lemma for_each_appends `{Host} {A : Type}
    (body : list Job * World -> A -> result (list Job * World))
    (new : A -> list Job) (l : list A) :
  (forall s x s', body s x = Ok s' -> s'.1 = s.1 ++ new x) ->
  forall s s', for_each body l s = Ok s' -> s'.1 = s.1 ++ (l ≫= new).
Proof.
  intros Hbody. induction l as [|x l IH]; intros s s' Hloop.
  - injection Hloop as <-. cbn. by rewrite app_nil_r.
  - cbn [for_each] in Hloop.
    apply result_bind_ok in Hloop as (s1 & Hfirst & Hrest).
    rewrite (IH _ _ Hrest), (Hbody _ _ _ Hfirst). cbn. by rewrite app_assoc.
Qed.

Lemma add_route_new `{Host} (cfg : Config) (base_dir : string) (seed : Z)
    (fill_zeros : nat) (route_dir : string) (tries : Z)
    (s s' : list Job * World) (name : string) :
  cfg_tries cfg = Some tries ->
  add_route cfg base_dir seed fill_zeros route_dir s name = Ok s' ->
  s'.1 = s.1 ++ [make_job cfg base_dir seed fill_zeros route_dir tries name].
Proof.
  intros Htries Hadd. unfold add_route in Hadd. rewrite Htries in Hadd.
  apply result_bind_ok in Hadd as (w & _ & Hadd). by injection Hadd as <-.
Qed.

Lemma add_seed_new `{Host} (cfg : Config) (routes : list string)
    (fill_zeros : nat) (route_dir : string) (tries : Z)
    (s s' : list Job * World) (seed : Z) :
  cfg_tries cfg = Some tries ->
  add_seed cfg routes fill_zeros route_dir s seed = Ok s' ->
  s'.1 = s.1 ++ (make_job cfg (base_dir_of cfg seed) seed fill_zeros route_dir tries
                   <$> routes).
Proof.
  intros Htries Hadd. unfold add_seed in Hadd.
  apply result_bind_ok in Hadd as (out_root & Hout & Hadd).
  apply result_bind_ok in Hadd as (agent & Hagent & Hadd).
  apply result_bind_ok in Hadd as (benchmark & Hbench & Hadd).
  apply result_bind_ok in Hadd as (w & _ & Hadd).
  unfold base_dir_of.
  destruct (cfg_out_root cfg); [injection Hout as ->|done].
  destruct (cfg_agent cfg); [injection Hagent as ->|done].
  destruct (cfg_benchmark cfg); [injection Hbench as ->|done].
  rewrite (for_each_appends _ (fun name => [make_job cfg _ seed fill_zeros route_dir
                                                     tries name])
             routes (fun s0 x s1 => add_route_new cfg _ seed fill_zeros route_dir
                                      tries s0 s1 x Htries) _ _ Hadd).
  cbn [fst default]. by f_equal.
Qed.

Lemma add_config_new `{Host} (s s' : list Job * World) (raw : Config) :
  add_config s raw = Ok s' ->
  exists cfg route_dir routes benchmark,
    preprocess_config s.2 raw = Ok cfg /\
    cfg_route_path cfg = Some route_dir /\
    discover_routes s.2 route_dir = Ok routes /\
    cfg_benchmark cfg = Some benchmark /\
    s'.1 = s.1 ++
      (default [1] (cfg_seeds raw) ≫= fun seed =>
         make_job cfg (base_dir_of cfg seed) seed (fill_zeros_of benchmark)
                  route_dir (default 1 (cfg_tries raw)) <$> routes).
Proof.
  intros Hadd. unfold add_config in Hadd.
  apply result_bind_ok in Hadd as (cfg & Hcfg & Hadd).
  apply result_bind_ok in Hadd as (route_dir & Hdir & Hadd).
  apply result_bind_ok in Hadd as (routes & Hroutes & Hadd).
  apply result_bind_ok in Hadd as (benchmark & Hbench & Hadd).
  destruct (cfg_route_path cfg) as [?|] eqn:Edir; [injection Hdir as ->|done].
  destruct (cfg_benchmark cfg) as [?|] eqn:Ebench; [injection Hbench as ->|done].
  exists cfg, route_dir, routes, benchmark. repeat (split; [done|]).
  assert (Htries : cfg_tries cfg = Some (default 1 (cfg_tries raw)))
    by (by rewrite (preprocess_config_ok _ _ _ Hcfg), resolved_tries).
  assert (Hseeds : cfg_seeds cfg = cfg_seeds raw)
    by (by rewrite (preprocess_config_ok _ _ _ Hcfg)).
  rewrite Hseeds in Hadd.
  apply (for_each_appends _ _ _
           (fun s0 x s1 => add_seed_new cfg routes _ route_dir _ s0 s1 x Htries)
           _ _ Hadd).
Qed.

Lemma bind_fmap_length {A B C : Type} (f : A -> B -> C) (l : list A) (r : list B) :
  length (l ≫= fun x => f x <$> r) = (length l * length r)%nat.
Proof.
  induction l as [|x l IH]; [done|].
  cbn. rewrite length_app, length_fmap. cbn in IH. rewrite IH. done.
Qed.

(** X16.  The queue of one configuration holds one job per seed and
    discovered route, seed by seed (seed 1 alone when [seeds] is not
    given) and, within a seed, route by route in sorted order; every
    job carries the resolved configuration and starts with the tries of
    the configuration, 1 when none is given. *)
Theorem build_job_queue_single_config `{Host} (raw : Config) (w w' : World)
    (jobs : list Job) :
  build_job_queue [raw] w = Ok (jobs, w') ->
  exists cfg route_dir routes,
    preprocess_config w raw = Ok cfg /\
    cfg_route_path cfg = Some route_dir /\
    discover_routes w route_dir = Ok routes /\
    (fun job => (job_seed job, job_route job)) <$> jobs =
      (default [1] (cfg_seeds raw) ≫= fun seed =>
         (fun name => (seed, path_join route_dir name)) <$> routes) /\
    length jobs = (length (default [1%Z] (cfg_seeds raw)) * length routes)%nat /\
    Forall (fun job => job_cfg job = cfg /\
                       remaining_tries job = default 1 (cfg_tries raw)) jobs.
Proof.
  intros Hqueue. unfold build_job_queue in Hqueue. cbn [for_each] in Hqueue.
  apply result_bind_ok in Hqueue as (s1 & Hadd & [= ->]).
  destruct (add_config_new _ _ _ Hadd)
    as (cfg & dir & routes & benchmark & Hcfg & Hdir & Hroutes & _ & Hjobs).
  cbn [fst snd app] in *. subst jobs.
  exists cfg, dir, routes. repeat (split; [done|]). split; [|split].
  - generalize (default [1] (cfg_seeds raw)). intros seeds.
    induction seeds as [|seed seeds IH]; [done|].
    cbn. rewrite fmap_app. cbn in IH. rewrite IH. f_equal.
    rewrite <- list_fmap_compose. done.
  - apply bind_fmap_length.
  - generalize (default [1] (cfg_seeds raw)). intros seeds.
    induction seeds as [|seed seeds IH]; [done|].
    cbn. apply Forall_app. split; [|exact IH].
    apply Forall_fmap, Forall_true. done.
Qed.

(** ** Route identifiers and output files *)

Lemma string_app_inj_r (x y s : string) : x +:+ s = y +:+ s -> x = y.
Proof.
  intros Heq.
  assert (Hlen : String.length x = String.length y).
  { apply (f_equal String.length) in Heq. rewrite !string_length_app in Heq. lia. }
  revert y Heq Hlen. induction x as [|c x IH]; intros [|d y] Heq Hlen;
    try done.
  rewrite !string_app_cons in Heq. injection Heq as -> Heq.
  f_equal. apply IH; [done|]. cbn in Hlen. lia.
Qed.

Lemma queued_job_of `{Host} (configs : list Config) (w w' : World)
    (jobs : list Job) (job : Job) :
  build_job_queue configs w = Ok (jobs, w') -> job ∈ jobs ->
  exists route_dir benchmark name,
    cfg_benchmark (job_cfg job) = Some benchmark /\
    job_of (job_cfg job) (fill_zeros_of benchmark) route_dir (job_seed job) name job.
Proof.
  intros Hqueue Hjob.
  destruct (add_configs_sound _ _ _ Hqueue job Hjob)
    as [Hnone|(raw & w0 & cfg & dir & routes & bench & seed & name
               & _ & _ & _ & _ & Hbench & _ & _ & Hof)];
    [by apply elem_of_nil in Hnone|].
  destruct (job_of_route_id _ _ _ _ _ _ Hof) as (<- & <- & _).
  by exists dir, bench, name.
Qed.

Lemma job_of_files `{Host} (cfg : Config) (fill_zeros : nat) (route_dir : string)
    (seed : Z) (name : string) (job : Job) :
  job_of cfg fill_zeros route_dir seed name job ->
  job_result_file job =
    path_join (path_join (base_dir_of cfg seed) "res") (job_route_id job +:+ "_res.json") /\
  job_log_file job =
    path_join (path_join (base_dir_of cfg seed) "out") (job_route_id job +:+ "_out.log") /\
  job_err_file job =
    path_join (path_join (base_dir_of cfg seed) "err") (job_route_id job +:+ "_err.log") /\
  job_viz_path job = path_join (path_join (base_dir_of cfg seed) "viz") (job_route_id job).
Proof.
  intros (out_root & agent & benchmark & tries & Hout & Hagent & Hbench & _ & ->).
  unfold base_dir_of. by rewrite Hout, Hagent, Hbench.
Qed.

(** X17.  Two jobs of the queue with the same configuration and seed
    that have the same route identifier share their result file, their
    two log files and their visualisation directory, even when their
    routes differ; and on a host whose join of paths keeps distinct
    children distinct, they share the result file only then. *)
Theorem queued_jobs_files_follow_route_id `{Host} (configs : list Config)
    (w w' : World) (jobs : list Job) (job1 job2 : Job) :
  build_job_queue configs w = Ok (jobs, w') ->
  job1 ∈ jobs -> job2 ∈ jobs ->
  job_cfg job1 = job_cfg job2 -> job_seed job1 = job_seed job2 ->
  (job_route_id job1 = job_route_id job2 ->
   job_result_file job1 = job_result_file job2 /\
   job_log_file job1 = job_log_file job2 /\
   job_err_file job1 = job_err_file job2 /\
   job_viz_path job1 = job_viz_path job2) /\
  ((forall dir child child', path_join dir child = path_join dir child' ->
                             child = child') ->
   job_result_file job1 = job_result_file job2 ->
   job_route_id job1 = job_route_id job2).
Proof.
  intros Hqueue Hjob1 Hjob2 Hcfg Hseed.
  destruct (queued_job_of _ _ _ _ _ Hqueue Hjob1) as (dir1 & bench1 & name1 & _ & Hof1).
  destruct (queued_job_of _ _ _ _ _ Hqueue Hjob2) as (dir2 & bench2 & name2 & _ & Hof2).
  apply job_of_files in Hof1 as (Hres1 & Hlog1 & Herr1 & Hviz1).
  apply job_of_files in Hof2 as (Hres2 & Hlog2 & Herr2 & Hviz2).
  rewrite <- Hcfg, <- Hseed in Hres2, Hlog2, Herr2, Hviz2.
  rewrite Hres1, Hlog1, Herr1, Hviz1, Hres2, Hlog2, Herr2, Hviz2. split.
  - by intros ->.
  - intros Hinj Hfile. apply Hinj in Hfile. by apply string_app_inj_r in Hfile.
Qed.

Lemma contains_app (c : ascii) (a b : string) :
  contains c (a +:+ b) = contains c a || contains c b.
Proof.
  induction a as [|d a IH]; [done|].
  rewrite string_app_cons. cbn [contains]. by rewrite IH, orb_assoc.
Qed.

Lemma contains_zeros (c : ascii) (n : nat) : c <> "0"%char -> contains c (zeros n) = false.
Proof.
  intros Hc. induction n as [|n IH]; [done|]. cbn [zeros contains]. rewrite IH.
  destruct (Ascii.eqb_spec "0" c); [by subst|done].
Qed.

Lemma contains_zfill (c : ascii) (width : nat) (s : string) :
  c <> "0"%char -> contains c (zfill width s) = contains c s.
Proof.
  intros Hc. unfold zfill. destruct (width <=? String.length s)%nat; [done|].
  destruct s as [|d rest]; [by rewrite contains_zeros|].
  destruct (Ascii.eqb d "+" || Ascii.eqb d "-").
  - cbn [contains]. by rewrite contains_app, contains_zeros.
  - by rewrite contains_app, contains_zeros.
Qed.

Lemma last_split_no_sep (sep : ascii) (s : string) :
  contains sep (List.last (split sep s) "") = false.
Proof.
  pose proof (split_no_sep sep s) as Hall.
  pose proof (split_nonempty sep s) as Hne.
  induction (split sep s) as [|part [|part' parts] IH]; [done| |].
  - by apply Forall_cons in Hall as [? _].
  - apply Forall_cons in Hall as [_ Hall]. by apply IH.
Qed.

(** X18.  The route identifier of a queued job holds no underscore and
    at least two characters, and at least three when the benchmark name
    lowers to ["bench2drive"]. *)
Theorem queued_route_ids_well_formed `{Host} (configs : list Config)
    (w w' : World) (jobs : list Job) (job : Job) :
  build_job_queue configs w = Ok (jobs, w') -> job ∈ jobs ->
  contains "_" (job_route_id job) = false /\
  (2 <= String.length (job_route_id job))%nat /\
  (forall benchmark,
      cfg_benchmark (job_cfg job) = Some benchmark ->
      lower benchmark = "bench2drive" ->
      (3 <= String.length (job_route_id job))%nat).
Proof.
  intros Hqueue Hjob.
  destruct (queued_job_of _ _ _ _ _ Hqueue Hjob) as (dir & bench & name & Hbench & Hof).
  apply job_of_route_id in Hof as (_ & _ & _ & ->).
  rewrite contains_zfill by done. rewrite last_split_no_sep, zfill_length.
  split; [done|]. split.
  - unfold fill_zeros_of. case_bool_decide; lia.
  - intros benchmark Hb Hlower. rewrite Hbench in Hb. injection Hb as <-.
    unfold fill_zeros_of. rewrite bool_decide_eq_true_2 by done. lia.
Qed.

Lemma preprocess_config_first_missing_path_witness :
  @preprocess_config (disk_host (exits_with 0)) disk_without_carla demo_cfg =
    Raise (FileNotFoundError "carla_root does not exist: /carla").
Proof.
  apply (@preprocess_config_first_missing_path (disk_host (exits_with 0))
           disk_without_carla demo_cfg [("route_path", Some "/routes")]
           [("repo_root", Some "/repo"); ("agent_file", Some "/repo/agent.py");
            ("checkpoint", Some "/ckpt/pytorch_model.pt")]
           "carla_root" "/carla").
  - repeat constructor; by eexists.
  - reflexivity.
  - repeat constructor. by exists "/routes".
  - reflexivity.
Defined.

Lemma preprocess_config_first_missing_key_witness :
  @preprocess_config (empty_host 0) tt cfg_without_repo_root =
    Raise (KeyError "repo_root").
Proof.
  apply (@preprocess_config_first_missing_key (empty_host 0) tt cfg_without_repo_root
           [("route_path", Some "/routes"); ("carla_root", Some "/carla")]
           [("agent_file", Some "/repo/agent.py");
            ("checkpoint", Some "/ckpt/pytorch_model.pt")]
           "repo_root").
  - reflexivity.
  - repeat constructor; by eexists.
Defined.

Lemma preprocess_config_idempotent_witness :
  @preprocess_config (disk_host (exits_with 0)) demo_disk
    (@resolved (disk_host (exits_with 0)) demo_cfg)
  = Ok (@resolved (disk_host (exits_with 0)) demo_cfg).
Proof.
  apply (@preprocess_config_idempotent (disk_host (exits_with 0)) demo_disk demo_cfg).
  - intros path. reflexivity.
  - reflexivity.
Defined.

Lemma build_job_queue_single_config_witness :
  exists jobs w',
    @build_job_queue (disk_host (exits_with 0)) [demo_cfg] demo_disk = Ok (jobs, w') /\
    (fun job => (job_seed job, job_route job)) <$> jobs =
      [(1, "/routes/route_10.xml"); (1, "/routes/route_2.xml");
       (1, "/routes/route_7.xml")].
Proof.
  destruct (@build_job_queue (disk_host (exits_with 0)) [demo_cfg] demo_disk)
    as [[jobs w']|e] eqn:Hqueue; [|by vm_compute in Hqueue].
  exists jobs, w'. split; [reflexivity|].
  destruct (@build_job_queue_single_config (disk_host (exits_with 0))
              demo_cfg demo_disk w' jobs Hqueue)
    as (cfg & dir & routes & Hcfg & Hdir & Hroutes & -> & _).
  vm_compute in Hcfg. injection Hcfg as <-.
  vm_compute in Hdir. injection Hdir as <-.
  vm_compute in Hroutes. injection Hroutes as <-.
  reflexivity.
Defined.

Lemma queued_jobs_files_follow_route_id_witness :
  exists job1 job2,
    job_route job1 = "/routes/a_7.xml" /\ job_route job2 = "/routes/b_7.xml" /\
    job_result_file job1 = job_result_file job2.
Proof.
  destruct (@build_job_queue (disk_host (exits_with 0)) [demo_cfg] twin_disk)
    as [[jobs w']|e] eqn:Hqueue; [|by vm_compute in Hqueue].
  pose proof (fun job1 job2 =>
                @queued_jobs_files_follow_route_id (disk_host (exits_with 0))
                  [demo_cfg] twin_disk w' jobs job1 job2 Hqueue) as Hshare.
  vm_compute in Hqueue. injection Hqueue as Hjobs _.
  destruct jobs as [|job1 [|job2 [|? ?]]]; try discriminate Hjobs.
  injection Hjobs as Hjob1 Hjob2.
  exists job1, job2.
  split; [by rewrite <- Hjob1|]. split; [by rewrite <- Hjob2|].
  apply Hshare.
  - apply list_elem_of_here.
  - apply list_elem_of_further, list_elem_of_here.
  - by rewrite <- Hjob1, <- Hjob2.
  - by rewrite <- Hjob1, <- Hjob2.
  - by rewrite <- Hjob1, <- Hjob2.
Defined.

Lemma queued_route_ids_well_formed_witness :
  exists job,
    job_route_id job = "007" /\ contains "_" (job_route_id job) = false.
Proof.
  destruct (@build_job_queue (disk_host (exits_with 0)) [demo_cfg] demo_disk)
    as [[jobs w']|e] eqn:Hqueue; [|by vm_compute in Hqueue].
  pose proof (fun job =>
                @queued_route_ids_well_formed (disk_host (exits_with 0))
                  [demo_cfg] demo_disk w' jobs job Hqueue) as Hwf.
  vm_compute in Hqueue. injection Hqueue as Hjobs _.
  destruct jobs as [|job1 [|job2 [|job3 [|? ?]]]]; try discriminate Hjobs.
  injection Hjobs as Hjob1 Hjob2 Hjob3.
  exists job3. split; [by rewrite <- Hjob3|].
  apply Hwf. do 2 apply list_elem_of_further. apply list_elem_of_here.
Defined.

(** ** More on the completion test *)

Lemma scan_records_first_failed (pre post : list json) (record : json) :
  Forall is_record pre -> failed_record record ->
  scan_records (pre ++ record :: post) = Ok true.
Proof.
  intros Hpre (fields & status & -> & Hstatus & Hin).
  induction Hpre as [|r pre (f & -> & Hhash) _ IH].
  - cbn [app]. rewrite scan_records_cons. cbn [py_get]. rewrite Hstatus.
    cbn [mbind result_bind in_FAIL_STATUSES]. by rewrite bool_decide_eq_true_2.
  - cbn [app]. rewrite scan_records_cons. cbn [py_get].
    destruct (dict_lookup "status" f) as [v|] eqn:Hv.
    + specialize (Hhash v eq_refl).
      destruct v; try done; cbn [mbind result_bind in_FAIL_STATUSES]; try exact IH.
      by destruct (bool_decide _).
    + exact IH.
Qed.

Lemma scan_records_not_a_dict (pre post : list json) (record : json) :
  Forall is_record pre -> Forall (fun r => ~ failed_record r) pre ->
  (forall fields, record <> JObj fields) ->
  scan_records (pre ++ record :: post) = Raise AttributeError.
Proof.
  intros Hpre Hclean Hnot.
  induction Hpre as [|r pre (f & -> & Hhash) _ IH].
  - cbn [app]. rewrite scan_records_cons.
    destruct record; try done. by destruct (Hnot fields).
  - apply Forall_cons in Hclean as [Hr Hclean].
    cbn [app]. rewrite scan_records_cons. cbn [py_get].
    destruct (dict_lookup "status" f) as [v|] eqn:Hv; [|by apply IH].
    specialize (Hhash v eq_refl).
    destruct v; try done; cbn [mbind result_bind in_FAIL_STATUSES]; try by apply IH.
    case_bool_decide as Hs; [|by apply IH].
    destruct Hr. by exists f, s.
Qed.

(** X19.  On a result file with a progress list of numbers, the records
    are read in order and the first one that failed decides: with
    attempt records before it, [needs_rerun] returns [True] whatever
    comes after it, well formed or not; while a record that is not an
    object, met before any failed one on a complete progress, ends the
    call with [AttributeError]. *)
Theorem needs_rerun_first_failure_decides `{Host} (job : Job) (w : World)
    (fields checkpoint : list (string * json)) (progress pre post : list json)
    (record : json) :
  path_exists w (job_result_file job) = true ->
  ujson_load w (job_result_file job) = Some (JObj fields) ->
  dict_lookup "_checkpoint" fields = Some (JObj checkpoint) ->
  dict_lookup "progress" checkpoint = Some (JArr progress) ->
  Forall is_number progress ->
  dict_lookup "records" checkpoint = Some (JArr (pre ++ record :: post)) ->
  Forall is_record pre ->
  (failed_record record -> needs_rerun job w = Ok true) /\
  ((forall fields, record <> JObj fields) ->
   Forall (fun r => ~ failed_record r) pre ->
   progress_incomplete (JArr progress) = Ok false ->
   needs_rerun job w = Raise AttributeError).
Proof.
  intros Hexists Hload Hcp Hprogress Hnum Hrecords Hpre.
  assert (Hdata : needs_rerun job w = needs_rerun_data (JObj fields)).
  { unfold needs_rerun. by rewrite Hexists, Hload. }
  rewrite Hdata, (needs_rerun_data_progress _ _ _ Hcp Hprogress).
  split.
  - intros Hfailed.
    destruct (progress_incomplete_numbers progress Hnum) as [incomplete ->].
    cbn [mbind result_bind]. destruct incomplete; [done|].
    cbn [py_get]. rewrite Hrecords. cbn [mbind result_bind py_iter].
    by apply scan_records_first_failed.
  - intros Hnot Hclean ->. cbn [mbind result_bind py_get]. rewrite Hrecords.
    cbn [mbind result_bind py_iter]. by apply scan_records_not_a_dict.
Qed.

Lemma needs_rerun_first_failure_decides_witness :
  @needs_rerun (disk_host (exits_with 0)) (demo_job 1) (demo_disk_with broken_result)
  = Ok true.
Proof.
  destruct (@needs_rerun_first_failure_decides (disk_host (exits_with 0)) (demo_job 1)
               (demo_disk_with broken_result)
               [("_checkpoint", JObj broken_checkpoint)] broken_checkpoint
               [JInt 1; JInt 1]
               [JObj [("status", JStr "Completed")]] [JInt 3]
               (JObj [("status", JStr "Failed")]))
    as [Hdecides _];
    [reflexivity|reflexivity|reflexivity|reflexivity| |reflexivity| |].
  - repeat constructor; by eexists.
  - repeat constructor; eexists; (split; [reflexivity|]);
      intros v [= <-]; exact I.
  - apply Hdecides. eexists _, _.
    split; [reflexivity|]. split; [reflexivity|]. by vm_compute.
Defined.

Lemma scan_records_false (records : list json) :
  scan_records records = Ok false ->
  Forall (fun record => (exists fields, record = JObj fields) /\ ~ failed_record record)
         records.
Proof.
  induction records as [|record records IH]; [by constructor|].
  rewrite scan_records_cons. intros Hscan.
  apply result_bind_ok in Hscan as (failed & Hstatus & Hscan).
  destruct failed; [discriminate|].
  constructor; [|by apply IH].
  apply result_bind_ok in Hstatus as (status & Hget & Hin).
  destruct record; try discriminate. split; [by eexists|].
  intros (f & s & Hf & Hs & Hfail). injection Hf as <-.
  cbn [py_get] in Hget. rewrite Hs in Hget. injection Hget as <-.
  cbn [in_FAIL_STATUSES] in Hin. injection Hin as Hin.
  by case_bool_decide.
Qed.

(** X20.  [needs_rerun] returns [False] only on a result file that
    exists and parses to an object with a [_checkpoint] object, whose
    progress has at least two items with the first not below the
    second, and whose records are all objects with no failed status. *)
Theorem needs_rerun_false_only_when_complete `{Host} (job : Job) (w : World) :
  needs_rerun job w = Ok false ->
  path_exists w (job_result_file job) = true /\
  exists fields checkpoint progress n completed total items,
    ujson_load w (job_result_file job) = Some (JObj fields) /\
    dict_lookup "_checkpoint" fields = Some (JObj checkpoint) /\
    dict_lookup "progress" checkpoint = Some progress /\
    py_len progress = Ok n /\ 2 <= n /\
    py_index progress 0 = Ok completed /\ py_index progress 1 = Ok total /\
    py_lt completed total = Ok false /\
    py_iter (default (JArr []) (dict_lookup "records" checkpoint)) = Ok items /\
    Forall (fun record => (exists f, record = JObj f) /\ ~ failed_record record) items.
Proof.
  unfold needs_rerun. intros Hrun.
  destruct (path_exists w (job_result_file job)); [|discriminate]. split; [done|].
  cbn [negb] in Hrun.
  destruct (ujson_load w (job_result_file job)) as [data|]; [|discriminate].
  unfold needs_rerun_data in Hrun.
  destruct data as [| | | | | |fields]; try discriminate.
  cbn [py_getitem] in Hrun.
  destruct (dict_lookup "_checkpoint" fields) as [cp|] eqn:Hcp; [|discriminate].
  cbn [mbind result_bind] in Hrun.
  destruct cp as [| | | | | |checkpoint]; try discriminate.
  cbn [py_getitem] in Hrun.
  destruct (dict_lookup "progress" checkpoint) as [progress|] eqn:Hprogress;
    [|discriminate].
  cbn [mbind result_bind] in Hrun.
  apply result_bind_ok in Hrun as (incomplete & Hinc & Hrun).
  destruct incomplete; [discriminate|].
  apply result_bind_ok in Hrun as (records & Hget & Hrun).
  apply result_bind_ok in Hrun as (items & Hiter & Hscan).
  unfold progress_incomplete in Hinc.
  apply result_bind_ok in Hinc as (n & Hlen & Hinc).
  destruct (n <? 2) eqn:Hn; [discriminate|]. apply Z.ltb_ge in Hn.
  apply result_bind_ok in Hinc as (completed & Hcompleted & Hinc).
  apply result_bind_ok in Hinc as (total & Htotal & Hlt).
  exists fields, checkpoint, progress, n, completed, total, items.
  repeat (split; [done|]). split.
  - cbn [py_get] in Hget. destruct (dict_lookup "records" checkpoint);
      injection Hget as <-; exact Hiter.
  - by apply scan_records_false.
Qed.

Lemma needs_rerun_false_only_when_complete_witness :
  @path_exists (disk_host (exits_with 0))
    (demo_disk_with (result_json 1 1 ["Completed"]))
    (job_result_file (demo_job 1)) = true.
Proof.
  apply (@needs_rerun_false_only_when_complete (disk_host (exits_with 0)) (demo_job 1)
           (demo_disk_with (result_json 1 1 ["Completed"]))).
  reflexivity.
Defined.

(** ** The environment and the command *)

Lemma split_whole (sep : ascii) (s : string) :
  contains sep s = false -> split sep s = [s].
Proof.
  induction s as [|c s IH]; [done|]. cbn [contains split].
  intros Hc. apply orb_false_iff in Hc as [-> Hs]. by rewrite (IH Hs).
Qed.

Lemma split_app_sep (sep : ascii) (a b : string) :
  split sep (a +:+ String sep b) = split sep a ++ split sep b.
Proof.
  induction a as [|c a IH].
  - change ("" +:+ String sep b) with (String sep b). cbn [split].
    by rewrite Ascii.eqb_refl.
  - rewrite string_app_cons. cbn [split]. rewrite IH.
    destruct (Ascii.eqb c sep); [done|].
    pose proof (split_nonempty sep a) as Hne.
    by destruct (split sep a).
Qed.

Lemma string_app_assoc (a b c : string) : (a +:+ b) +:+ c = a +:+ (b +:+ c).
Proof.
  induction a as [|x a IH]; [done|]. by rewrite !string_app_cons, IH.
Qed.

Lemma join_with_cons (sep : ascii) (x y : string) (rest : list string) :
  join_with sep (x :: y :: rest) = x +:+ String sep (join_with sep (y :: rest)).
Proof. reflexivity. Qed.

Lemma join_with_snoc (sep : ascii) (parts : list string) (x last : string) :
  join_with sep ((x :: parts) ++ [last]) = join_with sep (x :: parts) +:+ String sep last.
Proof.
  revert x. induction parts as [|y parts IH]; intros x; [done|].
  change ((x :: y :: parts) ++ [last]) with (x :: ((y :: parts) ++ [last])).
  change ((y :: parts) ++ [last]) with (y :: (parts ++ [last])).
  rewrite !join_with_cons.
  change (y :: (parts ++ [last])) with ((y :: parts) ++ [last]).
  rewrite IH. by rewrite string_app_assoc.
Qed.

Lemma join_split (sep : ascii) (parts : list string) :
  parts <> [] -> Forall (fun part => contains sep part = false) parts ->
  split sep (join_with sep parts) = parts.
Proof.
  intros Hne Hparts. induction Hparts as [|x parts Hx Hparts IH]; [done|].
  destruct parts as [|y parts]; [by apply split_whole|].
  rewrite join_with_cons, split_app_sep, (split_whole _ _ Hx), IH; done.
Qed.

Lemma os_path_join_contains (c : ascii) (a b : string) :
  c <> "/"%char -> contains c a = false -> contains c b = false ->
  contains c (os_path_join a b) = false.
Proof.
  intros Hc Ha Hb. unfold os_path_join.
  destruct (String.prefix "/" b); [done|].
  destruct (_ || _).
  - by rewrite contains_app, Ha, Hb.
  - rewrite !contains_app, Ha, Hb. cbn [contains orb].
    rewrite !orb_false_r. apply Ascii.eqb_neq. congruence.
Qed.

Lemma os_path_join_all_contains (c : ascii) (a : string) (parts : list string) :
  c <> "/"%char -> contains c a = false ->
  Forall (fun part => contains c part = false) parts ->
  contains c (os_path_join_all a parts) = false.
Proof.
  intros Hc Ha Hparts. unfold os_path_join_all. revert a Ha.
  induction Hparts as [|b parts Hb _ IH]; intros a Ha; [done|].
  cbn [fold_left]. apply IH. by apply os_path_join_contains.
Qed.

Lemma extra_py_paths_no_sep (carla_root repo_root : string) :
  contains ":" carla_root = false -> contains ":" repo_root = false ->
  Forall (fun part => contains ":" part = false) (extra_py_paths carla_root repo_root).
Proof.
  intros Hcarla Hrepo. unfold extra_py_paths.
  repeat constructor; try done;
    (apply os_path_join_all_contains; [done|done|by repeat constructor]).
Qed.

(** X21.  For a configuration whose two roots hold no colon,
    [prepare_environment] returns an environment whose [PYTHONPATH]
    lists the five paths of the evaluator first and then the entries
    the launcher's [PYTHONPATH] had, none when it was unset or empty;
    [CARLA_ROOT] and [SAVE_PATH] are the root and the visualisation
    path, and no variable other than the five it sets is changed. *)
Theorem prepare_environment_search_path (environ : gmap string string) (cfg : Config)
    (viz_path carla_root repo_root : string) :
  cfg_carla_root cfg = Some carla_root -> cfg_repo_root cfg = Some repo_root ->
  contains ":" carla_root = false -> contains ":" repo_root = false ->
  exists env python_path,
    prepare_environment environ cfg viz_path = Ok env /\
    env !! "PYTHONPATH" = Some python_path /\
    split ":" python_path =
      extra_py_paths carla_root repo_root ++
      match environ !! "PYTHONPATH" with
      | Some existing_py => if String.eqb existing_py "" then [] else split ":" existing_py
      | None => []
      end /\
    env !! "CARLA_ROOT" = Some carla_root /\
    env !! "SAVE_PATH" = Some viz_path /\
    forall name, name ∉ prepared_variables -> env !! name = environ !! name.
Proof.
  intros Hcarla Hrepo Hc Hr. unfold prepare_environment.
  rewrite Hcarla, Hrepo. cbn [cfg_item mbind result_bind].
  eexists _, _. split; [reflexivity|]. split; [by rewrite lookup_insert_eq|].
  split; [|split; [|split]].
  - rewrite !lookup_insert_ne by done.
    pose proof (extra_py_paths_no_sep _ _ Hc Hr) as Hextra.
    destruct (environ !! "PYTHONPATH") as [existing_py|]; cbn [from_option id].
    + destruct (String.eqb existing_py "").
      * rewrite app_nil_r. by apply join_split.
      * unfold extra_py_paths in *.
        rewrite join_with_snoc, split_app_sep. f_equal. by apply join_split.
    + cbn [String.eqb]. rewrite app_nil_r. by apply join_split.
  - rewrite !lookup_insert_ne by done. by rewrite lookup_insert_eq.
  - rewrite lookup_insert_ne by done. by rewrite lookup_insert_eq.
  - intros name Hname. unfold prepared_variables in Hname.
    rewrite !lookup_insert_ne; [done|set_solver..].
Qed.

Lemma prepare_environment_search_path_witness :
  exists env python_path,
    prepare_environment demo_environ demo_cfg "/out/viz/007" = Ok env /\
    env !! "PYTHONPATH" = Some python_path /\
    split ":" python_path =
      ["/carla/PythonAPI/carla";
       "/carla/PythonAPI/carla/dist/carla-0.9.15-py3.7-linux-x86_64.egg";
       "/repo";
       "/repo/Bench2Drive/leaderboard";
       "/repo/Bench2Drive/scenario_runner";
       "/usr/lib/python";
       "/opt/tools"] /\
    env !! "HOME" = Some "/root".
Proof.
  destruct (prepare_environment_search_path demo_environ demo_cfg "/out/viz/007"
              "/carla" "/repo")
    as (env & python_path & Henv & Hpath & Hsplit & _ & _ & Hframe);
    try reflexivity.
  exists env, python_path. split; [exact Henv|]. split; [exact Hpath|].
  split; [rewrite Hsplit; reflexivity|].
  rewrite Hframe; [reflexivity|]. unfold prepared_variables. set_solver.
Defined.

Lemma queued_cfg `{Host} (configs : list Config) (w w' : World)
    (jobs : list Job) (job : Job) :
  build_job_queue configs w = Ok (jobs, w') -> job ∈ jobs ->
  exists raw w0, raw ∈ configs /\ preprocess_config w0 raw = Ok (job_cfg job).
Proof.
  intros Hqueue Hjob.
  destruct (add_configs_sound _ _ _ Hqueue job Hjob)
    as [Hnone|(raw & w0 & cfg & dir & routes & bench & seed & name
               & Hraw & Hcfg & _ & _ & _ & _ & _ & Hof)];
    [by apply elem_of_nil in Hnone|].
  exists raw, w0. split; [done|].
  destruct Hof as (? & ? & ? & ? & _ & _ & _ & _ & ->). exact Hcfg.
Qed.

(** X22.  A job of the queue has all that [launch_job] reads of its
    configuration: the command is built without [KeyError], it points
    the evaluator at the result file of the job, with the timeout and
    the ports of the raw configuration or 600, 2000 and 2500 where it
    gives none, and the environment is prepared, with [SAVE_PATH] the
    visualisation path of the job. *)
Theorem queued_jobs_can_be_launched `{Host} (configs : list Config) (w w' : World)
    (jobs : list Job) (job : Job) :
  build_job_queue configs w = Ok (jobs, w') -> job ∈ jobs ->
  exists raw repo_root agent_file checkpoint,
    raw ∈ configs /\
    cfg_repo_root raw = Some repo_root /\ cfg_agent_file raw = Some agent_file /\
    cfg_checkpoint raw = Some checkpoint /\
    launch_command job =
      Ok ["python"; "-u";
          os_path_join_all (expand_path repo_root)
            ["Bench2Drive"; "leaderboard"; "leaderboard"; "leaderboard_evaluator.py"];
          "--routes=" +:+ job_route job;
          "--repetitions=1";
          "--track=SENSORS";
          "--checkpoint=" +:+ job_result_file job;
          "--timeout=" +:+ pretty (default 600 (cfg_timeout raw));
          "--agent=" +:+ expand_path agent_file;
          "--agent-config=" +:+ expand_path checkpoint;
          "--traffic-manager-seed=" +:+ pretty (job_seed job);
          "--port=" +:+ pretty (default 2000 (cfg_carla_port raw));
          "--traffic-manager-port=" +:+ pretty (default 2500 (cfg_carla_tm_port raw))] /\
    forall environ,
      exists env, prepare_environment environ (job_cfg job) (job_viz_path job) = Ok env /\
                  env !! "SAVE_PATH" = Some (job_viz_path job).
Proof.
  intros Hqueue Hjob.
  destruct (queued_cfg _ _ _ _ _ Hqueue Hjob) as (raw & w0 & Hraw & Hcfg).
  pose proof (preprocess_config_ok _ _ _ Hcfg) as Hres.
  unfold preprocess_config in Hcfg.
  apply result_bind_ok in Hcfg as (route_path & _ & Hcfg).
  apply result_bind_ok in Hcfg as (carla_root & Hcarla & Hcfg).
  apply result_bind_ok in Hcfg as (repo_root & Hrepo & Hcfg).
  apply result_bind_ok in Hcfg as (agent_file & Hagent & Hcfg).
  apply result_bind_ok in Hcfg as (checkpoint & Hcheckpoint & _).
  cbn [resolved cfg_carla_root cfg_repo_root cfg_agent_file cfg_checkpoint]
    in Hcarla, Hrepo, Hagent, Hcheckpoint.
  destruct (cfg_carla_root raw) as [carla0|] eqn:Hcarla0; [|discriminate].
  destruct (cfg_repo_root raw) as [repo0|] eqn:Hrepo0; [|discriminate].
  destruct (cfg_agent_file raw) as [agent0|] eqn:Hagent0; [|discriminate].
  destruct (cfg_checkpoint raw) as [checkpoint0|] eqn:Hcheckpoint0; [|discriminate].
  exists raw, repo0, agent0, checkpoint0. repeat (split; [done|]).
  split.
  - unfold launch_command. rewrite Hres.
    cbn [resolved cfg_repo_root cfg_timeout cfg_agent_file cfg_checkpoint
         cfg_carla_port cfg_carla_tm_port].
    rewrite Hrepo0, Hagent0, Hcheckpoint0, !setdefault_default. reflexivity.
  - intros environ. unfold prepare_environment. rewrite Hres.
    cbn [resolved cfg_carla_root cfg_repo_root]. rewrite Hcarla0, Hrepo0.
    cbn [fmap option_fmap option_map cfg_item mbind result_bind].
    eexists. split; [reflexivity|].
    rewrite lookup_insert_ne by done. by rewrite lookup_insert_eq.
Qed.

Lemma queued_jobs_can_be_launched_witness :
  exists job command,
    job_route_id job = "007" /\ launch_command job = Ok command /\
    command !! 6%nat = Some "--checkpoint=/out/simlingo/Bench2Drive/1/res/007_res.json".
Proof.
  destruct (@build_job_queue (disk_host (exits_with 0)) [demo_cfg] demo_disk)
    as [[jobs w']|e] eqn:Hqueue; [|by vm_compute in Hqueue].
  pose proof (fun job =>
                @queued_jobs_can_be_launched (disk_host (exits_with 0))
                  [demo_cfg] demo_disk w' jobs job Hqueue) as Hlaunch.
  vm_compute in Hqueue. injection Hqueue as Hjobs _.
  destruct jobs as [|job1 [|job2 [|job3 [|? ?]]]]; try discriminate Hjobs.
  injection Hjobs as Hjob1 Hjob2 Hjob3.
  destruct (Hlaunch job3) as (raw & repo & agent & ckpt & _ & _ & _ & _ & Hcommand & _).
  { do 2 apply list_elem_of_further. apply list_elem_of_here. }
  exists job3. eexists. split; [by rewrite <- Hjob3|]. split; [exact Hcommand|].
  cbn [lookup list_lookup]. by rewrite <- Hjob3.
Defined.

(** ** The video script *)

Lemma insert_by_Permutation {A : Type} (key : A -> N) (x : A) (l : list A) :
  insert_by key x l ≡ₚ x :: l.
Proof.
  induction l as [|y l IH]; [done|]. cbn [insert_by].
  destruct (key x <=? key y)%N; [done|]. by rewrite IH, Permutation_swap.
Qed.

Lemma sort_by_Permutation {A : Type} (key : A -> N) (l : list A) :
  sort_by key l ≡ₚ l.
Proof.
  induction l as [|x l IH]; [done|]. unfold sort_by. cbn [foldr].
  rewrite insert_by_Permutation. by f_equiv.
Qed.

Lemma insert_by_Sorted {A : Type} (key : A -> N) (x : A) (l : list A) :
  Sorted (fun a b => (key a <= key b)%N) l ->
  Sorted (fun a b => (key a <= key b)%N) (insert_by key x l).
Proof.
  induction 1 as [|y l Hl IH Hy]; [by repeat constructor|].
  cbn [insert_by]. destruct (key x <=? key y)%N eqn:Hxy.
  - apply N.leb_le in Hxy. by repeat constructor.
  - apply N.leb_gt in Hxy. constructor; [exact IH|].
    destruct Hy as [|z l Hyz]; cbn [insert_by].
    + constructor. lia.
    + destruct (key x <=? key z)%N; constructor; [lia|done].
Qed.

Lemma sort_by_Sorted {A : Type} (key : A -> N) (l : list A) :
  Sorted (fun a b => (key a <= key b)%N) (sort_by key l).
Proof.
  induction l as [|x l IH]; [constructor|]. by apply insert_by_Sorted.
Qed.

Lemma insert_by_filter_other {A : Type} (key : A -> N) (x : A) (l : list A) (n : N) :
  key x <> n ->
  filter (fun a => key a = n) (insert_by key x l) = filter (fun a => key a = n) l.
Proof.
  intros Hx. induction l as [|y l IH].
  - cbn [insert_by]. by rewrite filter_cons_False.
  - cbn [insert_by]. destruct (key x <=? key y)%N.
    + by rewrite filter_cons_False.
    + rewrite !filter_cons, IH. done.
Qed.

Lemma insert_by_filter_same {A : Type} (key : A -> N) (x : A) (l : list A) :
  Sorted (fun a b => (key a <= key b)%N) l ->
  filter (fun a => key a = key x) (insert_by key x l) =
    x :: filter (fun a => key a = key x) l.
Proof.
  induction 1 as [|y l Hl IH Hy]; [by cbn [insert_by]; rewrite filter_cons_True|].
  cbn [insert_by]. destruct (key x <=? key y)%N eqn:Hxy.
  - by rewrite filter_cons_True.
  - apply N.leb_gt in Hxy.
    rewrite (filter_cons_False _ y) by lia. rewrite (filter_cons_False _ y) by lia.
    exact IH.
Qed.

Lemma sort_by_stable {A : Type} (key : A -> N) (l : list A) (n : N) :
  filter (fun a => key a = n) (sort_by key l) = filter (fun a => key a = n) l.
Proof.
  induction l as [|x l IH]; [done|].
  change (sort_by key (x :: l)) with (insert_by key x (sort_by key l)).
  destruct (decide (key x = n)) as [<-|Hx].
  - rewrite insert_by_filter_same by apply sort_by_Sorted.
    by rewrite filter_cons_True, IH.
  - rewrite insert_by_filter_other by done. by rewrite filter_cons_False, IH.
Qed.

(** X23.  The files [create_video_from_images] works on are the
    entries named [.png], [.jpg] or [.jpeg], each as often as it is
    listed, in ascending order of the number extracted from the name;
    files with the same number keep the order of the listing. *)
Theorem image_files_sorted_stable (entries : list string) :
  Sorted (fun a b => (extract_number a <= extract_number b)%N) (image_files entries) /\
  image_files entries ≡ₚ filter is_image_name entries /\
  forall n,
    filter (fun f => extract_number f = n) (image_files entries) =
    filter (fun f => extract_number f = n) (filter is_image_name entries).
Proof.
  unfold image_files. split; [apply sort_by_Sorted|].
  split; [apply sort_by_Permutation|]. intros n. apply sort_by_stable.
Qed.

Lemma extract_number_no_digit (pre s : string) :
  has_digit pre = false -> extract_number (pre +:+ s) = extract_number s.
Proof.
  induction pre as [|c pre IH]; [done|]. cbn [has_digit].
  intros Hc. apply orb_false_iff in Hc as [Hc Hpre].
  rewrite string_app_cons. cbn [extract_number]. rewrite Hc. by apply IH.
Qed.

Lemma pretty_N_char_digit (x : N) :
  (x < 10)%N ->
  is_digit (pretty_N_char x) = true /\
  N.of_nat (nat_of_ascii (pretty_N_char x) - 48) = x.
Proof.
  intros Hx.
  assert (x = 0 \/ x = 1 \/ x = 2 \/ x = 3 \/ x = 4 \/ x = 5 \/ x = 6 \/
          x = 7 \/ x = 8 \/ x = 9)%N as Hcases by lia.
  repeat destruct Hcases as [->|Hcases]; try subst x; by vm_compute.
Qed.

Lemma digits_value_pretty_go (x : N) :
  exists k, forall acc s,
    digits_value acc (pretty_N_go x s) = digits_value (acc * k + x) s.
Proof.
  induction (N.lt_wf_0 x) as [x _ IH].
  destruct (decide (x = 0)%N) as [->|Hx].
  - exists 1%N. intros acc s. rewrite pretty_N_go_0. f_equal. lia.
  - destruct (IH (x `div` 10)%N) as [k Hk]; [apply N.div_lt; lia|].
    exists (k * 10)%N. intros acc s.
    rewrite pretty_N_go_step by lia. rewrite Hk. cbn [digits_value].
    destruct (pretty_N_char_digit (x `mod` 10)%N) as [-> ->];
      [apply N.mod_lt; lia|].
    f_equal. pose proof (N.div_mod x 10). lia.
Qed.

Lemma pretty_N_go_app (x : N) (s t : string) :
  pretty_N_go x s +:+ t = pretty_N_go x (s +:+ t).
Proof.
  revert s. induction (N.lt_wf_0 x) as [x _ IH]; intros s.
  destruct (decide (x = 0)%N) as [->|Hx]; [by rewrite !pretty_N_go_0|].
  rewrite (pretty_N_go_step x s), (pretty_N_go_step x (s +:+ t)) by lia.
  rewrite IH by (apply N.div_lt; lia). by rewrite string_app_cons.
Qed.

Lemma pretty_N_go_starts (x : N) (s : string) :
  (0 < x)%N -> starts_with_digit (pretty_N_go x s) = true.
Proof.
  revert s. induction (N.lt_wf_0 x) as [x _ IH]; intros s Hx.
  rewrite pretty_N_go_step by done.
  destruct (decide (x `div` 10 = 0)%N) as [->|Hdiv].
  - rewrite pretty_N_go_0. cbn [starts_with_digit].
    destruct (pretty_N_char_digit (x `mod` 10)%N) as [Hd _]; [apply N.mod_lt; lia|exact Hd].
  - apply IH; [apply N.div_lt; lia|by apply N.neq_0_lt_0].
Qed.

Lemma digits_value_stop (acc : N) (s : string) :
  starts_with_digit s = false -> digits_value acc s = acc.
Proof. destruct s as [|c s]; [done|]. cbn [starts_with_digit digits_value]. by intros ->. Qed.

Lemma extract_number_digits (s : string) :
  starts_with_digit s = true -> extract_number s = digits_value 0 s.
Proof. destruct s as [|c s]; [done|]. cbn [starts_with_digit extract_number]. by intros ->. Qed.

Lemma extract_number_pretty_here (n : N) (post : string) :
  starts_with_digit post = false -> extract_number (pretty n +:+ post) = n.
Proof.
  intros Hpost. unfold pretty, pretty_N.
  destruct (decide (n = 0)%N) as [->|Hn].
  - change ("0" +:+ post) with (String "0" post).
    cbn [extract_number]. change (is_digit "0") with true. cbn [digits_value].
    change (is_digit "0") with true. cbn iota.
    by rewrite digits_value_stop.
  - rewrite pretty_N_go_app. change ("" +:+ post) with post.
    rewrite extract_number_digits by (apply pretty_N_go_starts; lia).
    destruct (digits_value_pretty_go n) as [k ->].
    rewrite digits_value_stop by done. lia.
Qed.

(** X24.  [extract_number] reads back the number printed in a name:
    the first run of digits, after a prefix without digits and up to
    the first character that is not a digit. *)
Theorem extract_number_pretty (pre post : string) (n : N) :
  has_digit pre = false -> starts_with_digit post = false ->
  extract_number (pre +:+ pretty n +:+ post) = n.
Proof.
  intros Hpre Hpost. rewrite extract_number_no_digit by done.
  by apply extract_number_pretty_here.
Qed.

Lemma extract_number_pretty_witness :
  extract_number ("frame_" +:+ pretty 130%N +:+ ".png") = 130%N.
Proof. by apply extract_number_pretty. Defined.

Lemma endswith_app (suf a b : string) :
  endswith suf b = true -> endswith suf (a +:+ b) = true.
Proof.
  intros Hb. induction a as [|c a IH]; [done|].
  rewrite string_app_cons. cbn [endswith]. by rewrite IH, orb_true_r.
Qed.

Lemma is_image_name_app (a b : string) : is_image_name b -> is_image_name (a +:+ b).
Proof.
  unfold is_image_name. intros Hb.
  apply orb_true_iff in Hb as [Hb|Hb]; [apply orb_true_iff in Hb as [Hb|Hb]|];
    rewrite (endswith_app _ a b Hb); by rewrite ?orb_true_r.
Qed.

Lemma insert_by_fmap {A B : Type} (key : B -> N) (f : A -> B) (x : A) (l : list A) :
  insert_by key (f x) (f <$> l) = f <$> insert_by (key ∘ f) x l.
Proof.
  induction l as [|y l IH]; [done|]. cbn [insert_by fmap list_fmap compose].
  destruct (key (f x) <=? key (f y))%N; [done|]. cbn [fmap list_fmap]. by f_equal.
Qed.

Lemma sort_by_fmap {A B : Type} (key : B -> N) (f : A -> B) (l : list A) :
  sort_by key (f <$> l) = f <$> sort_by (key ∘ f) l.
Proof.
  induction l as [|x l IH]; [done|].
  change (sort_by key (f <$> x :: l)) with (insert_by key (f x) (sort_by key (f <$> l))).
  rewrite IH. apply insert_by_fmap.
Qed.

Lemma filter_all {A : Type} (P : A -> Prop) `{forall x, Decision (P x)} (l : list A) :
  Forall P l -> filter P l = l.
Proof.
  induction 1 as [|x l Hx _ IH]; [done|]. by rewrite filter_cons_True, IH.
Qed.

Lemma Sorted_weaken {A : Type} (R R' : A -> A -> Prop) (l : list A) :
  (forall a b, R a b -> R' a b) -> Sorted R l -> Sorted R' l.
Proof.
  intros HR. induction 1 as [|x l _ IH Hx]; constructor; [exact IH|].
  destruct Hx; constructor. by apply HR.
Qed.

(** X25.  Frames named by a number between a prefix without digits
    and an image suffix are put in the order of their numbers, not of
    their names, whatever the order of the listing. *)
Theorem image_files_numeric_order (pre post : string) (ns : list N) :
  has_digit pre = false -> starts_with_digit post = false -> is_image_name post ->
  exists sorted,
    Sorted N.le sorted /\ sorted ≡ₚ ns /\
    image_files (numbered_name pre post <$> ns) = numbered_name pre post <$> sorted.
Proof.
  intros Hpre Hpost Himage.
  exists (sort_by (extract_number ∘ numbered_name pre post) ns).
  split; [|split].
  - pose proof (sort_by_Sorted (extract_number ∘ numbered_name pre post) ns) as Hsorted.
    eapply Sorted_weaken; [|exact Hsorted]. intros a b. unfold compose, numbered_name.
    by rewrite !extract_number_pretty.
  - apply sort_by_Permutation.
  - unfold image_files. rewrite <- sort_by_fmap. f_equal.
    apply filter_all, Forall_fmap, Forall_forall. intros n _.
    unfold compose, numbered_name. by apply is_image_name_app, is_image_name_app.
Qed.

Lemma image_files_numeric_order_witness :
  exists sorted,
    Sorted N.le sorted /\ sorted ≡ₚ [130; 5; 10]%N /\
    image_files (numbered_name "" ".png" <$> [130; 5; 10]%N) =
      (numbered_name "" ".png" <$> sorted).
Proof. by apply image_files_numeric_order. Defined.

Lemma write_frames_written `{Imaging} (images_dir : string) (total i : nat)
    (files : list string) :
  omap written_frame (write_frames images_dir total i files) =
    omap (fun f => imread (os_path_join images_dir f)) files.
Proof.
  revert i. induction files as [|f files IH]; intros i; [done|].
  cbn [write_frames omap list_omap].
  destruct (imread (os_path_join images_dir f)) as [img|].
  - cbn [omap list_omap written_frame]. rewrite omap_app, IH.
    by destruct (S i mod 10 =? 0)%nat.
  - cbn [omap list_omap written_frame]. apply IH.
Qed.

Lemma write_frames_skipped `{Imaging} (images_dir : string) (total i : nat)
    (files : list string) :
  omap skipped_file (write_frames images_dir total i files) =
    filter (fun f => imread (os_path_join images_dir f) = None) files.
Proof.
  revert i. induction files as [|f files IH]; intros i; [done|].
  cbn [write_frames]. rewrite filter_cons.
  destruct (imread (os_path_join images_dir f)) as [img|].
  - cbn [omap list_omap skipped_file]. rewrite omap_app, IH.
    rewrite decide_False by done. by destruct (S i mod 10 =? 0)%nat.
  - cbn [omap list_omap skipped_file]. rewrite decide_True by done. by rewrite IH.
Qed.

Lemma write_frames_no_writer `{Imaging} (images_dir : string) (total i : nat)
    (files : list string) :
  omap opened_writer (write_frames images_dir total i files) = [].
Proof.
  revert i. induction files as [|f files IH]; intros i; [done|].
  cbn [write_frames].
  destruct (imread (os_path_join images_dir f)) as [img|].
  - cbn [omap list_omap opened_writer]. rewrite omap_app, IH.
    by destruct (S i mod 10 =? 0)%nat.
  - cbn [omap list_omap opened_writer]. apply IH.
Qed.

(** X26.  When the first image file in order can be read, the call
    creates one writer, for the given file and rate and with the width
    and height of that image, writes the images that can be read, in
    sorted order, warns about exactly those that cannot, and ends by
    reporting the video created. *)
Theorem create_video_writes_readable_frames `{Imaging} (images_dir output_video : string)
    (fps : Z) (entries : list string) (first : string) (rest : list string)
    (frame : Image) :
  listdir images_dir = Ok entries ->
  image_files entries = first :: rest ->
  imread (os_path_join images_dir first) = Some frame ->
  exists events,
    create_video_from_images images_dir output_video fps = Ok events /\
    omap written_frame events =
      omap (fun f => imread (os_path_join images_dir f)) (image_files entries) /\
    omap skipped_file events =
      filter (fun f => imread (os_path_join images_dir f) = None) (image_files entries) /\
    omap opened_writer events =
      [(output_video, fps, image_width frame, image_height frame)] /\
    List.last events VRelease = VCreated output_video.
Proof.
  intros Hlist Hfiles Hfirst. unfold create_video_from_images.
  rewrite Hlist. cbn [mbind result_bind]. rewrite Hfiles, Hfirst.
  eexists. split; [reflexivity|]. rewrite <- Hfiles.
  split; [|split; [|split]].
  - cbn [app omap list_omap written_frame]. rewrite omap_app.
    rewrite write_frames_written. cbn [omap list_omap written_frame].
    by rewrite app_nil_r.
  - cbn [app omap list_omap skipped_file]. rewrite omap_app.
    rewrite write_frames_skipped. cbn [omap list_omap skipped_file].
    by rewrite app_nil_r.
  - cbn [app omap list_omap opened_writer]. rewrite omap_app.
    by rewrite write_frames_no_writer.
  - change [VRelease; VCreated output_video]
      with ([VRelease] ++ [VCreated output_video]).
    rewrite !app_assoc. apply last_last.
Qed.

Lemma create_video_writes_readable_frames_witness :
  exists events,
    @create_video_from_images demo_imaging "/viz" "/viz/output_video.mp4" 5 = Ok events /\
    omap (@written_frame demo_imaging) events = ["/viz/1.jpg"; "/viz/10.png"] /\
    omap (@skipped_file demo_imaging) events = ["2.png"].
Proof.
  destruct (@create_video_writes_readable_frames demo_imaging "/viz"
              "/viz/output_video.mp4" 5 ["10.png"; "notes.txt"; "2.png"; "1.jpg"]
              "1.jpg" ["2.png"; "10.png"] "/viz/1.jpg")
    as (events & Hevents & Hwritten & Hskipped & _); try reflexivity.
  exists events. split; [exact Hevents|].
  split; [rewrite Hwritten|rewrite Hskipped]; reflexivity.
Defined.

Lemma result_ok_inj {A : Type} (a b : A) : Ok a = Ok b -> a = b.
Proof. by intros [= ->]. Qed.

Lemma create_video_events `{Imaging} (images_dir output_video : string)
    (fps : Z) (entries : list string) (first : string) (rest : list string)
    (frame : Image) :
  listdir images_dir = Ok entries ->
  image_files entries = first :: rest ->
  imread (os_path_join images_dir first) = Some frame ->
  create_video_from_images images_dir output_video fps =
    Ok ([VFound (length (image_files entries)) (take 5 (image_files entries));
         VLastFew (drop (length (image_files entries) - 5) (image_files entries))] ++
        [VDimensions (image_width frame) (image_height frame);
         VOpen output_video fps (image_width frame) (image_height frame)] ++
        write_frames images_dir (length (image_files entries)) 0 (image_files entries) ++
        [VRelease; VCreated output_video]).
Proof.
  intros Hlist Hfiles Hfirst. unfold create_video_from_images.
  rewrite Hlist. cbn [mbind result_bind]. by rewrite Hfiles, Hfirst.
Qed.

(** X27.  The call returns, and it reaches the video file (creates the
    writer, writes a frame, releases it) exactly when there is an image
    file and the first one in order can be read: an unreadable first
    image gives no video, however many others could be read. *)
Theorem create_video_needs_first_frame `{Imaging} (images_dir output_video : string)
    (fps : Z) (entries : list string) :
  listdir images_dir = Ok entries ->
  exists events,
    create_video_from_images images_dir output_video fps = Ok events /\
    (Exists touches_video events <->
     exists first, head (image_files entries) = Some first /\ readable images_dir first).
Proof.
  intros Hlist.
  destruct (image_files entries) as [|first rest] eqn:Hfiles.
  - unfold create_video_from_images. rewrite Hlist. cbn [mbind result_bind].
    rewrite Hfiles. eexists. split; [reflexivity|]. split.
    + rewrite Exists_cons, Exists_nil. by intros [[]|[]].
    + by intros (first & Hfirst & _).
  - destruct (imread (os_path_join images_dir first)) as [frame|] eqn:Hfirst.
    + rewrite (create_video_events _ output_video fps _ _ _ _ Hlist Hfiles Hfirst).
      eexists. split; [reflexivity|]. split.
      * intros _. exists first. split; [done|]. unfold readable. by rewrite Hfirst.
      * intros _. apply Exists_app. right. apply Exists_cons. right.
        apply Exists_cons. by left.
    + unfold create_video_from_images. rewrite Hlist. cbn [mbind result_bind].
      rewrite Hfiles, Hfirst. eexists. split; [reflexivity|]. split.
      * rewrite Exists_app, !Exists_cons, Exists_nil. by intros [[[]|[[]|[]]]|[[]|[]]].
      * intros (g & [= <-] & Hg). unfold readable in Hg. rewrite Hfirst in Hg.
        by destruct Hg.
Qed.

Lemma create_video_needs_first_frame_witness :
  (exists events,
     @create_video_from_images demo_imaging "/viz" "/viz/output_video.mp4" 5
       = Ok events /\
     Exists (@touches_video demo_imaging) events) /\
  (exists events,
     @create_video_from_images dark_imaging "/dark" "/dark/output_video.mp4" 5
       = Ok events /\
     Forall (fun e => ~ @touches_video dark_imaging e) events).
Proof.
  split.
  - destruct (@create_video_needs_first_frame demo_imaging "/viz"
                "/viz/output_video.mp4" 5
                ["10.png"; "notes.txt"; "2.png"; "1.jpg"] eq_refl)
      as (events & Hevents & Hreaches).
    exists events. split; [exact Hevents|]. apply Hreaches.
    exists "1.jpg". split; [reflexivity|]. by exists "/viz/1.jpg".
  - destruct (@create_video_needs_first_frame dark_imaging "/dark"
                "/dark/output_video.mp4" 5 ["3.png"; "1.png"; "2.png"] eq_refl)
      as (events & Hevents & Hreaches).
    exists events. split; [exact Hevents|].
    apply Forall_Exists_neg. intros Hsome.
    apply Hreaches in Hsome as (first & Hfirst & img & Himg).
    vm_compute in Hfirst. injection Hfirst as <-. discriminate Himg.
Defined.

Lemma write_frames_progress `{Imaging} (images_dir : string) (total i : nat)
    (files : list string) (d t : nat) :
  VProcessed d t ∈ write_frames images_dir total i files <->
  t = total /\ (d mod 10 = 0)%nat /\ (i < d)%nat /\
  exists f, files !! (d - 1 - i)%nat = Some f /\ readable images_dir f.
Proof.
  revert i. induction files as [|f files IH]; intros i.
  - cbn [write_frames]. split; [by intros ?%elem_of_nil|].
    by intros (_ & _ & _ & g & Hg & _).
  - cbn [write_frames].
    assert (Hlater : (S i < d)%nat ->
              (f :: files) !! (d - 1 - i)%nat = files !! (d - 1 - S i)%nat).
    { intros Hd. by replace (d - 1 - i)%nat with (S (d - 1 - S i)) by lia. }
    destruct (imread (os_path_join images_dir f)) as [img|] eqn:Hread.
    + rewrite elem_of_cons, elem_of_app, IH. split.
      * intros [Heq|[Hten|(-> & Hmod & Hd & g & Hg & Hreadable)]]; [done| |].
        -- destruct (S i mod 10 =? 0)%nat eqn:Hmod; [|by apply elem_of_nil in Hten].
           apply list_elem_of_singleton in Hten. injection Hten as -> ->.
           apply Nat.eqb_eq in Hmod. split; [done|]. split; [done|]. split; [lia|].
           exists f. replace (S i - 1 - i)%nat with O by lia. split; [done|].
           unfold readable. by rewrite Hread.
        -- split; [done|]. split; [done|]. split; [lia|].
           exists g. by rewrite Hlater.
      * intros (-> & Hmod & Hd & g & Hg & Hreadable).
        destruct (decide (d = S i)) as [->|Hne].
        -- right. left. apply Nat.eqb_eq in Hmod. rewrite Hmod.
           by apply list_elem_of_singleton.
        -- right. right. split; [done|]. split; [done|]. split; [lia|].
           exists g. by rewrite <- Hlater by lia.
    + rewrite elem_of_cons, IH. split.
      * intros [Heq|(-> & Hmod & Hd & g & Hg & Hreadable)]; [done|].
        split; [done|]. split; [done|]. split; [lia|].
        exists g. by rewrite Hlater.
      * intros (-> & Hmod & Hd & g & Hg & Hreadable). right.
        destruct (decide (d = S i)) as [->|Hne].
        -- replace (S i - 1 - i)%nat with O in Hg by lia. injection Hg as <-.
           unfold readable in Hreadable. rewrite Hread in Hreadable.
           by destruct Hreadable.
        -- split; [done|]. split; [done|]. split; [lia|].
           exists g. by rewrite <- Hlater by lia.
Qed.

(** X28.  A progress line is printed for position [d] exactly when [d]
    is a positive multiple of ten, the writer was created and the
    [d]-th image file could be read; it gives the number of image
    files as the total.  A tenth image that cannot be read gives no
    line. *)
Theorem create_video_progress_lines `{Imaging} (images_dir output_video : string)
    (fps : Z) (entries : list string) (events : list video_event) (d t : nat) :
  listdir images_dir = Ok entries ->
  create_video_from_images images_dir output_video fps = Ok events ->
  VProcessed d t ∈ events <->
  t = length (image_files entries) /\ (d mod 10 = 0)%nat /\ (0 < d)%nat /\
  (exists first, head (image_files entries) = Some first /\ readable images_dir first) /\
  exists f, image_files entries !! (d - 1)%nat = Some f /\ readable images_dir f.
Proof.
  intros Hlist Hevents.
  destruct (image_files entries) as [|first rest] eqn:Hfiles.
  - unfold create_video_from_images in Hevents.
    rewrite Hlist in Hevents. cbn [mbind result_bind] in Hevents.
    rewrite Hfiles in Hevents. apply result_ok_inj in Hevents as <-. split.
    + intros Hin. apply list_elem_of_singleton in Hin. discriminate.
    + by intros (_ & _ & _ & _ & f & Hf & _).
  - destruct (imread (os_path_join images_dir first)) as [frame|] eqn:Hfirst.
    + rewrite (create_video_events _ _ _ _ _ _ _ Hlist Hfiles Hfirst) in Hevents.
      apply result_ok_inj in Hevents as <-. rewrite <- Hfiles.
      rewrite !elem_of_app, !elem_of_cons, write_frames_progress.
      rewrite Nat.sub_0_r. split.
      * intros [[Heq|[Heq|Hnil]]|[[Heq|[Heq|Hnil]]|[Hframes|[Heq|[Heq|Hnil]]]]];
          try discriminate; try by apply elem_of_nil in Hnil.
        destruct Hframes as (-> & Hmod & Hd & Hf).
        repeat (split; [done|]). split; [|done].
        exists first. rewrite Hfiles. split; [done|]. unfold readable. by rewrite Hfirst.
      * intros (-> & Hmod & Hd & _ & Hf). right. right. left. done.
    + unfold create_video_from_images in Hevents.
      rewrite Hlist in Hevents. cbn [mbind result_bind] in Hevents.
      rewrite Hfiles, Hfirst in Hevents. apply result_ok_inj in Hevents as <-. split.
      * rewrite !elem_of_app, !elem_of_cons.
        intros [[Heq|[Heq|Hnil]]|[Heq|Hnil]];
          try discriminate; by apply elem_of_nil in Hnil.
      * intros (_ & _ & _ & (g & [= <-] & Hg) & _).
        unfold readable in Hg. rewrite Hfirst in Hg. by destruct Hg.
Qed.

Lemma create_video_progress_lines_witness :
  exists events,
    @create_video_from_images demo_imaging "/run" "/run/output_video.mp4" 5 = Ok events /\
    @VProcessed demo_imaging 10 12 ∈ events.
Proof.
  destruct (@create_video_from_images demo_imaging "/run" "/run/output_video.mp4" 5)
    as [events|e] eqn:Hevents; [|by vm_compute in Hevents].
  exists events. split; [reflexivity|].
  apply (@create_video_progress_lines demo_imaging "/run" "/run/output_video.mp4" 5
           ["0.png"; "1.png"; "10.png"; "11.png"; "2.png"; "3.png"; "4.png";
            "5.png"; "6.png"; "7.png"; "8.png"; "9.png"]
           events 10 12 eq_refl Hevents).
  split; [reflexivity|]. split; [reflexivity|]. split; [lia|]. split.
  - exists "0.png". split; [reflexivity|]. by eexists.
  - exists "9.png". split; [reflexivity|]. by eexists.
Defined.
